(** * The Go runtime core of the ucore SMP port: low-level synchronisation,
    the finalizer table, the page allocator's zeroing, time.sleep and the
    channel operations, embedded as executable definitions. *)

From Stdlib Require Import ZArith Lia List Bool String.
From stdpp Require Import base numbers list gmap.

Local Open Scope Z_scope.

(** ** Machine integers *)

Module Mach.

(** A [uint32] cell keeps its value modulo 2^32. *)
Definition u32 (x : Z) : Z := x mod 2 ^ 32.

(** The C cast [(int32)x] of a 32-bit word. *)
Definition int32 (x : Z) : Z :=
  let y := x mod 2 ^ 32 in if y <? 2 ^ 31 then y else y - 2 ^ 32.

(** An [int64] (Go) keeps its value in two's complement on 64 bits. *)
Definition int64 (x : Z) : Z :=
  let y := x mod 2 ^ 64 in if y <? 2 ^ 63 then y else y - 2 ^ 64.

(** Modelled from the spec: [runtime·xadd(&cell, delta)] is in the
    architecture's assembly, which is not among the sources.  It is the
    atomic add on the "atomic counter" of the locks and semaphores: it adds
    [delta] to the cell and returns the new value (the callers test
    [xadd(&key, 1) > 1] for "someone else has it").  The pair is (returned
    value, new cell content). *)
Definition xadd (cell delta : Z) : Z * Z :=
  let v := u32 (cell + delta) in (v, v).

(** [runtime·cas(p, old, new)], as the comment in [initsema] spells it
    out: when the cell holds [old] it is set to [new] and the call returns
    true; otherwise the cell is left alone and the call returns false. *)
Definition cas (cell old new : Z) : bool * Z :=
  if cell =? old then (true, new) else (false, cell).

End Mach.

(** ** The kernel's counting semaphores

  [thread.c] reaches the kernel through the four system calls of
  [amd64/sys.s]: sem_init (40), sem_post (41), sem_wait (42) and
  sem_free (43). *)

Module Kernel.

Inductive syscall : Type :=
| SysSemInit (value handle : Z)
| SysSemPost (handle : Z)
| SysSemWait (handle timeout : Z)
| SysSemFree (handle : Z).

Record ksem : Type := { kvalue : Z; kwaiting : nat }.

(** Modelled from the spec: the kernel side of the semaphore system calls
    is not part of the runtime sources; it is the "kernel semaphore" of the
    low-level synchronisation section: a counter, threads blocked on it
    when it is zero, and a post that wakes one of them.  [klog] records the
    system calls made, most recent first. *)
Record kernel : Type :=
  { sems : gmap Z ksem; fresh : positive; klog : list syscall }.

Definition boot : kernel := {| sems := ∅; fresh := 1%positive; klog := [] |}.

Definition sem_init (value : Z) (k : kernel) : Z * kernel :=
  let h := Z.pos (fresh k) in
  (h, {| sems := <[h := {| kvalue := value; kwaiting := 0 |}]> (sems k);
         fresh := Pos.succ (fresh k);
         klog := SysSemInit value h :: klog k |}).

Definition sem_free (h : Z) (k : kernel) : kernel :=
  {| sems := delete h (sems k); fresh := fresh k;
     klog := SysSemFree h :: klog k |}.

(** The boolean tells whether the caller is put to sleep in the kernel. *)
Definition sem_wait (h timeout : Z) (k : kernel) : bool * kernel :=
  match sems k !! h with
  | Some s =>
      if 0 <? kvalue s
      then (false,
            {| sems := <[h := {| kvalue := kvalue s - 1;
                                 kwaiting := kwaiting s |}]> (sems k);
               fresh := fresh k;
               klog := SysSemWait h timeout :: klog k |})
      else (true,
            {| sems := <[h := {| kvalue := kvalue s;
                                 kwaiting := S (kwaiting s) |}]> (sems k);
               fresh := fresh k;
               klog := SysSemWait h timeout :: klog k |})
  | None =>
      (false, {| sems := sems k; fresh := fresh k;
                 klog := SysSemWait h timeout :: klog k |})
  end.

(** The number is how many sleeping threads the post makes runnable. *)
Definition sem_post (h : Z) (k : kernel) : nat * kernel :=
  match sems k !! h with
  | Some s =>
      match kwaiting s with
      | S w =>
          (1%nat,
           {| sems := <[h := {| kvalue := kvalue s; kwaiting := w |}]> (sems k);
              fresh := fresh k;
              klog := SysSemPost h :: klog k |})
      | O =>
          (0%nat,
           {| sems := <[h := {| kvalue := kvalue s + 1;
                                kwaiting := 0 |}]> (sems k);
              fresh := fresh k;
              klog := SysSemPost h :: klog k |})
      end
  | None =>
      (0%nat, {| sems := sems k; fresh := fresh k;
                 klog := SysSemPost h :: klog k |})
  end.

(** The semaphore [h] exists, holds no credit and nobody sleeps on it. *)
Definition idle (h : Z) (k : kernel) : Prop :=
  h = 0 \/ sems k !! h = Some {| kvalue := 0; kwaiting := 0 |}.

Definition waiters (h : Z) (k : kernel) : nat :=
  match sems k !! h with Some s => kwaiting s | None => 0%nat end.

End Kernel.

(** ** thread.c: locks, user semaphores and notes *)

Module Thread.
Import Mach Kernel.


(** How a call into the runtime ends: it returns, it throws (the process
    aborts), or the calling thread is asleep inside [sem_wait]; the value
    carried is the state at that point. *)
Inductive outcome (A : Type) : Type :=
| Returned (a : A)
| Parked (a : A)
| Throw (msg : string).
Arguments Returned {A} a.
Arguments Parked {A} a.
Arguments Throw {A} msg.

(** [initsema(psema, value)]: the cell [*psema] and the kernel. *)
Definition initsema (psema : Z) (value : Z) (k : kernel) : Z * kernel :=
  if negb (psema =? 0) then (psema, k)
  else
    let '(sema, k1) := sem_init value k in
    let '(ok, cell) := cas psema 0 sema in
    if negb ok then (cell, sem_free sema k1) else (cell, k1).

Record Lock : Type := { key : Z; sema : Z }.

(** The part of the machine a lock operation touches: [m->locks], the
    lock and the kernel. *)
Record lstate : Type := { mlocks : Z; lk : Lock; lkern : kernel }.

Definition lock (s : lstate) : outcome lstate :=
  if mlocks s <? 0 then Throw "lock count"
  else
    let locks := int32 (mlocks s + 1) in
    let '(v, key') := xadd (key (lk s)) 1 in
    if 1 <? v then
      let '(sema', k1) :=
        if sema (lk s) =? 0 then initsema (sema (lk s)) 0 (lkern s)
        else (sema (lk s), lkern s) in
      let '(asleep, k2) := sem_wait sema' 0 k1 in
      let s' := {| mlocks := locks;
                   lk := {| key := key'; sema := sema' |};
                   lkern := k2 |} in
      if asleep then Parked s' else Returned s'
    else
      Returned {| mlocks := locks;
                  lk := {| key := key'; sema := sema (lk s) |};
                  lkern := lkern s |}.

Definition unlock (s : lstate) : outcome lstate :=
  let locks := int32 (mlocks s - 1) in
  if locks <? 0 then Throw "lock count"
  else
    let '(v, key') := xadd (key (lk s)) (-1) in
    if 0 <? v then
      let '(sema', k1) :=
        if sema (lk s) =? 0 then initsema (sema (lk s)) 0 (lkern s)
        else (sema (lk s), lkern s) in
      let '(_, k2) := sem_post sema' k1 in
      Returned {| mlocks := locks;
                  lk := {| key := key'; sema := sema' |};
                  lkern := k2 |}
    else
      Returned {| mlocks := locks;
                  lk := {| key := key'; sema := sema (lk s) |};
                  lkern := lkern s |}.

(** User-level semaphore: the counter [u] and the kernel semaphore [k]. *)
Record Usema : Type := { u : Z; k : Z }.

Definition usemacquire (s : Usema) (kn : kernel) : outcome (Usema * kernel) :=
  let '(v, u') := xadd (u s) (-1) in
  if int32 v <? 0 then
    let '(k', k1) :=
      if k s =? 0 then initsema (k s) 0 kn else (k s, kn) in
    let '(asleep, k2) := sem_wait k' 0 k1 in
    if asleep then Parked ({| u := u'; k := k' |}, k2)
    else Returned ({| u := u'; k := k' |}, k2)
  else Returned ({| u := u'; k := k s |}, kn).

Definition usemrelease (s : Usema) (kn : kernel) : Usema * kernel :=
  let '(v, u') := xadd (u s) 1 in
  if int32 v <=? 0 then
    let '(k', k1) :=
      if k s =? 0 then initsema (k s) 0 kn else (k s, kn) in
    let '(_, k2) := sem_post k' k1 in
    ({| u := u'; k := k' |}, k2)
  else ({| u := u'; k := k s |}, kn).

(** Modelled from the spec: [Note] is declared in runtime.h, which is not
    among the sources.  It is the one-shot event whose [clear] resets it:
    a union whose first word is named [state] by [noteclear] and [wakeup]
    by [notewakeup] and [notesleep], followed by the user semaphore. *)
Record Note : Type := { state : Z; nsema : Usema }.

Definition wakeup (n : Note) : Z := state n.

Definition noteclear (n : Note) : Note :=
  {| state := 0; nsema := nsema n |}.

Definition notewakeup (n : Note) (kn : kernel) : Note * kernel :=
  let '(s', kn') := usemrelease (nsema n) kn in
  ({| state := 1; nsema := s' |}, kn').

(** [while(!n->wakeup) usemacquire(&n->sema);] with the number of loop
    tests bounded by [fuel]; [None] when the bound is reached.  A thread
    parked inside [usemacquire] continues, once released, with the loop
    test: with [notesleep] again on the state it then finds. *)
Fixpoint notesleep (fuel : nat) (n : Note) (kn : kernel)
  : option (outcome (Note * kernel)) :=
  match fuel with
  | O => None
  | S fuel' =>
      if wakeup n =? 0 then
        match usemacquire (nsema n) kn with
        | Returned (s', kn') =>
            notesleep fuel' {| state := state n; nsema := s' |} kn'
        | Parked (s', kn') =>
            Some (Parked ({| state := state n; nsema := s' |}, kn'))
        | Throw msg => Some (Throw msg)
        end
      else Some (Returned (n, kn))
  end.

(** The system calls made between two kernel states, most recent first. *)
Definition calls_since (before after : kernel) : list syscall :=
  take (length (klog after) - length (klog before)) (klog after).

Definition is_wait (c : syscall) : bool :=
  match c with SysSemWait _ _ => true | _ => false end.

Definition is_post (c : syscall) : bool :=
  match c with SysSemPost _ => true | _ => false end.

(** The state an outcome carries, if any. *)
Definition state_of {A : Type} (o : outcome A) : option A :=
  match o with
  | Returned a | Parked a => Some a
  | Throw _ => None
  end.


(** A lock nobody has touched, on a freshly booted kernel, seen by a thread
    that holds no lock. *)
Definition lock0 : lstate :=
  {| mlocks := 0; lk := {| key := 0; sema := 0 |}; lkern := boot |}.

(** The same lock and kernel seen from another thread, whose [m->locks]
    is [locks]. *)
Definition seen_by (locks : Z) (s : lstate) : lstate :=
  {| mlocks := locks; lk := lk s; lkern := lkern s |}.

(** One more [notesleep] by a thread whose previous call has returned;
    [fuel] bounds its loop tests. *)
Definition sleep_again (fuel : nat) (o : option (outcome (Note * kernel)))
  : option (outcome (Note * kernel)) :=
  match o with
  | Some (Returned (n, kn)) => notesleep fuel n kn
  | _ => o
  end.

(** A note nobody has touched. *)
Definition note0 : Note := {| state := 0; nsema := {| u := 0; k := 0 |} |}.

End Thread.

(** ** Package time: sleep *)

Module Time.
Import Mach.

(** What the world does at one turn of the loop of [sleep]: the result of
    [sysSleep] (an error, or none) and the clock read by the [Nanoseconds]
    that follows. *)
Record turn : Type := { sys_err : option string; clock : Z }.

(** The loop [for t < end { ... }]; it also collects the durations asked of
    [sysSleep].  [None]: the turns listed are used up and the loop is still
    running. *)
Fixpoint sleep_loop (env : list turn) (t end_ : Z) (asked : list Z)
  : option (Z * option string * list Z) :=
  if t <? end_ then
    match env with
    | [] => None
    | w :: env' =>
        let asked' := asked ++ [int64 (end_ - t)] in
        match sys_err w with
        | Some err => Some (0, Some err, asked')
        | None => sleep_loop env' (int64 (clock w)) end_ asked'
        end
    end
  else Some (t, None, asked).

(** [func sleep(t, ns int64) (int64, os.Error)] *)
Definition sleep (env : list turn) (t ns : Z)
  : option (Z * option string * list Z) :=
  let end_ := int64 (t + ns) in
  sleep_loop env t end_ [].

(** The largest [int64], as in [time.Sleep(1<<63 - 1)]. *)
Definition maxInt64 : Z := 2 ^ 63 - 1.

End Time.

(** ** Memory from the kernel: SysAlloc *)

Module Mem.
Import Mach.

(** Mapped bytes: address to byte; an address that is not in the map is not
    mapped, and touching it faults. *)
Abbreviation memory := (gmap Z Z).

Definition u64 (x : Z) : Z := x mod 2 ^ 64.

(** [runtime·mmap(&p, n, MMAP_WRITE, 0, 0, 0)] is system call 20; what the
    kernel does is not in the sources and is taken as given: it either
    grants [n] bytes at an address of its choice and stores the address in
    [p], or fails and leaves [p] alone.  What the fresh bytes hold is the
    kernel's business: [garbage]. *)
Definition mmap (grant : option Z) (garbage : Z -> Z) (p n : Z) (m : memory)
  : Z * memory :=
  match grant with
  | Some a => (a, foldl (fun m' x => <[x := garbage x]> m') m (seqZ a n))
  | None => (p, m)
  end.

(** Modelled from the spec: [runtime·memclr(p, n)] is in the
    architecture's assembly, which is not among the sources.  It is the
    zeroing of the allocator: a zero byte is stored at each of the [n]
    addresses from [p] on; [None] when one of them is not mapped (a
    fault). *)
Definition memclr (p n : Z) (m : memory) : option memory :=
  foldl (fun om x =>
           match om with
           | Some m' =>
               if decide (is_Some (m' !! x)) then Some (<[x := 0]> m')
               else None
           | None => None
           end) (Some m) (seqZ p n).

Record mstate : Type := { sys : Z; mapped : memory }.

(** [void* runtime·SysAlloc(uintptr n)] *)
Definition SysAlloc (grant : option Z) (garbage : Z -> Z) (n : Z) (st : mstate)
  : option (Z * mstate) :=
  let p := 0 in
  let sys' := u64 (sys st + n) in
  let '(p, m1) := mmap grant garbage p n (mapped st) in
  match memclr p n m1 with
  | Some m2 => Some (p, {| sys := sys'; mapped := m2 |})
  | None => None
  end.



(** All [n] bytes from [p] on are mapped and hold zero. *)
Definition zeroed (p n : Z) (m : memory) : Prop :=
  forall a, p <= a < p + n -> m !! a = Some 0.

End Mem.

(** ** The finalizer table (runtime/mfinal.c) *)

Module Mfinal.
Import Mach.

(** How a call ends: normally, or in [runtime·throw] / a run-time panic,
    which abort the process. *)
Inductive result (A : Type) : Type :=
| Ok (a : A)
| Throw (msg : string).
Arguments Ok {A} a.
Arguments Throw {A} msg.

Definition uintptr (x : Z) : Z := x mod 2 ^ 64.

(** The two key values that are not objects: [nil], a slot never used, and
    [(void* )-1], a slot that held a key once. *)
Definition nil : Z := 0.
Definition DEAD : Z := 2 ^ 64 - 1.

(** [struct Finalizer]: the function and the size of its results. *)
Record Finalizer : Type := { fn : Z; nret : Z }.

(** [struct Fintab].  The two arrays are lists; an entry of [val] is a
    pointer to a [Finalizer], [None] for the nil pointer. *)
Record Fintab : Type :=
  { key : list Z;
    val : list (option Finalizer);
    nkey : Z;
    ndead : Z;
    max : Z }.

(** [t->key[i]] and [t->val[i]]. *)
Definition key_at (l : list Z) (i : Z) : Z := default nil (l !! Z.to_nat i).
Definition val_at (l : list (option Finalizer)) (i : Z) : option Finalizer :=
  default None (l !! Z.to_nat i).

(** [if(++i == t->max) i = 0;] *)
Definition next (max i : Z) : Z :=
  let i' := int32 (i + 1) in if i' =? max then 0 else i'.

(** [i = (uintptr)k % (uintptr)t->max;] *)
Definition hash (max k : Z) : Z := int32 (uintptr k mod uintptr max).

(** Where the loop of [addfintab] stops: at a slot never used, at a dead
    slot, or nowhere within [j] steps. *)
Inductive probe : Type := Free (i : Z) | Tomb (i : Z) | Full.

Fixpoint addfintab_scan (key : list Z) (max i : Z) (j : nat) : probe :=
  match j with
  | O => Full
  | S j' =>
      if key_at key i =? nil then Free i
      else if key_at key i =? DEAD then Tomb i
      else addfintab_scan key max (next max i) j'
  end.

Definition addfintab (t : Fintab) (k : Z) (v : option Finalizer)
  : result Fintab :=
  if uintptr (max t) =? 0 then Throw "integer divide by zero"
  else
    match addfintab_scan (key t) (max t) (hash (max t) k) (Z.to_nat (max t)) with
    | Free i =>
        Ok {| key := <[Z.to_nat i := k]> (key t);
              val := <[Z.to_nat i := v]> (val t);
              nkey := int32 (nkey t + 1);
              ndead := ndead t;
              max := max t |}
    | Tomb i =>
        Ok {| key := <[Z.to_nat i := k]> (key t);
              val := <[Z.to_nat i := v]> (val t);
              nkey := nkey t;
              ndead := int32 (ndead t - 1);
              max := max t |}
    | Full => Throw "finalizer table inconsistent"
    end.

(** Where the loop of [lookfintab] stops. *)
Inductive found : Type := Absent | At (i : Z) | Lost.

Fixpoint lookfintab_scan (key : list Z) (max k i : Z) (j : nat) : found :=
  match j with
  | O => Lost
  | S j' =>
      if key_at key i =? nil then Absent
      else if key_at key i =? k then At i
      else lookfintab_scan key max k (next max i) j'
  end.

Definition lookfintab (t : Fintab) (k : Z) (del : bool)
  : result (option Finalizer * Fintab) :=
  if max t =? 0 then Ok (None, t)
  else
    match lookfintab_scan (key t) (max t) k (hash (max t) k) (Z.to_nat (max t)) with
    | Absent => Ok (None, t)
    | At i =>
        let v := val_at (val t) i in
        if del then
          Ok (v, {| key := <[Z.to_nat i := DEAD]> (key t);
                    val := <[Z.to_nat i := None]> (val t);
                    nkey := nkey t;
                    ndead := int32 (ndead t + 1);
                    max := max t |})
        else Ok (v, t)
    | Lost => Throw "finalizer table inconsistent"
    end.

(** The table before the first call: all fields zero. *)
Definition fintab0 : Fintab :=
  {| key := []; val := []; nkey := 0; ndead := 0; max := 0 |}.

(** One turn of the loop that moves the old table's keys to the new one. *)
Definition rehash_step (old : Fintab) (acc : result Fintab) (i : Z)
  : result Fintab :=
  match acc with
  | Ok newtab =>
      let k := key_at (key old) i in
      if negb (k =? nil) && negb (k =? DEAD)
      then addfintab newtab k (val_at (val old) i)
      else Ok newtab
  | Throw msg => Throw msg
  end.

(** The size of the new table. *)
Definition newmax (t : Fintab) : Z :=
  if max t =? 0 then 3 * 3 * 3
  else if ndead t <? Z.quot (nkey t) 2 then int32 (max t * 3)
  else max t.

(** The body of [if(fintab.nkey >= fintab.max/2+fintab.max/4)]: a cleared
    table of the new size, the two arrays from [mallocgc] (zeroed), then the
    live keys of the old table added one by one. *)
Definition rehash (t : Fintab) : result Fintab :=
  let m := newmax t in
  let newtab :=
    {| key := replicate (Z.to_nat m) nil;
       val := replicate (Z.to_nat m) None;
       nkey := 0; ndead := 0; max := m |} in
  foldl (rehash_step t) (Ok newtab) (seqZ 0 (max t)).

(** The table is due for a rehash before the next key goes in. *)
Definition crowded (t : Fintab) : bool :=
  Z.quot (max t) 2 + Z.quot (max t) 4 <=? nkey t.

(** The state [addfinalizer] works on: the table and the blocks marked
    special in the heap ([runtime·setblockspecial]).  The calls run with
    [finlock] held. *)
Record fstate : Type := { fintab : Fintab; special : gset Z }.

Section Heap.

(** [runtime·mlookup(p, &base, nil, nil)] belongs to the allocator: for a
    pointer into a heap block it yields the block's base address. *)
Variable mlookup : Z -> option Z.

Definition heap_base (p : Z) : bool :=
  match mlookup p with
  | Some base => p =? base
  | None => false
  end.

(** [runtime·addfinalizer(p, f, nret)]: the state when the call ends, and
    how it ends. *)
Definition addfinalizer (st : fstate) (p f nret : Z) : fstate * result unit :=
  let e := if f =? 0 then None else Some {| fn := f; nret := nret |} in
  if negb (heap_base p) then (st, Throw "addfinalizer on invalid pointer")
  else if f =? 0 then
    match lookfintab (fintab st) p true with
    | Ok (_, t') => ({| fintab := t'; special := special st |}, Ok tt)
    | Throw msg => (st, Throw msg)
    end
  else
    match lookfintab (fintab st) p false with
    | Throw msg => (st, Throw msg)
    | Ok (Some _, _) => (st, Throw "double finalizer")
    | Ok (None, t1) =>
        let special' := {[ p ]} ∪ special st in
        match (if crowded t1 then rehash t1 else Ok t1) with
        | Throw msg => ({| fintab := t1; special := special' |}, Throw msg)
        | Ok t2 =>
            match addfintab t2 p e with
            | Ok t3 => ({| fintab := t3; special := special' |}, Ok tt)
            | Throw msg => ({| fintab := t2; special := special' |}, Throw msg)
            end
        end
    end.

End Heap.

(** [runtime·getfinalizer(p, del)] *)
Definition getfinalizer (st : fstate) (p : Z) (del : bool)
  : fstate * result (option Finalizer) :=
  match lookfintab (fintab st) p del with
  | Ok (f, t') => ({| fintab := t'; special := special st |}, Ok f)
  | Throw msg => (st, Throw msg)
  end.

(** The calls the rest of the runtime makes into the table. *)
Inductive call : Type :=
| AddFinalizer (p f nret : Z)
| GetFinalizer (p : Z) (del : bool).

(** A run of calls, up to the first that throws. *)
Fixpoint run (mlookup : Z -> option Z) (st : fstate) (cs : list call)
  : fstate * result unit :=
  match cs with
  | [] => (st, Ok tt)
  | AddFinalizer p f nret :: cs' =>
      match addfinalizer mlookup st p f nret with
      | (st', Ok _) => run mlookup st' cs'
      | (st', Throw msg) => (st', Throw msg)
      end
  | GetFinalizer p del :: cs' =>
      match getfinalizer st p del with
      | (st', Ok _) => run mlookup st' cs'
      | (st', Throw msg) => (st', Throw msg)
      end
  end.

(** The runtime asks [getfinalizer] about objects only: neither about the
    nil pointer nor about [(void* )-1]. *)
Definition call_ok (c : call) : Prop :=
  match c with
  | AddFinalizer _ _ _ => True
  | GetFinalizer p _ => p <> nil /\ p <> DEAD
  end.

(** The state before the first call. *)
Definition fstate0 : fstate := {| fintab := fintab0; special := ∅ |}.

(** A small heap to run the calls on: 16-byte blocks from 4096 up to
    8192. *)
Definition heap16 (p : Z) : option Z :=
  if (4096 <=? p) && (p <? 8192) then Some (p - p mod 16) else None.

End Mfinal.

(** ** The finalizer table: what the scans compute, and its invariant *)

Module FintabSpec.
Import Mach Mfinal.

(** Both loops walk the same slots and differ in where they stop. *)
Fixpoint scan (stop : Z -> bool) (key : list Z) (max i : Z) (j : nat)
  : option Z :=
  match j with
  | O => None
  | S j' =>
      if stop (key_at key i) then Some i
      else scan stop key max (next max i) j'
  end.

Definition stop_add (x : Z) : bool := (x =? nil) || (x =? DEAD).
Definition stop_look (k x : Z) : bool := (x =? nil) || (x =? k).

(** A key that stands for an object. *)
Definition live (k : Z) : Prop := k <> nil /\ k <> DEAD.

Fixpoint count (f : Z -> bool) (l : list Z) : Z :=
  match l with
  | [] => 0
  | x :: l' => (if f x then 1 else 0) + count f l'
  end.

Definition nonnil (x : Z) : bool := negb (x =? nil).
Definition dead (x : Z) : bool := x =? DEAD.

(** A key that is neither nil nor dead, as the rehash loop tests it. *)
Definition liveb (x : Z) : bool := negb (x =? nil) && negb (x =? DEAD).

(** [fintab.max/2 + fintab.max/4] *)
Definition threshold (max : Z) : Z := Z.quot max 2 + Z.quot max 4.

(** The table holds finalizer [v] for key [k]. *)
Definition holds (t : Fintab) (k : Z) (v : Finalizer) : Prop :=
  live k /\
  exists i, 0 <= i < max t /\ key_at (key t) i = k /\
            val_at (val t) i = Some v.

(** The shape every table has between two calls: the arrays have [max]
    entries, the two counters count what their comments say, every live key
    is where the lookup loop finds it, and has a finalizer. *)
Record wf (t : Fintab) : Prop :=
  { wf_max : 0 <= max t < 2 ^ 31;
    wf_key : length (key t) = Z.to_nat (max t);
    wf_val : length (val t) = Z.to_nat (max t);
    wf_nkey : nkey t = count nonnil (key t);
    wf_ndead : ndead t = count dead (key t);
    wf_find : forall i, 0 <= i < max t -> live (key_at (key t) i) ->
      lookfintab_scan (key t) (max t) (key_at (key t) i)
        (hash (max t) (key_at (key t) i)) (Z.to_nat (max t)) = At i;
    wf_some : forall i, 0 <= i < max t -> live (key_at (key t) i) ->
      is_Some (val_at (val t) i) }.

(** ... and it is at most 3/4 full: the non-nil keys are at most
    [max/2 + max/4]. *)
Definition inv (t : Fintab) : Prop :=
  wf t /\ (max t = 0 \/ 27 <= max t) /\ nkey t <= threshold (max t).

End FintabSpec.

(** ** Channels *)

Module Chan.

Section Channel.

(** The element type and its zero value. *)
Variable V : Type.
Variable zero : V.

(** Modelled from the spec: chan.c is not among the sources.  A channel is
    a typed FIFO: capacity (0 for unbuffered), the buffered elements from
    head to tail, the FIFO of tasks waiting to send (each with its value),
    the FIFO of tasks waiting to receive, and the closed flag.  Tasks are
    numbered. *)
Record chan : Type :=
  { cap : nat;
    buf : list V;
    sendq : list (nat * V);
    recvq : list nat;
    closed : bool }.

(** [chan_make(elem_size, capacity)] *)
Definition make (capacity : nat) : chan :=
  {| cap := capacity; buf := []; sendq := []; recvq := []; closed := false |}.

(** A blocked task made runnable by somebody else's operation: a receiver
    with what its receive returns, or a sender whose value was taken. *)
Inductive wake : Type :=
| WakeRecv (task : nat) (v : V) (ok : bool)
| WakeSend (task : nat).

(** How an operation ends for the task that makes it: it returns [r]
    (having woken the tasks listed), it blocks, or the process dies. *)
Inductive outcome (R : Type) : Type :=
| Done (r : R) (c : chan) (woken : list wake)
| Blocks (c : chan)
| Fatal (msg : string).
Arguments Done {R} r c woken.
Arguments Blocks {R} c.
Arguments Fatal {R} msg.

(** Modelled from the spec: "Send v. If closed: fatal. If any receiver
    waits, directly hand v to the head receiver, mark that receiver
    runnable, return. Else if buffered and not full, copy v into buffer
    tail, advance, return. Else enqueue sender with v on send-wait FIFO;
    block." *)
Definition send (c : chan) (task : nat) (v : V) : outcome unit :=
  if closed c then Fatal "send on closed channel"
  else
    match recvq c with
    | r :: rq =>
        Done tt {| cap := cap c; buf := buf c; sendq := sendq c;
                   recvq := rq; closed := closed c |}
             [WakeRecv r v true]
    | [] =>
        if (length (buf c) <? cap c)%nat
        then Done tt {| cap := cap c; buf := buf c ++ [v]; sendq := sendq c;
                        recvq := recvq c; closed := closed c |} []
        else Blocks {| cap := cap c; buf := buf c;
                       sendq := sendq c ++ [(task, v)];
                       recvq := recvq c; closed := closed c |}
    end.

(** Modelled from the spec: "Receive. If any sender waits, copy its value
    into the receiver's slot, mark sender runnable, return (v, true). Else
    if buffer non-empty, copy head out, advance; if there were blocked
    senders, move their value into the freed slot and wake one; return
    (v, true). Else if closed: return (zero(T), false). Else enqueue
    receiver on recv-wait FIFO; block." *)
Definition recv (c : chan) (task : nat) : outcome (V * bool) :=
  match sendq c with
  | (s, v) :: sq =>
      Done (v, true) {| cap := cap c; buf := buf c; sendq := sq;
                        recvq := recvq c; closed := closed c |}
           [WakeSend s]
  | [] =>
      match buf c with
      | v :: b =>
          match sendq c with
          | (s, w) :: sq =>
              Done (v, true) {| cap := cap c; buf := b ++ [w]; sendq := sq;
                                recvq := recvq c; closed := closed c |}
                   [WakeSend s]
          | [] =>
              Done (v, true) {| cap := cap c; buf := b; sendq := sendq c;
                                recvq := recvq c; closed := closed c |} []
          end
      | [] =>
          if closed c then Done (zero, false) c []
          else Blocks {| cap := cap c; buf := buf c; sendq := sendq c;
                         recvq := recvq c ++ [task]; closed := closed c |}
      end
  end.

(** Modelled from the spec: "Close. Mark closed; drain all blocked
    receivers (each gets zero, ok=false and is made runnable); any blocked
    senders encountered here is a fatal error"; closing a closed channel is
    one of the conditions the core panics on. *)
Definition close (c : chan) : outcome unit :=
  if closed c then Fatal "close of closed channel"
  else
    match sendq c with
    | _ :: _ => Fatal "close of channel with blocked senders"
    | [] =>
        Done tt {| cap := cap c; buf := buf c; sendq := [];
                   recvq := []; closed := true |}
             (map (fun r => WakeRecv r zero false) (recvq c))
    end.

(** The operations tasks make on one channel, and the channel after a
    sequence of them; [None] once an operation was fatal. *)
Inductive op : Type :=
| Send (task : nat) (v : V)
| Recv (task : nat)
| Close.

Definition chan_of {R : Type} (o : outcome R) : option chan :=
  match o with
  | Done _ c _ => Some c
  | Blocks c => Some c
  | Fatal _ => None
  end.

Definition apply_op (c : chan) (o : op) : option chan :=
  match o with
  | Send t v => chan_of (send c t v)
  | Recv t => chan_of (recv c t)
  | Close => chan_of (close c)
  end.

Fixpoint after (c : chan) (ops : list op) : option chan :=
  match ops with
  | [] => Some c
  | o :: ops' =>
      match apply_op c o with
      | Some c' => after c' ops'
      | None => None
      end
  end.

End Channel.

Arguments make {V} capacity.
Arguments WakeRecv {V} task v ok.
Arguments WakeSend {V} task.
Arguments Done {V R} r c woken.
Arguments Blocks {V R} c.
Arguments Fatal {V R} msg.
Arguments send {V} c task v.
Arguments recv {V} zero c task.
Arguments close {V} zero c.
Arguments Send {V} task v.
Arguments Recv {V} task.
Arguments Close {V}.
Arguments after {V} zero c ops.

End Chan.

(** ** testsuit/peter.go on the channel operations *)

Module Peter.
Import Chan.

(** Where a task [ready(index)] is: not yet past its [time.Sleep], blocked
    in [c<-1], or returned. *)
Inductive status : Type := Asleep | Sending | Finished.

(** The program after [main] has made the channel and spawned the tasks:
    the channel [c], what [fmt.Println] has written, the tasks [ready(1)]
    ... [ready(total)], the values [main] has received, the receives it has
    still to make and whether it is blocked in one.  [main] is task 0,
    [ready(index)] is task [index]. *)
Record world : Type :=
  { c : chan Z;
    printed : list Z;
    tasks : list status;
    received : list Z;
    left : nat;
    waiting : bool }.

Definition total : nat := 10.

(** [total := 10; c = make(chan int); for ... { go ready(i + 1) }] *)
Definition start : world :=
  {| c := make 0; printed := []; tasks := replicate total Asleep;
     received := []; left := total; waiting := false |}.

(** A task woken by the operation of another one goes on: [main] leaves its
    [<-c] with the value handed over, a [ready] returns from its [c<-1]. *)
Definition wake_one (w : world) (k : wake Z) : world :=
  match k with
  | WakeRecv _ v _ =>
      {| c := c w; printed := printed w; tasks := tasks w;
         received := received w ++ [v]; left := pred (left w);
         waiting := false |}
  | WakeSend s =>
      {| c := c w; printed := printed w;
         tasks := <[pred s := Finished]> (tasks w);
         received := received w; left := left w; waiting := waiting w |}
  end.

(** The scheduler lets task [pick] run up to its next channel operation. *)
Definition step (w : world) (pick : nat) : world :=
  match pick with
  | O =>
      (* main: for i := 0; i < total; i++ { <-c } *)
      if waiting w then w
      else
        match left w with
        | O => w
        | S n =>
            match recv 0 (c w) 0 with
            | Done (v, _) c' woken =>
                foldl wake_one
                  {| c := c'; printed := printed w; tasks := tasks w;
                     received := received w ++ [v]; left := n;
                     waiting := false |} woken
            | Blocks c' =>
                {| c := c'; printed := printed w; tasks := tasks w;
                   received := received w; left := left w; waiting := true |}
            | Fatal _ => w
            end
        end
  | S i =>
      (* ready(index): time.Sleep(...); fmt.Println(index); c<-1 *)
      match tasks w !! i with
      | Some Asleep =>
          let index := Z.of_nat (S i) in
          match send (c w) (S i) 1 with
          | Done _ c' woken =>
              foldl wake_one
                {| c := c'; printed := printed w ++ [index];
                   tasks := <[i := Finished]> (tasks w);
                   received := received w; left := left w;
                   waiting := waiting w |} woken
          | Blocks c' =>
              {| c := c'; printed := printed w ++ [index];
                 tasks := <[i := Sending]> (tasks w);
                 received := received w; left := left w;
                 waiting := waiting w |}
          | Fatal _ => w
          end
      | _ => w
      end
  end.

Definition run (schedule : list nat) : world := foldl step start schedule.

(** The schedule the sleeps of 1, 2, ... seconds make: [main] blocks in its
    receive, and each second the next [ready] sends and [main] goes to its
    next receive. *)
Definition by_the_clock : list nat :=
  0%nat :: flat_map (fun i => [i; 0%nat]) (seq 1 total).

Definition sum (l : list Z) : Z := foldr Z.add 0 l.

(** What every schedule keeps true: the channel is open, unbuffered and
    empty, the values waiting in it and the values received are all 1, the
    receives made and those to come add up to [total], and only [main] ever
    waits to receive. *)
Definition fan_in (w : world) : Prop :=
  cap Z (c w) = 0%nat /\ buf Z (c w) = [] /\ closed Z (c w) = false /\
  Forall (fun p : nat * Z => p.2 = 1) (sendq Z (c w)) /\
  Forall (fun v => v = 1) (received w) /\
  (length (received w) + left w = total)%nat /\
  (recvq Z (c w) = [] /\ waiting w = false \/
   recvq Z (c w) = [0%nat] /\ waiting w = true /\ (0 < left w)%nat).

End Peter.

(** ** A sleeper and a waker on one note, step by step *)

Module Race.
Import Mach Kernel Thread.

(** Where the thread in [notesleep] is: at the loop test, at the [xadd] of
    [usemacquire], at the test [s->k == 0], inside [initsema] (its test,
    [sem_init], the [cas] and the [sem_free] of the semaphore it made),
    about to call [sem_wait], asleep in the kernel, or back from
    [notesleep]. *)
Inductive spc : Type :=
| STest
| SXadd
| SHave
| SInitTest
| SInit
| SCas (sema : Z)
| SFree (sema : Z)
| SWait
| SAsleep (h : Z)
| SDone.

(** Where the thread in [notewakeup] is: at [n->wakeup = 1], at the [xadd]
    of [usemrelease], at the test [s->k == 0], inside [initsema], about to
    call [sem_post], or back from [notewakeup]. *)
Inductive wpc : Type :=
| WSet
| WXadd
| WHave
| WInitTest
| WInit
| WCas (sema : Z)
| WFree (sema : Z)
| WPost
| WDone.

Record sys : Type :=
  { note : Note; kern : kernel; sleeper : spc; waker : wpc }.

Definition with_u (n : Note) (u' : Z) : Note :=
  {| state := state n; nsema := {| u := u'; k := k (nsema n) |} |}.

Definition with_k (n : Note) (k' : Z) : Note :=
  {| state := state n; nsema := {| u := u (nsema n); k := k' |} |}.

(** One step of the sleeper: one access to the note or one system call.
    [None]: it is asleep or has returned. *)
Definition sleeper_step (s : sys) : option sys :=
  let n := note s in
  let at_ pc := {| note := n; kern := kern s; sleeper := pc; waker := waker s |} in
  match sleeper s with
  | STest => Some (at_ (if wakeup n =? 0 then SXadd else SDone))
  | SXadd =>
      let '(v, u') := xadd (u (nsema n)) (-1) in
      Some {| note := with_u n u'; kern := kern s;
              sleeper := if int32 v <? 0 then SHave else STest;
              waker := waker s |}
  | SHave => Some (at_ (if k (nsema n) =? 0 then SInitTest else SWait))
  | SInitTest => Some (at_ (if negb (k (nsema n) =? 0) then SWait else SInit))
  | SInit =>
      let '(sema, k1) := sem_init 0 (kern s) in
      Some {| note := n; kern := k1; sleeper := SCas sema; waker := waker s |}
  | SCas sema =>
      let '(ok, cell) := cas (k (nsema n)) 0 sema in
      Some {| note := with_k n cell; kern := kern s;
              sleeper := if negb ok then SFree sema else SWait;
              waker := waker s |}
  | SFree sema =>
      Some {| note := n; kern := sem_free sema (kern s); sleeper := SWait;
              waker := waker s |}
  | SWait =>
      let '(asleep, k1) := sem_wait (k (nsema n)) 0 (kern s) in
      Some {| note := n; kern := k1;
              sleeper := if asleep then SAsleep (k (nsema n)) else STest;
              waker := waker s |}
  | SAsleep _ => None
  | SDone => None
  end.

(** One step of the waker.  A [sem_post] that makes a thread runnable
    makes the sleeper return from its [sem_wait], to the loop test. *)
Definition waker_step (s : sys) : option sys :=
  let n := note s in
  let at_ pc := {| note := n; kern := kern s; sleeper := sleeper s; waker := pc |} in
  match waker s with
  | WSet =>
      Some {| note := {| state := 1; nsema := nsema n |}; kern := kern s;
              sleeper := sleeper s; waker := WXadd |}
  | WXadd =>
      let '(v, u') := xadd (u (nsema n)) 1 in
      Some {| note := with_u n u'; kern := kern s; sleeper := sleeper s;
              waker := if int32 v <=? 0 then WHave else WDone |}
  | WHave => Some (at_ (if k (nsema n) =? 0 then WInitTest else WPost))
  | WInitTest => Some (at_ (if negb (k (nsema n) =? 0) then WPost else WInit))
  | WInit =>
      let '(sema, k1) := sem_init 0 (kern s) in
      Some {| note := n; kern := k1; sleeper := sleeper s; waker := WCas sema |}
  | WCas sema =>
      let '(ok, cell) := cas (k (nsema n)) 0 sema in
      Some {| note := with_k n cell; kern := kern s; sleeper := sleeper s;
              waker := if negb ok then WFree sema else WPost |}
  | WFree sema =>
      Some {| note := n; kern := sem_free sema (kern s);
              sleeper := sleeper s; waker := WPost |}
  | WPost =>
      let '(woken, k1) := sem_post (k (nsema n)) (kern s) in
      Some {| note := n; kern := k1;
              sleeper := match woken, sleeper s with
                         | S _, SAsleep _ => STest
                         | _, pc => pc
                         end;
              waker := WDone |}
  | WDone => None
  end.

(** The scheduler picks a thread ([true]: the sleeper); a thread that
    cannot move leaves the state as it is. *)
Definition step (s : sys) (pick : bool) : sys :=
  default s (if pick then sleeper_step s else waker_step s).

Definition exec (s : sys) (schedule : list bool) : sys :=
  foldl step s schedule.

(** Both threads enter, on the note [n] just cleared. *)
Definition enter (n : Note) (kn : kernel) : sys :=
  {| note := noteclear n; kern := kn; sleeper := STest; waker := WSet |}.

(** The sleeper has decremented the counter below zero and owes a
    [sem_wait]; the waker has found the counter at most zero and owes a
    [sem_post]. *)
Definition owes_wait (pc : spc) : bool :=
  match pc with
  | SHave | SInitTest | SInit | SCas _ | SFree _ | SWait | SAsleep _ => true
  | STest | SXadd | SDone => false
  end.

Definition owes_post (pc : wpc) : bool :=
  match pc with
  | WHave | WInitTest | WInit | WCas _ | WFree _ | WPost => true
  | WSet | WXadd | WDone => false
  end.

(** The semaphore a thread has made in [initsema] and not yet installed or
    freed. *)
Definition made_s (pc : spc) : option Z :=
  match pc with SCas h | SFree h => Some h | _ => None end.

Definition made_w (pc : wpc) : option Z :=
  match pc with WCas h | WFree h => Some h | _ => None end.

(** The credit on the note's kernel semaphore. *)
Definition credit (s : sys) : Z :=
  match sems (kern s) !! k (nsema (note s)) with
  | Some x => kvalue x
  | None => 0
  end.

(** The sleeper is asleep in the kernel, on which semaphore; it is at a
    place where the note's semaphore must exist; it is at its [xadd]; it has
    returned. *)
Definition asleep_on (pc : spc) : option Z :=
  match pc with SAsleep h => Some h | _ => None end.

Definition needs_sema_s (pc : spc) : bool :=
  match pc with SFree _ | SWait | SAsleep _ => true | _ => false end.

Definition at_xadd (pc : spc) : bool :=
  match pc with SXadd => true | _ => false end.

Definition returned (pc : spc) : bool :=
  match pc with SDone => true | _ => false end.

(** The waker is at a place where the note's semaphore must exist; it has
    not yet set [wakeup]; it has not yet done its [xadd]. *)
Definition needs_sema_w (pc : wpc) : bool :=
  match pc with WFree _ | WPost => true | _ => false end.

Definition unset (pc : wpc) : bool :=
  match pc with WSet => true | _ => false end.

Definition before (pc : wpc) : bool :=
  match pc with WSet | WXadd => true | _ => false end.

(** What every interleaving keeps true, for a note cleared with at most
    [C] stale credits on its counter.  The handles in use are the
    kernel's; the note's semaphore, once installed, has at most one credit
    and the sleeper alone can sleep on it; a semaphore made in [initsema]
    and not yet installed is idle and is not the note's.  [wakeup] is set
    from the waker's first step on.  Before the waker's [xadd] the
    semaphore has no credit and the sleeper owes a wait exactly when the
    counter is -1; after it the counter is not negative, and a wait owed by
    the sleeper is matched by a credit or by a post the waker owes. *)
Record inv (C : Z) (s : sys) : Prop :=
  { inv_u : -1 <= int32 (u (nsema (note s))) <= C + 1;
    inv_dom : forall h, is_Some (sems (kern s) !! h) ->
                0 < h < Z.pos (fresh (kern s));
    inv_cell : k (nsema (note s)) <> 0 ->
      exists v, sems (kern s) !! k (nsema (note s)) =
                  Some {| kvalue := v;
                          kwaiting := match asleep_on (sleeper s) with
                                      | Some _ => 1
                                      | None => 0
                                      end |} /\
                0 <= v <= 1 /\
                (forall h, asleep_on (sleeper s) = Some h -> v = 0);
    inv_asleep : forall h, asleep_on (sleeper s) = Some h ->
      h = k (nsema (note s));
    inv_need_s : needs_sema_s (sleeper s) = true -> k (nsema (note s)) <> 0;
    inv_need_w : needs_sema_w (waker s) = true -> k (nsema (note s)) <> 0;
    inv_made_s : forall h, made_s (sleeper s) = Some h ->
      h <> k (nsema (note s)) /\
      sems (kern s) !! h = Some {| kvalue := 0; kwaiting := 0 |};
    inv_made_w : forall h, made_w (waker s) = Some h ->
      h <> k (nsema (note s)) /\
      sems (kern s) !! h = Some {| kvalue := 0; kwaiting := 0 |};
    inv_made_ne : forall h h', made_s (sleeper s) = Some h ->
      made_w (waker s) = Some h' -> h <> h';
    inv_wakeup : wakeup (note s) = if unset (waker s) then 0 else 1;
    inv_before : before (waker s) = true ->
      credit s = 0 /\ int32 (u (nsema (note s))) <= C /\
      (owes_wait (sleeper s) = true <-> int32 (u (nsema (note s))) = -1);
    inv_after : before (waker s) = false ->
      0 <= int32 (u (nsema (note s))) /\
      credit s + (if owes_post (waker s) then 1 else 0)
        = (if owes_wait (sleeper s) then 1 else 0) /\
      (at_xadd (sleeper s) = true -> 1 <= int32 (u (nsema (note s))));
    inv_done : returned (sleeper s) = true -> unset (waker s) = false }.

(** How far the sleeper is from returning once the waker has returned: the
    number of its own steps that suffice. *)
Definition dist (pc : spc) : nat :=
  match pc with
  | SDone => 0
  | STest => 1
  | SXadd => 2
  | SWait => 2
  | SFree _ => 3
  | SCas _ => 4
  | SInit => 5
  | SInitTest => 6
  | SHave => 7
  | SAsleep _ => 8
  end.

End Race.

(** ** The finalizer table: walking it, and the map it stands for *)

Module Walk.
Import Mach Mfinal FintabSpec.

(** One turn of the loop of [runtime·walkfintab]: [fn] is called on the key
    in slot [i] unless the slot is free or dead.  [called] lists the keys
    [fn] was called on so far, in the order of the calls. *)
Definition walk_step (t : Fintab) (called : list Z) (i : Z) : list Z :=
  let k := key_at (key t) i in
  if negb (k =? nil) && negb (k =? DEAD) then called ++ [k] else called.

(** [runtime·walkfintab(fn)], by the calls of [fn] it makes: [key] runs
    from [fintab.key] up to [fintab.key + fintab.max]. *)
Definition walkfintab (t : Fintab) : list Z :=
  foldl (walk_step t) [] (seqZ 0 (max t)).

(** One call into the table, as [run] makes it. *)
Definition do_call (mlookup : Z -> option Z) (st : fstate) (c : call)
  : fstate * result unit :=
  match c with
  | AddFinalizer p f nret => addfinalizer mlookup st p f nret
  | GetFinalizer p del =>
      match getfinalizer st p del with
      | (st', Ok _) => (st', Ok tt)
      | (st', Throw msg) => (st', Throw msg)
      end
  end.

(** The table read as a finite map from objects to finalizers, and what
    each call does to that map: [addfinalizer] with a function enters the
    object unless it is there, with nil it removes it; [getfinalizer]
    removes it if [del] is set. *)
Abbreviation fmap := (gmap Z Finalizer).

Definition map_call (mlookup : Z -> option Z) (m : fmap) (c : call)
  : fmap * result unit :=
  match c with
  | AddFinalizer p f nret =>
      if negb (heap_base mlookup p)
      then (m, Throw "addfinalizer on invalid pointer")
      else if f =? 0 then (delete p m, Ok tt)
      else
        match m !! p with
        | Some _ => (m, Throw "double finalizer")
        | None => (<[p := {| fn := f; nret := nret |}]> m, Ok tt)
        end
  | GetFinalizer p del => (if del then delete p m else m, Ok tt)
  end.

Fixpoint map_run (mlookup : Z -> option Z) (m : fmap) (cs : list call)
  : fmap * result unit :=
  match cs with
  | [] => (m, Ok tt)
  | c :: cs' =>
      match map_call mlookup m c with
      | (m', Ok _) => map_run mlookup m' cs'
      | (m', Throw msg) => (m', Throw msg)
      end
  end.

(** The table holds exactly the finalizers of the map. *)
Definition stands_for (t : Fintab) (m : fmap) : Prop :=
  forall q w, holds t q w <-> m !! q = Some w.

(** The sizes the table can have: none yet, or a power of 3 from 27 on. *)
Definition power_of_3 (M : Z) : Prop :=
  M = 0 \/ exists j : nat, M = 3 ^ (3 + Z.of_nat j).

(** A table in use: two finalizers installed on the small heap, the first
    of them taken out again, which leaves a dead slot. *)
Definition busy : fstate :=
  (run heap16 fstate0
     [AddFinalizer 4096 7 0; AddFinalizer 4112 9 1; GetFinalizer 4096 true]).1.

(** A table due for a rehash: 19 finalizers in 27 slots. *)
Definition crammed : fstate :=
  (run heap16 fstate0
     (map (fun i => AddFinalizer (4096 + 16 * Z.of_nat i) 7 0) (seq 0 19))).1.

End Walk.

(** ** mem.c: the rest of the port's memory calls *)

Module Pages.
Import Mach Mem.

Definition ENOMEM : Z := 12.

(** The loop of [addrspace_free(v, n)], from offset [off] on.
    [runtime·mincore] is system call 27; what the kernel answers for the
    page at an address is taken as given ([mincore]): 0 for success, or
    minus the error code.  [fuel] bounds the turns of the loop; [None] when
    it is used up. *)
Fixpoint addrspace_free_loop (mincore : Z -> Z) (v n off : Z) (fuel : nat)
  : option Z :=
  match fuel with
  | O => None
  | S fuel' =>
      if off <? n then
        let errval := int32 (mincore (u64 (v + off))) in
        if (errval =? 0) || negb (errval =? - ENOMEM) then Some 0
        else addrspace_free_loop mincore v n (u64 (off + 4096)) fuel'
      else Some 1
  end.

(** [static int32 addrspace_free(void *v, uintptr n)] *)
Definition addrspace_free (mincore : Z -> Z) (v n : Z) (fuel : nat)
  : option Z :=
  addrspace_free_loop mincore v n 0 fuel.

(** [runtime·munmap(v, n)] is system call 91.  The stub in sys.s compares
    the kernel's answer with 0xfffffffffffff001 and calls [runtime·notok],
    which faults, when it is above.  The kernel's side is taken as given:
    with the answer 0 the [n] bytes from [v] on are unmapped, with any other
    answer nothing is. *)
Definition munmap (answer : Z) (v n : Z) (m : memory) : option memory :=
  if 2 ^ 64 - 4095 <? u64 answer then None
  else if u64 answer =? 0
       then Some (foldl (fun m' x => delete x m') m (seqZ v n))
       else Some m.

(** [void runtime·SysFree(void *v, uintptr n)] *)
Definition SysFree (answer : Z) (v n : Z) (st : mstate) : option mstate :=
  let sys' := u64 (sys st - n) in
  match munmap answer v n (mapped st) with
  | Some m' => Some {| sys := sys'; mapped := m' |}
  | None => None
  end.

(** [void runtime·SysMap(void *v, uintptr n)] *)
Definition SysMap (ptr8 : bool) (grant : option Z) (garbage : Z -> Z)
    (v n : Z) (st : mstate) : option mstate :=
  let p := v in
  let sys' := u64 (sys st + n) in
  if ptr8 then
    let '(p, m1) := mmap grant garbage p n (mapped st) in
    match memclr p n m1 with
    | Some m2 => Some {| sys := sys'; mapped := m2 |}
    | None => None
    end
  else
    let '(p, m1) := mmap grant garbage p n (mapped st) in
    match memclr p n m1 with
    | Some m2 => Some {| sys := sys'; mapped := m2 |}
    | None => None
    end.

End Pages.

(** ** thread.c: a held lock and its sleepers *)

Module Handoff.
Import Mach Kernel Thread.

(** The lock is held and [c] threads sleep in [runtime·lock]: the key
    counts the holder and the sleepers, and the sleepers are those of the
    lock's semaphore, which holds no credit.  A lock that never had a
    sleeper has no semaphore yet. *)
Definition held_with (c : nat) (l : Lock) (kn : kernel) : Prop :=
  key l = Z.of_nat c + 1 /\
  (sema l = 0 /\ c = 0%nat \/
   sema l <> 0 /\
   sems kn !! sema l = Some {| kvalue := 0; kwaiting := c |}).

End Handoff.

(** ** The note's semaphore under interleaving: nothing is leaked *)

Module Leak.
Import Mach Kernel Thread Race.

(** Every semaphore of the kernel is accounted for: it was there when the
    two threads entered ([kn0]), or it is the note's, or one of the threads
    has made it in [initsema] and not yet installed or freed it. *)
Definition accounted (kn0 : kernel) (s : sys) : Prop :=
  forall h, is_Some (sems (kern s) !! h) ->
    is_Some (sems kn0 !! h) \/
    h <> 0 /\
    (h = k (nsema (note s)) \/
     made_s (sleeper s) = Some h \/ made_w (waker s) = Some h).

(** A schedule in which both threads are in [initsema] at once: the
    sleeper finds the cell empty and makes a semaphore; the waker does the
    same and installs its own ... *)
Definition race_begins : list bool :=
  replicate 5 true ++ replicate 6 false.

(** ... the sleeper's [cas] fails, it frees its semaphore and waits on the
    note's; the waker posts; the sleeper returns. *)
Definition race_ends : list bool :=
  replicate 3 true ++ replicate 2 false ++ replicate 3 true.

End Leak.

(** ** peter.go: what every schedule leaves behind *)

Module Goroutines.
Import Chan Peter.

Definition is_finished (s : status) : bool :=
  match s with Finished => true | _ => false end.

(** How many of the tasks have returned. *)
Fixpoint returned (l : list status) : nat :=
  match l with
  | [] => 0
  | s :: l' => (if is_finished s then 1 else 0) + returned l'
  end.

(** The tasks blocked in [c<-1]. *)
Definition senders (w : world) : list nat := map fst (sendq Z (c w)).

(** What every schedule keeps true of the tasks: there are [total] of them;
    the tasks blocked in their send are those queued in the channel, each
    once; nobody is queued to send while [main] waits to receive; as many
    tasks have returned as [main] has received values; and the indices
    printed are those of the tasks past their sleep, each once. *)
Record tidy (w : world) : Prop :=
  { tidy_tasks : length (tasks w) = total;
    tidy_once : NoDup (senders w);
    tidy_queued : forall s, s ∈ senders w ->
      exists i, s = S i /\ tasks w !! i = Some Sending;
    tidy_sending : forall i, tasks w !! i = Some Sending -> S i ∈ senders w;
    tidy_waiting : waiting w = true -> sendq Z (c w) = [];
    tidy_returned : returned (tasks w) = length (received w);
    tidy_printed_once : NoDup (printed w);
    tidy_printed : forall x, x ∈ printed w <->
      exists i s, x = Z.of_nat (S i) /\ tasks w !! i = Some s /\ s <> Asleep }.

End Goroutines.

(** ** Two threads at one lock *)

Module Contend.
Import Mach Kernel Thread.

(** Where a thread is: outside the lock (its next step is the [xadd] of
    [runtime·lock]); in [runtime·lock] after an [xadd] that found the lock
    taken - at the test [l->sema == 0], inside [initsema] (its test,
    [sem_init], the [cas], the [sem_free] of the semaphore it made), about
    to call [sem_wait], asleep in the kernel -; inside, holding the lock (its
    next step is the [xadd] of [runtime·unlock]); in [runtime·unlock] after
    an [xadd] that left the key above zero, up to its [sem_post]; or stopped
    by the throw "lock count". *)
Inductive pc : Type :=
| Outside
| LHave
| LInitTest
| LInit
| LCas (sema : Z)
| LFree (sema : Z)
| LWait
| LAsleep
| Inside
| UHave
| UInitTest
| UInit
| UCas (sema : Z)
| UFree (sema : Z)
| UPost
| Thrown.

(** A thread: where it is, and its [m->locks]. *)
Record thread : Type := { at_ : pc; locks : Z }.

Definition goes (t : thread) (p : pc) : thread :=
  {| at_ := p; locks := locks t |}.

(** One step of thread [t] on the lock [l]: one access to the lock or one
    system call; [o] is the other thread, which a [sem_post] may wake from
    its [sem_wait].  [None]: the thread is asleep or stopped. *)
Definition move (l : Lock) (kn : kernel) (t o : thread)
  : option (Lock * kernel * thread * thread) :=
  match at_ t with
  | Outside =>
      if locks t <? 0 then Some (l, kn, goes t Thrown, o)
      else
        let locks' := int32 (locks t + 1) in
        let '(v, key') := xadd (key l) 1 in
        Some ({| key := key'; sema := sema l |}, kn,
              {| at_ := if 1 <? v then LHave else Inside; locks := locks' |},
              o)
  | LHave =>
      Some (l, kn, goes t (if sema l =? 0 then LInitTest else LWait), o)
  | LInitTest =>
      Some (l, kn, goes t (if negb (sema l =? 0) then LWait else LInit), o)
  | LInit =>
      let '(h, k1) := sem_init 0 kn in Some (l, k1, goes t (LCas h), o)
  | LCas h =>
      let '(ok, cell) := cas (sema l) 0 h in
      Some ({| key := key l; sema := cell |}, kn,
            goes t (if negb ok then LFree h else LWait), o)
  | LFree h => Some (l, sem_free h kn, goes t LWait, o)
  | LWait =>
      let '(asleep, k1) := sem_wait (sema l) 0 kn in
      Some (l, k1, goes t (if asleep then LAsleep else Inside), o)
  | LAsleep => None
  | Inside =>
      let locks' := int32 (locks t - 1) in
      if locks' <? 0
      then Some (l, kn, {| at_ := Thrown; locks := locks' |}, o)
      else
        let '(v, key') := xadd (key l) (-1) in
        Some ({| key := key'; sema := sema l |}, kn,
              {| at_ := if 0 <? v then UHave else Outside; locks := locks' |},
              o)
  | UHave =>
      Some (l, kn, goes t (if sema l =? 0 then UInitTest else UPost), o)
  | UInitTest =>
      Some (l, kn, goes t (if negb (sema l =? 0) then UPost else UInit), o)
  | UInit =>
      let '(h, k1) := sem_init 0 kn in Some (l, k1, goes t (UCas h), o)
  | UCas h =>
      let '(ok, cell) := cas (sema l) 0 h in
      Some ({| key := key l; sema := cell |}, kn,
            goes t (if negb ok then UFree h else UPost), o)
  | UFree h => Some (l, sem_free h kn, goes t UPost, o)
  | UPost =>
      let '(woken, k1) := sem_post (sema l) kn in
      Some (l, k1, goes t Outside,
            match woken, at_ o with
            | S _, LAsleep => goes o Inside
            | _, _ => o
            end)
  | Thrown => None
  end.

(** The lock, the kernel and the two threads. *)
Record sys : Type :=
  { mutex : Lock; kern : kernel; first : thread; second : thread }.

(** The scheduler picks a thread ([true]: the first); a thread that cannot
    move leaves the state as it is. *)
Definition step (s : sys) (pick : bool) : sys :=
  if pick then
    match move (mutex s) (kern s) (first s) (second s) with
    | Some (l, kn, t, o) =>
        {| mutex := l; kern := kn; first := t; second := o |}
    | None => s
    end
  else
    match move (mutex s) (kern s) (second s) (first s) with
    | Some (l, kn, t, o) =>
        {| mutex := l; kern := kn; first := o; second := t |}
    | None => s
    end.

Definition exec (s : sys) (schedule : list bool) : sys :=
  foldl step s schedule.

(** A free lock that never had a sleeper, and two threads outside it that
    hold no lock. *)
Definition start (kn : kernel) : sys :=
  {| mutex := {| key := 0; sema := 0 |}; kern := kn;
     first := {| at_ := Outside; locks := 0 |};
     second := {| at_ := Outside; locks := 0 |} |}.

(** The thread holds the lock; it has added itself to the key and waits
    for the lock; it has taken itself off the key and owes a [sem_post]. *)
Definition holds (p : pc) : Z :=
  match p with Inside => 1 | _ => 0 end.

Definition waits (p : pc) : Z :=
  match p with
  | LHave | LInitTest | LInit | LCas _ | LFree _ | LWait | LAsleep => 1
  | _ => 0
  end.

Definition posts (p : pc) : Z :=
  match p with
  | UHave | UInitTest | UInit | UCas _ | UFree _ | UPost => 1
  | _ => 0
  end.

Definition sleeping (p : pc) : nat :=
  match p with LAsleep => 1 | _ => 0 end.

(** The semaphore a thread has made in [initsema] and not yet installed or
    freed; the places where the lock's semaphore must exist; the value of
    [m->locks] at each place. *)
Definition made (p : pc) : option Z :=
  match p with
  | LCas h | LFree h | UCas h | UFree h => Some h
  | _ => None
  end.

Definition needs_sema (p : pc) : bool :=
  match p with
  | LFree _ | LWait | LAsleep | UFree _ | UPost => true
  | _ => false
  end.

Definition locked (p : pc) : Z :=
  match p with
  | LHave | LInitTest | LInit | LCas _ | LFree _ | LWait | LAsleep
  | Inside => 1
  | _ => 0
  end.

Definition thrown (p : pc) : bool :=
  match p with Thrown => true | _ => false end.

(** The credit on the lock's kernel semaphore. *)
Definition credit (l : Lock) (kn : kernel) : Z :=
  match sems kn !! sema l with
  | Some x => kvalue x
  | None => 0
  end.

(** What every interleaving keeps true.  The key counts the threads that
    hold the lock or wait for it.  While the key is above zero there is
    exactly one token: a thread holding the lock, a [sem_post] owed, or a
    credit on the semaphore; with the key at zero there is none.  The
    kernel's handles are its own; the lock's semaphore, once installed,
    has the sleepers of the lock as its sleepers, and no credit while one
    sleeps; a semaphore made in [initsema] and not yet installed is idle
    and is not the lock's.  [m->locks] is 1 from the [xadd] of
    [runtime·lock] to the [xadd] of [runtime·unlock], and nobody has
    thrown. *)
Record good (l : Lock) (kn : kernel) (t o : thread) : Prop :=
  { g_key : key l
            = holds (at_ t) + holds (at_ o) + waits (at_ t) + waits (at_ o);
    g_one : holds (at_ t) + holds (at_ o) + posts (at_ t) + posts (at_ o)
            + credit l kn
            = (if 0 <? key l then 1 else 0);
    g_credit : 0 <= credit l kn;
    g_dom : forall h, is_Some (sems kn !! h) -> 0 < h < Z.pos (fresh kn);
    g_cell : sema l <> 0 ->
      exists v, sems kn !! sema l =
        Some {| kvalue := v;
                kwaiting := sleeping (at_ t) + sleeping (at_ o) |};
    g_asleep : (0 < sleeping (at_ t) + sleeping (at_ o))%nat ->
      credit l kn = 0;
    g_need_t : needs_sema (at_ t) = true -> sema l <> 0;
    g_need_o : needs_sema (at_ o) = true -> sema l <> 0;
    g_made_t : forall h, made (at_ t) = Some h ->
      h <> sema l /\ sems kn !! h = Some {| kvalue := 0; kwaiting := 0 |};
    g_made_o : forall h, made (at_ o) = Some h ->
      h <> sema l /\ sems kn !! h = Some {| kvalue := 0; kwaiting := 0 |};
    g_made_ne : forall h h', made (at_ t) = Some h ->
      made (at_ o) = Some h' -> h <> h';
    g_locks_t : locks t = locked (at_ t) /\ thrown (at_ t) = false;
    g_locks_o : locks o = locked (at_ o) /\ thrown (at_ o) = false }.

(** Two places of the same role: what the thread holds, waits for and
    owes is the same at both. *)
Definition same_role (p p' : pc) : Prop :=
  holds p' = holds p /\ waits p' = waits p /\ posts p' = posts p /\
  sleeping p' = sleeping p /\ locked p' = locked p /\ thrown p' = false.

(** How many of its own steps a thread that holds the lock or owes a post
    is from having posted, when the lock's semaphore is installed. *)
Definition togo (p : pc) : nat :=
  match p with
  | UPost => 1
  | UHave | UInitTest | UFree _ => 2
  | Inside | UCas _ => 3
  | UInit => 4
  | _ => 0
  end.

(** The same state with the two threads named the other way round. *)
Definition swap (s : sys) : sys :=
  {| mutex := mutex s; kern := kern s; first := second s; second := first s |}.

(** The invariant, of a state of the two threads. *)
Definition safe (s : sys) : Prop :=
  good (mutex s) (kern s) (first s) (second s).

(** A schedule on which the two threads meet at the lock: the first takes
    it, the second finds it taken and goes to sleep, the first unlocks and
    wakes the second. *)
Definition meet : list bool :=
  [true] ++ replicate 7 false ++ replicate 3 true.

End Contend.

(** * Properties *)

(** ** Facts on machine integers *)

Section MachFacts.
Import Mach.

Lemma u32_range x : 0 <= u32 x < 2 ^ 32.
Proof. unfold u32. apply Z.mod_pos_bound. lia. Qed.

Lemma u32_small x : 0 <= x < 2 ^ 32 -> u32 x = x.
Proof. intros H. unfold u32. apply Z.mod_small. exact H. Qed.

Lemma int32_range x : - 2 ^ 31 <= int32 x < 2 ^ 31.
Proof.
  unfold int32. pose proof (Z.mod_pos_bound x (2 ^ 32) ltac:(lia)) as H.
  destruct (Z.ltb_spec (x mod 2 ^ 32) (2 ^ 31)); lia.
Qed.

Lemma int32_u32 x : int32 (u32 x) = int32 x.
Proof. unfold int32, u32. rewrite Z.mod_mod by lia. reflexivity. Qed.

Lemma int32_small x : - 2 ^ 31 <= x < 2 ^ 31 -> int32 x = x.
Proof.
  intros H. unfold int32.
  destruct (Z_lt_le_dec x 0) as [Hn | Hp].
  - replace (x mod 2 ^ 32) with (x + 2 ^ 32).
    + destruct (Z.ltb_spec (x + 2 ^ 32) (2 ^ 31)); lia.
    + apply Z.mod_unique with (q := -1); lia.
  - rewrite Z.mod_small by lia.
    destruct (Z.ltb_spec x (2 ^ 31)); lia.
Qed.

(** Adding a small delta to a word, seen through the signed cast. *)
Lemma int32_add x d :
  - 2 ^ 31 <= int32 x + d < 2 ^ 31 -> int32 (x + d) = int32 x + d.
Proof.
  intros H. rewrite <- (int32_small (int32 x + d)) by exact H.
  unfold int32 at 1 3.
  assert (E : (x + d) mod 2 ^ 32 = (int32 x + d) mod 2 ^ 32).
  { unfold int32. destruct (Z.ltb_spec (x mod 2 ^ 32) (2 ^ 31)).
    - rewrite Zplus_mod_idemp_l. reflexivity.
    - replace (x mod 2 ^ 32 - 2 ^ 32 + d)
        with ((x mod 2 ^ 32 + d) + (-1) * 2 ^ 32) by lia.
      rewrite Z_mod_plus_full, Zplus_mod_idemp_l. reflexivity. }
  rewrite E. reflexivity.
Qed.

End MachFacts.

(** ** User semaphores *)

Section UsemaFacts.
Import Mach Kernel Thread.

Lemma calls_since_refl kn : calls_since kn kn = [].
Proof. unfold calls_since. rewrite Nat.sub_diag. reflexivity. Qed.

Lemma calls_since_app kn kn' new :
  klog kn' = new ++ klog kn -> calls_since kn kn' = new.
Proof.
  intros E. unfold calls_since. rewrite E, length_app.
  replace (length new + length (klog kn) - length (klog kn))%nat
    with (length new) by lia.
  apply take_app_length.
Qed.

(** What the lazy allocation of the kernel semaphore does to the log. *)
Lemma initsema_zero value kn :
  initsema 0 value kn =
    (Z.pos (fresh kn), (sem_init value kn).2).
Proof. reflexivity. Qed.

Lemma usemacquire_fast s kn :
  0 <= int32 (u s - 1) ->
  usemacquire s kn = Returned ({| u := u32 (u s - 1); k := k s |}, kn).
Proof.
  intros H. unfold usemacquire, xadd. rewrite int32_u32.
  replace (u s + -1) with (u s - 1) by lia.
  destruct (Z.ltb_spec (int32 (u s - 1)) 0); [lia | reflexivity].
Qed.

Lemma usemacquire_slow s kn s' kn' :
  int32 (u s - 1) < 0 ->
  state_of (usemacquire s kn) = Some (s', kn') ->
  u s' = u32 (u s - 1) /\ k s' <> 0 /\
  (calls_since kn kn' = [SysSemWait (k s') 0] \/
   calls_since kn kn' = [SysSemWait (k s') 0; SysSemInit 0 (k s')]).
Proof.
  intros H. unfold usemacquire, xadd. rewrite int32_u32.
  replace (u s + -1) with (u s - 1) by lia.
  destruct (Z.ltb_spec (int32 (u s - 1)) 0); [| lia].
  destruct (Z.eqb_spec (k s) 0) as [E | E].
  - rewrite E, initsema_zero.
    destruct (sem_wait (Z.pos (fresh kn)) 0 (sem_init 0 kn).2) as [b k2] eqn:W.
    assert (L : klog k2 = [SysSemWait (Z.pos (fresh kn)) 0;
                           SysSemInit 0 (Z.pos (fresh kn))] ++ klog kn).
    { unfold sem_wait in W. simpl in W.
      rewrite lookup_insert_eq in W. simpl in W.
      inversion W; subst; reflexivity. }
    intros S. assert (s' = {| u := u32 (u s - 1); k := Z.pos (fresh kn) |}
                      /\ kn' = k2) as [-> ->].
    { destruct b; simpl in S; inversion S; auto. }
    simpl. split; [reflexivity |]. split; [lia |].
    right. apply calls_since_app. exact L.
  - destruct (sem_wait (k s) 0 kn) as [b k2] eqn:W.
    assert (L : klog k2 = [SysSemWait (k s) 0] ++ klog kn).
    { unfold sem_wait in W.
      destruct (sems kn !! k s) as [x |].
      - destruct (0 <? kvalue x); inversion W; subst; reflexivity.
      - inversion W; subst; reflexivity. }
    intros S. assert (s' = {| u := u32 (u s - 1); k := k s |}
                      /\ kn' = k2) as [-> ->].
    { destruct b; simpl in S; inversion S; auto. }
    simpl. split; [reflexivity |]. split; [exact E |].
    left. apply calls_since_app. exact L.
Qed.

Lemma usemacquire_no_throw s kn : exists a, state_of (usemacquire s kn) = Some a.
Proof.
  unfold usemacquire, xadd.
  destruct (int32 (u32 (u s + -1)) <? 0).
  - destruct (if k s =? 0 then initsema (k s) 0 kn else (k s, kn)) as [k' k1].
    destruct (sem_wait k' 0 k1) as [[] k2]; simpl; eauto.
  - simpl; eauto.
Qed.

Lemma usemrelease_fast s kn :
  0 < int32 (u s + 1) ->
  usemrelease s kn = ({| u := u32 (u s + 1); k := k s |}, kn).
Proof.
  intros H. unfold usemrelease, xadd. rewrite int32_u32.
  destruct (Z.leb_spec (int32 (u s + 1)) 0); [lia | reflexivity].
Qed.

Lemma usemrelease_slow s kn :
  int32 (u s + 1) <= 0 ->
  let '(s', kn') := usemrelease s kn in
  u s' = u32 (u s + 1) /\ k s' <> 0 /\
  (calls_since kn kn' = [SysSemPost (k s')] \/
   calls_since kn kn' = [SysSemPost (k s'); SysSemInit 0 (k s')]).
Proof.
  intros H. unfold usemrelease, xadd. rewrite int32_u32.
  destruct (Z.leb_spec (int32 (u s + 1)) 0); [| lia].
  destruct (Z.eqb_spec (k s) 0) as [E | E].
  - rewrite E, initsema_zero.
    destruct (sem_post (Z.pos (fresh kn)) (sem_init 0 kn).2) as [b k2] eqn:W.
    assert (L : klog k2 = [SysSemPost (Z.pos (fresh kn));
                           SysSemInit 0 (Z.pos (fresh kn))] ++ klog kn).
    { unfold sem_post in W. simpl in W.
      rewrite lookup_insert_eq in W. simpl in W.
      inversion W; subst; reflexivity. }
    simpl. split; [reflexivity |]. split; [lia |].
    right. apply calls_since_app. exact L.
  - destruct (sem_post (k s) kn) as [b k2] eqn:W.
    assert (L : klog k2 = [SysSemPost (k s)] ++ klog kn).
    { unfold sem_post in W.
      destruct (sems kn !! k s) as [x |].
      - destruct (kwaiting x); inversion W; subst; reflexivity.
      - inversion W; subst; reflexivity. }
    simpl. split; [reflexivity |]. split; [exact E |].
    left. apply calls_since_app. exact L.
Qed.

(** C10: the user semaphore enters the kernel only on its blocking paths.
    [usemacquire] makes the kernel wait (one [sem_wait], after allocating the
    kernel semaphore if there is none yet) exactly when the counter it has
    just decremented is negative, [usemrelease] posts the kernel semaphore
    (one [sem_post]) exactly when the counter it has just incremented is at
    most zero, and on the other paths both return with the kernel untouched:
    no system call at all. *)
Theorem usema_kernel_only_when_blocking (s : Usema) (kn : kernel) :
  (exists s' kn',
     state_of (usemacquire s kn) = Some (s', kn') /\
     u s' = u32 (u s - 1) /\
     (int32 (u s') < 0 <->
      length (filter is_wait (calls_since kn kn')) = 1%nat) /\
     (0 <= int32 (u s') ->
      usemacquire s kn = Returned (s', kn) /\ calls_since kn kn' = [])) /\
  (let '(s', kn') := usemrelease s kn in
   u s' = u32 (u s + 1) /\
   (int32 (u s') <= 0 <->
    length (filter is_post (calls_since kn kn')) = 1%nat) /\
   (0 < int32 (u s') -> kn' = kn /\ calls_since kn kn' = [])).
Proof.
  split.
  - destruct (Z_lt_le_dec (int32 (u s - 1)) 0) as [Hn | Hp].
    + destruct (usemacquire_no_throw s kn) as [[s' kn'] E].
      exists s', kn'. split; [exact E |].
      destruct (usemacquire_slow s kn s' kn' Hn E) as (Hu & _ & Hc).
      split; [exact Hu |]. rewrite Hu, int32_u32. split.
      * split; [| intros _; exact Hn].
        intros _. destruct Hc as [-> | ->]; reflexivity.
      * lia.
    + rewrite (usemacquire_fast s kn Hp).
      exists {| u := u32 (u s - 1); k := k s |}, kn.
      cbn [state_of u]. rewrite int32_u32, calls_since_refl.
      cbn [filter length]. repeat split; try lia. discriminate.
  - destruct (Z_lt_le_dec 0 (int32 (u s + 1))) as [Hp | Hn].
    + rewrite (usemrelease_fast s kn Hp).
      cbn [u]. rewrite int32_u32, calls_since_refl.
      cbn [filter length]. repeat split; try lia. discriminate.
    + pose proof (usemrelease_slow s kn Hn) as P.
      destruct (usemrelease s kn) as [s' kn'].
      destruct P as (Hu & _ & Hc). split; [exact Hu |].
      rewrite Hu, int32_u32. split.
      * split; [| intros _; exact Hn].
        intros _. destruct Hc as [-> | ->]; reflexivity.
      * lia.
Qed.

End UsemaFacts.

(** ** Locks *)

Section LockFacts.
Import Mach Kernel Thread.


Lemma sem_post_log h kn :
  klog (sem_post h kn).2 = SysSemPost h :: klog kn.
Proof.
  unfold sem_post. destruct (sems kn !! h) as [x |]; [| reflexivity].
  destruct (kwaiting x); reflexivity.
Qed.






End LockFacts.

(** ** Notes *)

Section NoteFacts.
Import Mach Kernel Thread.

Lemma usemacquire_returned s kn s' kn' :
  usemacquire s kn = Returned (s', kn') -> u s' = u32 (u s - 1).
Proof.
  unfold usemacquire, xadd. replace (u s + -1) with (u s - 1) by lia.
  destruct (int32 (u32 (u s - 1)) <? 0).
  - destruct (if k s =? 0 then initsema (k s) 0 kn else (k s, kn)) as [k' k1].
    destruct (sem_wait k' 0 k1) as [[] k2]; intros E; inversion E; reflexivity.
  - intros E; inversion E; reflexivity.
Qed.

(** The loop leaves only through its test: while [wakeup] is zero no bound
    on the number of iterations makes [notesleep] return. *)
Lemma notesleep_holds fuel : forall n kn o,
  wakeup n = 0 -> notesleep fuel n kn = Some o -> forall a, o <> Returned a.
Proof.
  induction fuel as [| fuel IH]; intros n kn o Hw E a; [discriminate |].
  simpl in E. rewrite Hw in E. simpl in E.
  destruct (usemacquire (nsema n) kn) as [[s' kn'] | [s' kn'] | msg].
  - apply (IH {| state := state n; nsema := s' |} kn' o Hw E).
  - inversion E. discriminate.
  - inversion E. discriminate.
Qed.

Lemma notesleep_returns fuel n kn :
  wakeup n <> 0 -> notesleep (S fuel) n kn = Some (Returned (n, kn)).
Proof.
  intros H. simpl. destruct (Z.eqb_spec (wakeup n) 0); [contradiction | reflexivity].
Qed.

(** With the kernel semaphore idle, the thread that decrements the counter
    below zero goes to sleep on it. *)
Lemma usemacquire_parks s kn :
  int32 (u s - 1) < 0 -> idle (k s) kn ->
  exists k' kn',
    usemacquire s kn = Parked ({| u := u32 (u s - 1); k := k' |}, kn') /\
    k' <> 0 /\
    sems kn' !! k' = Some {| kvalue := 0; kwaiting := 1 |}.
Proof.
  intros Hn Hi. unfold usemacquire, xadd. rewrite int32_u32.
  replace (u s + -1) with (u s - 1) by lia.
  destruct (Z.ltb_spec (int32 (u s - 1)) 0); [| lia].
  destruct (Z.eqb_spec (k s) 0) as [E | E].
  - rewrite E, initsema_zero. unfold sem_wait. simpl.
    rewrite lookup_insert_eq. simpl.
    eexists _, _. split; [reflexivity |]. split; [lia |].
    simpl. rewrite lookup_insert_eq. reflexivity.
  - destruct Hi as [Hi | Hi]; [contradiction |].
    unfold sem_wait. rewrite Hi. simpl.
    eexists _, _. split; [reflexivity |]. split; [exact E |].
    simpl. rewrite lookup_insert_eq. reflexivity.
Qed.

(** A cleared note with [c] stale credits on its counter: the sleeper uses
    them up, one per iteration, and then sleeps in the kernel. *)
Lemma notesleep_parks (c : nat) : forall n kn,
  wakeup n = 0 -> int32 (u (nsema n)) = Z.of_nat c -> idle (k (nsema n)) kn ->
  exists k' kn',
    notesleep (S c) n kn =
      Some (Parked ({| state := 0; nsema := {| u := u32 (-1); k := k' |} |}, kn')) /\
    k' <> 0 /\
    sems kn' !! k' = Some {| kvalue := 0; kwaiting := 1 |}.
Proof.
  induction c as [| c IH]; intros n kn Hw Hu Hi.
  - assert (Hn : int32 (u (nsema n) - 1) < 0).
    { replace (u (nsema n) - 1) with (u (nsema n) + -1) by lia.
      rewrite int32_add; rewrite Hu; lia. }
    destruct (usemacquire_parks (nsema n) kn Hn Hi) as (k' & kn' & E & Hk & Hs).
    exists k', kn'. simpl. rewrite Hw. simpl. rewrite E.
    split; [| split; assumption].
    unfold wakeup in Hw. rewrite Hw. do 4 f_equal.
    unfold u32. rewrite <- (int32_u32 (u (nsema n))) in Hu.
    pose proof (u32_range (u (nsema n))) as R.
    assert (u32 (u (nsema n)) = 0) as Z0.
    { unfold int32 in Hu. rewrite Z.mod_small in Hu by exact R.
      destruct (Z.ltb_spec (u32 (u (nsema n))) (2 ^ 31)); lia. }
    unfold u32 in Z0. rewrite <- Zminus_mod_idemp_l, Z0. reflexivity.
  - pose proof (int32_range (u (nsema n))) as R.
    assert (Hp : 0 <= int32 (u (nsema n) - 1)).
    { replace (u (nsema n) - 1) with (u (nsema n) + -1) by lia.
      rewrite int32_add; lia. }
    change (notesleep (S (S c)) n kn) with
      (if wakeup n =? 0 then
         match usemacquire (nsema n) kn with
         | Returned (s', kn') =>
             notesleep (S c) {| state := state n; nsema := s' |} kn'
         | Parked (s', kn') =>
             Some (Parked ({| state := state n; nsema := s' |}, kn'))
         | Throw msg => Some (Throw msg)
         end
       else Some (Returned (n, kn))).
    rewrite Hw. cbn [Z.eqb]. rewrite (usemacquire_fast _ _ Hp).
    apply IH.
    + exact Hw.
    + cbn [nsema u]. rewrite int32_u32.
      replace (u (nsema n) - 1) with (u (nsema n) + -1) by lia.
      rewrite int32_add; lia.
    + exact Hi.
Qed.

(** A waker that finds the counter negative posts the kernel semaphore and
    so makes one sleeper runnable. *)
Lemma notewakeup_releases n kn w :
  int32 (u (nsema n)) < 0 -> k (nsema n) <> 0 ->
  sems kn !! k (nsema n) = Some {| kvalue := 0; kwaiting := S w |} ->
  exists kn',
    notewakeup n kn =
      ({| state := 1;
          nsema := {| u := u32 (u (nsema n) + 1); k := k (nsema n) |} |}, kn') /\
    sems kn' !! k (nsema n) = Some {| kvalue := 0; kwaiting := w |}.
Proof.
  intros Hn Hk Hs. unfold notewakeup, usemrelease, xadd. rewrite int32_u32.
  pose proof (int32_range (u (nsema n))) as R.
  assert (int32 (u (nsema n) + 1) <= 0) by (rewrite int32_add; lia).
  destruct (Z.leb_spec (int32 (u (nsema n) + 1)) 0); [| lia].
  destruct (Z.eqb_spec (k (nsema n)) 0); [contradiction |].
  unfold sem_post. rewrite Hs. simpl.
  eexists. split; [reflexivity |]. simpl. rewrite lookup_insert_eq. reflexivity.
Qed.

Lemma notewakeup_state n kn : wakeup (notewakeup n kn).1 = 1.
Proof.
  unfold notewakeup. destruct (usemrelease (nsema n) kn). reflexivity.
Qed.

End NoteFacts.

(** ** A sleeper and a waker, interleaved *)

Section RaceFacts.
Import Mach Kernel Thread Race.

(** Proof steps for the invariant: open it, settle the tests on the two
    program counters, read the semaphores through the updates of the kernel
    map, and close the fields one by one. *)
Ltac open_inv I :=
  destruct I as [Iu Idom Icell Iasleep Ineeds Ineedw Imades Imadew Imadene
                   Iwake Ibefore Iafter Idone];
  unfold credit, wakeup in *; cbn [note kern sleeper waker nsema u k state] in *.

Ltac settle :=
  cbn [asleep_on needs_sema_s needs_sema_w at_xadd returned unset before
       owes_wait owes_post made_s made_w] in *;
  repeat match goal with
    | H : true = true -> _ |- _ => specialize (H eq_refl)
    | H : false = true -> _ |- _ => clear H
    | H : true = false -> _ |- _ => clear H
    | H : false = false -> _ |- _ => specialize (H eq_refl)
    | H : forall h, None = Some h -> _ |- _ => clear H
    | H : forall h, Some ?x = Some h -> _ |- _ => specialize (H x eq_refl)
    | H : forall h h', None = Some h -> _ |- _ => clear H
    | H : forall h h', Some ?x = Some h -> None = Some h' -> _ |- _ => clear H
    | H : forall h h', Some ?x = Some h -> Some ?y = Some h' -> _ |- _ =>
        specialize (H x y eq_refl eq_refl)
    | H : _ /\ _ |- _ => destruct H
    | H : Some _ = Some _ |- _ => injection H as H; try subst
    | H : None = Some _ |- _ => discriminate H
    | H : true = false |- _ => discriminate H
    | H : false = true |- _ => discriminate H
    end.

Ltac split_inv :=
  constructor; unfold credit, wakeup;
  cbn [note kern sleeper waker nsema u k state with_u with_k
       sems Kernel.fresh klog]; intros; settle.

Ltac close_field :=
  try solve
    [ assumption | discriminate | lia | congruence | tauto
    | match goal with
      | H : forall h, is_Some _ -> _ |- _ => apply H; assumption
      end
    | repeat split;
      first [assumption | lia | congruence | tauto | discriminate] ].

Ltac use_cell :=
  repeat match goal with
    | H : ?a <> ?b -> _, H' : ?a <> ?b |- _ => specialize (H H')
    | H : exists _, _ |- _ => destruct H
    | H : _ /\ _ |- _ => destruct H
    end.

Ltac handle_ranges K Idom :=
  repeat match goal with
    | H : sems K !! ?x = Some _ |- _ =>
        lazymatch goal with
        | _ : 0 < x < Z.pos (fresh K) |- _ => fail
        | _ => let R := fresh "R" in
               assert (R : 0 < x < Z.pos (fresh K))
                 by (apply Idom; rewrite H; eexists; reflexivity)
        end
    end.

Ltac through_updates :=
  repeat first
    [ rewrite lookup_insert_eq
    | rewrite lookup_insert_ne by (first [lia | congruence])
    | rewrite lookup_delete_ne by (first [lia | congruence])
    | rewrite lookup_delete_eq ].

Ltac handle_goal :=
  match goal with
  | H : is_Some (<[?a := _]> _ !! ?h) |- _ =>
      destruct (Z.eq_dec h a) as [-> | ?];
      [ lia
      | rewrite lookup_insert_ne in H by congruence;
        match goal with
        | I : forall h, is_Some _ -> _ |- _ => specialize (I _ H); lia
        end ]
  | H : is_Some (delete ?a _ !! ?h) |- _ =>
      destruct (Z.eq_dec h a) as [-> | ?];
      [ rewrite lookup_delete_eq in H; destruct H; discriminate
      | rewrite lookup_delete_ne in H by congruence;
        match goal with
        | I : forall h, is_Some _ -> _ |- _ => specialize (I _ H); lia
        end ]
  end.

Ltac cell_goal :=
  eexists; split;
  [ first [eassumption | reflexivity]
  | split; [lia | intros; first [discriminate | lia | congruence]] ].

Ltac close_goal := close_field; try solve [handle_goal | cell_goal].

Ltac read_sems :=
  repeat match goal with
    | H : sems ?K !! ?x = _ |- context [sems ?K !! ?x] => rewrite H
    | H : sems ?K !! ?x = _, H' : context [sems ?K !! ?x] |- _ =>
        tryif constr_eq H H' then fail else rewrite H in H'
    end;
  cbn [kvalue kwaiting] in *.

Ltac step_case K Idom :=
  settle; use_cell; handle_ranges K Idom; read_sems;
  split_inv; through_updates; read_sems; close_goal.

Lemma no_handle_zero K :
  (forall h, is_Some (sems K !! h) -> 0 < h < Z.pos (Kernel.fresh K)) ->
  sems K !! 0 = None.
Proof.
  intros Idom. destruct (sems K !! 0) eqn:L; [| reflexivity].
  assert (0 < 0 < Z.pos (Kernel.fresh K))
    by (apply Idom; rewrite L; eexists; reflexivity).
  lia.
Qed.

Lemma sleeper_inv C s s' :
  0 <= C < 2 ^ 31 - 2 -> inv C s -> sleeper_step s = Some s' -> inv C s'.
Proof.
  intros HC I E. destruct s as [[st [uu kk]] K sp wp].
  open_inv I. unfold sleeper_step in E.
  cbn [note kern sleeper waker nsema u k state wakeup] in E.
  pose proof (no_handle_zero K Idom) as Z0.
  destruct sp.
  - (* STest *)
    injection E as <-.
    destruct (Z.eqb_spec st 0) as [E0 | N0]; destruct wp; step_case K Idom.
  - (* SXadd *)
    unfold xadd in E. cbn in E. injection E as <-.
    rewrite int32_u32.
    assert (R : int32 (uu + -1) = int32 uu + -1) by (apply int32_add; lia).
    rewrite R.
    destruct (Z.ltb_spec (int32 uu + -1) 0); destruct wp; settle; split_inv;
      try rewrite int32_u32, R; close_field.
  - (* SHave *)
    injection E as <-.
    destruct (Z.eqb_spec kk 0); destruct wp; step_case K Idom.
  - (* SInitTest *)
    injection E as <-.
    destruct (Z.eqb_spec kk 0); destruct wp; step_case K Idom.
  - (* SInit *)
    unfold sem_init in E. cbn in E. injection E as <-.
    destruct (Z.eq_dec kk 0) as [-> | Hk]; destruct wp; step_case K Idom.
  - (* SCas *)
    unfold cas in E. cbn in E.
    destruct (Z.eqb_spec kk 0) as [-> | Hk]; injection E as <-;
      destruct wp; step_case K Idom.
  - (* SFree *)
    unfold sem_free in E. injection E as <-.
    destruct (Z.eq_dec kk 0) as [-> | Hk]; destruct wp; step_case K Idom.
  - (* SWait *)
    unfold sem_wait in E.
    destruct (Z.eq_dec kk 0) as [-> | Hk]; [settle; congruence |].
    destruct (Icell Hk) as (v & Lk & Hv & Hva).
    rewrite Lk in E. cbn [kvalue kwaiting asleep_on] in E.
    destruct (Z.ltb_spec 0 v); injection E as <-; destruct wp; step_case K Idom.
  - discriminate.
  - discriminate.
Qed.

Lemma waker_inv C s s' :
  0 <= C < 2 ^ 31 - 2 -> inv C s -> waker_step s = Some s' -> inv C s'.
Proof.
  intros HC I E. destruct s as [[st [uu kk]] K sp wp].
  open_inv I. unfold waker_step in E.
  cbn [note kern sleeper waker nsema u k state wakeup] in E.
  pose proof (no_handle_zero K Idom) as Z0.
  destruct wp.
  - (* WSet *)
    injection E as <-. destruct sp; step_case K Idom.
  - (* WXadd *)
    unfold xadd in E. cbn in E. injection E as <-.
    rewrite int32_u32.
    assert (R : int32 (uu + 1) = int32 uu + 1).
    { apply int32_add. settle. lia. }
    rewrite R.
    destruct (Z.leb_spec (int32 uu + 1) 0); destruct sp; settle; split_inv;
      try rewrite int32_u32, R; close_field.
  - (* WHave *)
    injection E as <-.
    destruct (Z.eqb_spec kk 0); destruct sp; step_case K Idom.
  - (* WInitTest *)
    injection E as <-.
    destruct (Z.eqb_spec kk 0); destruct sp; step_case K Idom.
  - (* WInit *)
    unfold sem_init in E. cbn in E. injection E as <-.
    destruct (Z.eq_dec kk 0) as [-> | Hk]; destruct sp; step_case K Idom.
  - (* WCas *)
    unfold cas in E. cbn in E.
    destruct (Z.eqb_spec kk 0) as [-> | Hk]; injection E as <-;
      destruct sp; step_case K Idom.
  - (* WFree *)
    unfold sem_free in E. injection E as <-.
    destruct (Z.eq_dec kk 0) as [-> | Hk]; destruct sp; step_case K Idom.
  - (* WPost *)
    unfold sem_post in E.
    destruct (Z.eq_dec kk 0) as [-> | Hk]; [settle; congruence |].
    destruct (Icell Hk) as (v & Lk & Hv & Hva).
    rewrite Lk in E. cbn [kvalue kwaiting] in E.
    destruct sp; cbn [asleep_on] in E; injection E as <-; step_case K Idom.
  - discriminate.
Qed.

Lemma step_inv C s pick : 0 <= C < 2 ^ 31 - 2 -> inv C s -> inv C (step s pick).
Proof.
  intros HC I. unfold step. destruct pick.
  - destruct (sleeper_step s) as [s' |] eqn:E; [| exact I].
    apply (sleeper_inv C s s' HC I E).
  - destruct (waker_step s) as [s' |] eqn:E; [| exact I].
    apply (waker_inv C s s' HC I E).
Qed.

Lemma exec_inv C schedule : forall s,
  0 <= C < 2 ^ 31 - 2 -> inv C s -> inv C (exec s schedule).
Proof.
  induction schedule as [| pick schedule IH]; intros s HC I; [exact I |].
  apply IH; [exact HC |]. apply step_inv; assumption.
Qed.

Lemma enter_inv C n kn :
  0 <= int32 (u (nsema n)) <= C ->
  (forall h, is_Some (sems kn !! h) -> 0 < h < Z.pos (Kernel.fresh kn)) ->
  idle (k (nsema n)) kn ->
  inv C (enter n kn).
Proof.
  intros Hu Hdom Hidle. unfold enter, noteclear.
  pose proof (no_handle_zero kn Hdom) as Z0.
  constructor; unfold credit, wakeup;
    cbn [note kern sleeper waker nsema u k state asleep_on needs_sema_s
         needs_sema_w at_xadd returned unset before owes_wait owes_post
         made_s made_w]; try discriminate; try lia; try assumption.
  - intros Hk. destruct Hidle as [? | L]; [contradiction |].
    exists 0. split; [exact L |]. split; [lia | reflexivity].
  - intros _. unfold idle in Hidle. destruct Hidle as [-> | L].
    + rewrite Z0. split; [reflexivity |]. split; [lia |].
      split; [discriminate | lia].
    + rewrite L. split; [reflexivity |]. split; [lia |].
      split; [discriminate | lia].
Qed.

Lemma sleeper_closer C s :
  0 <= C < 2 ^ 31 - 2 -> inv C s -> waker s = WDone ->
  sleeper s = SDone \/
  (waker (step s true) = WDone /\
   (dist (sleeper (step s true)) < dist (sleeper s))%nat).
Proof.
  intros HC I W. destruct s as [[st [uu kk]] K sp wp].
  cbn [waker] in W. subst wp.
  open_inv I. pose proof (no_handle_zero K Idom) as Z0.
  unfold step, sleeper_step.
  cbn [note kern sleeper waker nsema u k state wakeup].
  destruct sp; settle.
  - right. subst st. simpl. split; [reflexivity | lia].
  - right. unfold xadd. cbn. rewrite int32_u32.
    assert (R : int32 (uu + -1) = int32 uu + -1) by (apply int32_add; lia).
    rewrite R. destruct (Z.ltb_spec (int32 uu + -1) 0); [lia |].
    simpl. split; [reflexivity | lia].
  - right. destruct (Z.eqb_spec kk 0) as [-> | Hk]; simpl;
      [rewrite Z0 in *; lia | split; [reflexivity | lia]].
  - right. destruct (Z.eqb_spec kk 0) as [-> | Hk]; simpl;
      [rewrite Z0 in *; lia | split; [reflexivity | lia]].
  - right. simpl. split; [reflexivity | lia].
  - right. unfold cas. destruct (Z.eqb_spec kk 0) as [-> | Hk]; simpl;
      [rewrite Z0 in *; lia | split; [reflexivity | lia]].
  - right. simpl. split; [reflexivity | lia].
  - right. use_cell. unfold sem_wait. read_sems.
    destruct (Z.ltb_spec 0 x); [| lia]. simpl. split; [reflexivity | lia].
  - exfalso. use_cell. settle. read_sems. lia.
  - left. reflexivity.
Qed.

Lemma sleeper_returns C : forall (n : nat) s,
  0 <= C < 2 ^ 31 - 2 -> inv C s -> waker s = WDone ->
  (dist (sleeper s) <= n)%nat ->
  sleeper (exec s (replicate n true)) = SDone.
Proof.
  induction n as [| n IH]; intros s HC I W D.
  - simpl. destruct (sleeper s); simpl in D; try lia. reflexivity.
  - simpl. destruct (sleeper_closer C s HC I W) as [Dn | [W' D']].
    + assert (E : step s true = s).
      { unfold step, sleeper_step. rewrite Dn. reflexivity. }
      rewrite E. apply IH; try assumption. rewrite Dn. simpl. lia.
    + apply IH; [exact HC | apply step_inv; assumption | exact W' | lia].
Qed.

Lemma not_asleep C s h :
  inv C s -> waker s = WDone -> sleeper s <> SAsleep h.
Proof.
  intros I W E. destruct s as [[st [uu kk]] K sp wp].
  cbn [waker sleeper] in W, E. subst wp sp.
  open_inv I. settle. use_cell. settle. read_sems. lia.
Qed.

(** C2: a note is a one-shot event.  After [noteclear], [notesleep] leaves
    its loop only once [notewakeup] has run: (1) alone it never returns,
    whatever the bound on its iterations, and (2) it ends asleep in the
    kernel after using up the stale credits of the counter; (3) a
    [notewakeup] that comes later posts the semaphore the sleeper is parked
    on, and the sleeper, resuming at the loop test, returns; (4) after a
    [notewakeup], every [notesleep] returns at its first test, leaving note
    and kernel as they are, any number of times; (5) the next [noteclear]
    brings back (1).  (6) In every interleaving of the steps of a
    [notesleep] and a [notewakeup] on the cleared note, the sleeper has
    returned only if [wakeup] is set, and once the waker has returned the
    sleeper is not asleep in the kernel and returns within 7 steps of its
    own. *)
Theorem note_one_shot (n : Note) (kn : kernel) (c m : nat)
  (Hcredits : int32 (u (nsema n)) = Z.of_nat c)
  (Hsmall : Z.of_nat c < 2 ^ 31 - 2)
  (Hkernel : forall h, is_Some (sems kn !! h) -> 0 < h < Z.pos (fresh kn))
  (Hidle : idle (k (nsema n)) kn) :
  (forall fuel o a, notesleep fuel (noteclear n) kn = Some o -> o <> Returned a) /\
  (exists p kp,
     notesleep (S c) (noteclear n) kn = Some (Parked (p, kp)) /\
     waiters (k (nsema p)) kp = 1%nat /\
     let '(w, kw) := notewakeup p kp in
     calls_since kp kw = [SysSemPost (k (nsema p))] /\
     waiters (k (nsema p)) kw = 0%nat /\
     notesleep 1 w kw = Some (Returned (w, kw))) /\
  (let '(w, kw) := notewakeup (noteclear n) kn in
   wakeup w = 1 /\
   Nat.iter m (sleep_again 1) (Some (Returned (w, kw))) = Some (Returned (w, kw)) /\
   calls_since kw kw = [] /\
   forall fuel o a,
     notesleep fuel (noteclear w) kw = Some o -> o <> Returned a) /\
  (forall schedule,
     (sleeper (exec (enter n kn) schedule) = SDone ->
      wakeup (note (exec (enter n kn) schedule)) = 1 /\
      waker (exec (enter n kn) schedule) <> WSet) /\
     (waker (exec (enter n kn) schedule) = WDone ->
      (forall h, sleeper (exec (enter n kn) schedule) <> SAsleep h) /\
      sleeper (exec (exec (enter n kn) schedule) (replicate 7 true)) = SDone)).
Proof.
  split; [| split; [| split]].
  - intros fuel o a E.
    apply (notesleep_holds fuel (noteclear n) kn o eq_refl E).
  - destruct (notesleep_parks c (noteclear n) kn eq_refl Hcredits Hidle)
      as (k' & kp & E & Hk & Hs).
    eexists _, kp. split; [exact E |].
    cbn [nsema k]. unfold waiters at 1. rewrite Hs. split; [reflexivity |].
    destruct (notewakeup_releases
                {| state := 0; nsema := {| u := u32 (-1); k := k' |} |}
                kp 0 ltac:(vm_compute; reflexivity) Hk Hs) as (kw & W & Hw).
    rewrite W. cbn [nsema k] in Hw. unfold waiters. rewrite Hw.
    split; [| split; reflexivity].
    unfold notewakeup, usemrelease in W. cbn in W.
    destruct (Z.eqb_spec k' 0); [contradiction |].
    pose proof (sem_post_log k' kp) as L.
    destruct (sem_post k' kp) as [x kx]. inversion W; subst kx.
    apply calls_since_app. exact L.
  - pose proof (notewakeup_state (noteclear n) kn) as S1.
    destruct (notewakeup (noteclear n) kn) as [w kw]. simpl in S1.
    split; [exact S1 |]. split; [| split].
    + induction m as [| m IH]; [reflexivity |].
      simpl. rewrite IH. simpl. rewrite S1. reflexivity.
    + apply calls_since_refl.
    + intros fuel o a E.
      apply (notesleep_holds fuel (noteclear w) kw o eq_refl E).
  - intros schedule.
    assert (HC : 0 <= Z.of_nat c < 2 ^ 31 - 2) by lia.
    assert (I : inv (Z.of_nat c) (exec (enter n kn) schedule)).
    { apply exec_inv; [exact HC |]. apply enter_inv; [lia | exact Hkernel | exact Hidle]. }
    split.
    + intros D. pose proof (inv_done _ _ I) as Dn. rewrite D in Dn.
      specialize (Dn eq_refl). pose proof (inv_wakeup _ _ I) as Wk.
      rewrite Dn in Wk. split; [exact Wk |]. intros E. rewrite E in Dn.
      discriminate.
    + intros W. split.
      * intros h. apply (not_asleep _ _ h I W).
      * apply (sleeper_returns (Z.of_nat c) 7 _ HC I W).
        destruct (sleeper (exec (enter n kn) schedule)) eqn:Sp; simpl; try lia.
        exfalso. apply (not_asleep _ _ h I W Sp).
Qed.

(** [note_one_shot] at a fresh note on a freshly booted kernel, slept on
    after one stale credit was left on the counter. *)
Lemma note_one_shot_witness :
  let n := (notewakeup note0 boot).1 in
  let kn := (notewakeup note0 boot).2 in
  (int32 (u (nsema n)) = Z.of_nat 1 /\ idle (k (nsema n)) kn) /\
  (exists p kp,
     notesleep 2 (noteclear n) kn = Some (Parked (p, kp)) /\
     waiters (k (nsema p)) kp = 1%nat).
Proof.
  assert (H1 : int32 (u (nsema (notewakeup note0 boot).1)) = Z.of_nat 1)
    by (vm_compute; reflexivity).
  assert (H2 : idle (k (nsema (notewakeup note0 boot).1)) (notewakeup note0 boot).2)
    by (left; vm_compute; reflexivity).
  assert (H3 : forall h, is_Some (sems (notewakeup note0 boot).2 !! h) ->
                 0 < h < Z.pos (fresh (notewakeup note0 boot).2)).
  { intros h [x Hx]. vm_compute in Hx. discriminate. }
  split; [split; [exact H1 | exact H2] |].
  destruct (note_one_shot (notewakeup note0 boot).1 (notewakeup note0 boot).2
              1 3 H1 ltac:(simpl; lia) H3 H2) as (_ & (p & kp & E & W & _) & _).
  exists p, kp. split; [exact E | exact W].
Defined.

End RaceFacts.



(** ** time.sleep *)

Section TimeFacts.
Import Mach Time.

Lemma int64_range x : - 2 ^ 63 <= int64 x < 2 ^ 63.
Proof.
  unfold int64. pose proof (Z.mod_pos_bound x (2 ^ 64) ltac:(lia)) as H.
  destruct (Z.ltb_spec (x mod 2 ^ 64) (2 ^ 63)); lia.
Qed.

Lemma int64_small x : - 2 ^ 63 <= x < 2 ^ 63 -> int64 x = x.
Proof.
  intros H. unfold int64.
  destruct (Z_lt_le_dec x 0) as [Hn | Hp].
  - replace (x mod 2 ^ 64) with (x + 2 ^ 64).
    + destruct (Z.ltb_spec (x + 2 ^ 64) (2 ^ 63)); lia.
    + apply Z.mod_unique with (q := -1); lia.
  - rewrite Z.mod_small by lia.
    destruct (Z.ltb_spec x (2 ^ 63)); lia.
Qed.

(** The loop is left without error only at a time that is not before
    [end]. *)
Lemma sleep_loop_deadline env : forall t end_ asked t' asked',
  sleep_loop env t end_ asked = Some (t', None, asked') -> end_ <= t'.
Proof.
  induction env as [| w env IH]; intros t end_ asked t' asked' E; simpl in E.
  - destruct (Z.ltb_spec t end_); [discriminate |]. inversion E; subst. lia.
  - destruct (Z.ltb_spec t end_).
    + destruct (sys_err w); [discriminate |]. eapply IH. exact E.
    + inversion E; subst. lia.
Qed.

(** When the sum fits an [int64], [sleep] returns without error only at or
    after [t + ns]. *)
Lemma sleep_at_least env t ns t' asked :
  - 2 ^ 63 <= t + ns < 2 ^ 63 ->
  sleep env t ns = Some (t', None, asked) -> t + ns <= t'.
Proof.
  intros Hfit E. unfold sleep in E. rewrite (int64_small _ Hfit) in E.
  eapply sleep_loop_deadline. exact E.
Qed.

(** And it does return, re-sleeping until a clock reading reaches the
    deadline, provided [sysSleep] does not fail on the way. *)
Lemma sleep_loop_returns early late : forall t end_ asked,
  Forall (fun w => sys_err w = None /\ int64 (clock w) < end_) early ->
  sys_err late = None -> end_ <= int64 (clock late) -> t < end_ ->
  exists asked',
    sleep_loop (early ++ [late]) t end_ asked =
      Some (int64 (clock late), None, asked') /\
    length asked' = (length asked + length early + 1)%nat.
Proof.
  induction early as [| w early IH]; intros t end_ asked Hearly Hok Hlate Ht.
  - simpl. destruct (Z.ltb_spec t end_); [| lia]. rewrite Hok.
    destruct (Z.ltb_spec (int64 (clock late)) end_); [lia |].
    eexists. split; [reflexivity |]. rewrite length_app. simpl. lia.
  - inversion Hearly as [| ? ? [Hw1 Hw2] Hrest]; subst.
    simpl. destruct (Z.ltb_spec t end_); [| lia]. rewrite Hw1.
    destruct (IH (int64 (clock w)) end_ (asked ++ [int64 (end_ - t)])
                Hrest Hok Hlate Hw2) as (asked' & E & L).
    exists asked'. split; [exact E |]. rewrite L, length_app. simpl. lia.
Qed.

(** C7 fails on the code when [t + ns] leaves the [int64] range: started
    at a 2011 clock reading with the largest duration, [sleep] makes no call
    to [sysSleep] and returns its start time at once, long before
    [t + ns]. *)
Theorem sleep_overflow_returns_at_once :
  sleep [] 1320000000000000000 maxInt64
    = Some (1320000000000000000, None, []) /\
  ~ (1320000000000000000 + maxInt64 <= 1320000000000000000).
Proof. split; [vm_compute; reflexivity | unfold maxInt64; lia]. Qed.

End TimeFacts.

(** ** Zeroed memory *)

Section MemFacts.
Import Mach Mem.

Lemma map_fresh_lookup garbage (l : list Z) : forall (m : memory) a,
  a ∈ l ->
  foldl (fun m' x => <[x := garbage x]> m') m l !! a = Some (garbage a).
Proof.
  induction l as [| x l IH] using rev_ind; intros m a Hin.
  - inversion Hin.
  - rewrite foldl_app. simpl.
    destruct (decide (x = a)) as [-> | Hne].
    + apply lookup_insert_eq.
    + rewrite lookup_insert_ne by exact Hne. apply IH.
      apply elem_of_app in Hin as [Hin | Hin]; [exact Hin |].
      apply list_elem_of_singleton in Hin. congruence.
Qed.

Lemma map_fresh_other garbage (l : list Z) : forall (m : memory) a,
  a ∉ l ->
  foldl (fun m' x => <[x := garbage x]> m') m l !! a = m !! a.
Proof.
  induction l as [| x l IH] using rev_ind; intros m a Hin; [reflexivity |].
  rewrite foldl_app. simpl. rewrite not_elem_of_app in Hin.
  destruct Hin as [H1 H2]. rewrite lookup_insert_ne.
  - apply IH. exact H1.
  - intros ->. apply H2. apply list_elem_of_singleton. reflexivity.
Qed.

(** [memclr] over mapped bytes succeeds, zeroes them and nothing else. *)
Lemma memclr_spec (l : list Z) : forall (m : memory),
  (forall a, a ∈ l -> is_Some (m !! a)) ->
  exists m',
    foldl (fun om x =>
             match om with
             | Some m' =>
                 if decide (is_Some (m' !! x)) then Some (<[x := 0]> m') else None
             | None => None
             end) (Some m) l = Some m' /\
    (forall a, a ∈ l -> m' !! a = Some 0) /\
    (forall a, a ∉ l -> m' !! a = m !! a).
Proof.
  induction l as [| x l IH] using rev_ind; intros m Hm.
  - exists m. split; [reflexivity |]. split; [| reflexivity].
    intros a Hin. inversion Hin.
  - destruct (IH m) as (m1 & E & Hz & Ho).
    { intros a Ha. apply Hm. apply elem_of_app. left. exact Ha. }
    rewrite foldl_app, E. simpl.
    assert (Hx : is_Some (m1 !! x)).
    { destruct (decide (x ∈ l)) as [Hin | Hout].
      - rewrite (Hz x Hin). eexists. reflexivity.
      - rewrite (Ho x Hout). apply Hm. apply elem_of_app. right.
        apply list_elem_of_singleton. reflexivity. }
    destruct (decide (is_Some (m1 !! x))); [| contradiction].
    eexists. split; [reflexivity |]. split.
    + intros a Ha. destruct (decide (x = a)) as [-> | Hne].
      * apply lookup_insert_eq.
      * rewrite lookup_insert_ne by exact Hne. apply Hz.
        apply elem_of_app in Ha as [Ha | Ha]; [exact Ha |].
        apply list_elem_of_singleton in Ha. congruence.
    + intros a Ha. rewrite not_elem_of_app in Ha. destruct Ha as [H1 H2].
      rewrite lookup_insert_ne.
      * apply Ho. exact H1.
      * intros ->. apply H2. apply list_elem_of_singleton. reflexivity.
Qed.

Lemma memclr_zeroes p n (m : memory) :
  (forall a, p <= a < p + n -> is_Some (m !! a)) ->
  exists m',
    memclr p n m = Some m' /\ zeroed p n m' /\
    (forall a, ~ p <= a < p + n -> m' !! a = m !! a).
Proof.
  intros Hm. destruct (memclr_spec (seqZ p n) m) as (m' & E & Hz & Ho).
  { intros a Ha. apply Hm. apply elem_of_seqZ in Ha. lia. }
  exists m'. split; [exact E |]. split.
  - intros a Ha. apply Hz. apply elem_of_seqZ. lia.
  - intros a Ha. apply Ho. rewrite elem_of_seqZ. lia.
Qed.


End MemFacts.

(** ** The finalizer table *)

Section ScanFacts.
Import Mach Mfinal FintabSpec.

Lemma next_range M i : 0 <= i < M -> M < 2 ^ 31 -> 0 <= next M i < M.
Proof.
  intros Hi HM. unfold next. rewrite int32_small by lia.
  destruct (Z.eqb_spec (i + 1) M); lia.
Qed.

Lemma next_mod M i : 0 <= i < M -> M < 2 ^ 31 -> next M i = (i + 1) mod M.
Proof.
  intros Hi HM. unfold next. rewrite int32_small by lia.
  destruct (Z.eqb_spec (i + 1) M) as [E | E].
  - rewrite E, Z_mod_same_full. reflexivity.
  - rewrite Z.mod_small by lia. reflexivity.
Qed.

Lemma hash_range M k : 0 < M < 2 ^ 31 -> 0 <= hash M k < M.
Proof.
  intros HM. unfold hash, uintptr.
  rewrite (Z.mod_small M) by lia.
  pose proof (Z.mod_pos_bound (k mod 2 ^ 64) M ltac:(lia)).
  rewrite int32_small; lia.
Qed.

Lemma scan_stops stop key M : forall j i s,
  scan stop key M i j = Some s -> stop (key_at key s) = true.
Proof.
  induction j as [| j IH]; intros i s E; simpl in E; [discriminate |].
  destruct (stop (key_at key i)) eqn:S.
  - inversion E; subst. exact S.
  - eapply IH. exact E.
Qed.

Lemma scan_range stop key M : M < 2 ^ 31 -> forall j i s,
  0 <= i < M -> scan stop key M i j = Some s -> 0 <= s < M.
Proof.
  intros HM. induction j as [| j IH]; intros i s Hi E; simpl in E; [discriminate |].
  destruct (stop (key_at key i)).
  - inversion E; subst. exact Hi.
  - eapply IH; [| exact E]. apply next_range; assumption.
Qed.

(** A scan that stops at [s] stops there again in any table, and for any
    stopping rule, that keeps the slots it passed uninteresting and [s]
    interesting. *)
Lemma scan_transfer stop stop' key key' M : forall j i s,
  scan stop key M i j = Some s ->
  (forall x, stop (key_at key x) = false -> stop' (key_at key' x) = false) ->
  stop' (key_at key' s) = true ->
  scan stop' key' M i j = Some s.
Proof.
  induction j as [| j IH]; intros i s E Hpass Hs; simpl in E; [discriminate |].
  simpl. destruct (stop (key_at key i)) eqn:S.
  - inversion E; subst. rewrite Hs. reflexivity.
  - rewrite (Hpass i S). apply IH; assumption.
Qed.

(** A scan that stops nowhere has passed every slot on its way. *)
Lemma scan_none stop key M : 0 < M < 2 ^ 31 -> forall j i,
  0 <= i < M -> scan stop key M i j = None ->
  forall d, 0 <= d < Z.of_nat j -> stop (key_at key ((i + d) mod M)) = false.
Proof.
  intros HM. induction j as [| j IH]; intros i Hi E d Hd; [lia |].
  simpl in E. destruct (stop (key_at key i)) eqn:S; [discriminate |].
  destruct (Z.eq_dec d 0) as [-> | Hd0].
  - rewrite Z.add_0_r, Z.mod_small by lia. exact S.
  - specialize (IH (next M i) (next_range M i Hi ltac:(lia)) E (d - 1)
                  ltac:(lia)).
    rewrite next_mod in IH by lia.
    rewrite Zplus_mod_idemp_l in IH.
    replace (i + 1 + (d - 1)) with (i + d) in IH by lia. exact IH.
Qed.

(** Within [max] steps a scan passes every slot of the table: it stops as
    soon as one slot is interesting. *)
Lemma scan_complete stop key M i x :
  0 < M < 2 ^ 31 -> 0 <= i < M -> 0 <= x < M ->
  stop (key_at key x) = true ->
  exists s, scan stop key M i (Z.to_nat M) = Some s.
Proof.
  intros HM Hi Hx Sx.
  destruct (scan stop key M i (Z.to_nat M)) as [s |] eqn:E; [eauto |].
  pose proof (scan_none stop key M HM (Z.to_nat M) i Hi E ((x - i) mod M)) as N.
  pose proof (Z.mod_pos_bound (x - i) M ltac:(lia)) as B.
  specialize (N ltac:(lia)).
  rewrite Zplus_mod_idemp_r in N.
  replace (i + (x - i)) with x in N by lia.
  rewrite (Z.mod_small x M) in N by lia.
  rewrite N in Sx. discriminate.
Qed.

Lemma addfintab_scan_eq key M : forall j i,
  addfintab_scan key M i j =
    match scan stop_add key M i j with
    | Some s => if key_at key s =? nil then Free s else Tomb s
    | None => Full
    end.
Proof.
  induction j as [| j IH]; intros i; simpl; [reflexivity |].
  unfold stop_add at 1.
  destruct (Z.eqb_spec (key_at key i) nil) as [E | E]; simpl.
  - rewrite E. reflexivity.
  - destruct (Z.eqb_spec (key_at key i) DEAD) as [D | D]; simpl.
    + destruct (Z.eqb_spec (key_at key i) nil); [contradiction | reflexivity].
    + apply IH.
Qed.

Lemma lookfintab_scan_eq key M k : forall j i,
  lookfintab_scan key M k i j =
    match scan (stop_look k) key M i j with
    | Some s => if key_at key s =? nil then Absent else At s
    | None => Lost
    end.
Proof.
  induction j as [| j IH]; intros i; simpl; [reflexivity |].
  unfold stop_look at 1.
  destruct (Z.eqb_spec (key_at key i) nil) as [E | E]; simpl.
  - rewrite E. reflexivity.
  - destruct (Z.eqb_spec (key_at key i) k) as [D | D]; simpl.
    + destruct (Z.eqb_spec (key_at key i) nil); [contradiction | reflexivity].
    + apply IH.
Qed.

End ScanFacts.

Section SlotFacts.
Import Mach Mfinal FintabSpec.

Lemma key_at_lookup (l : list Z) i :
  (Z.to_nat i < length l)%nat -> l !! Z.to_nat i = Some (key_at l i).
Proof.
  intros H. unfold key_at.
  destruct (lookup_lt_is_Some_2 l (Z.to_nat i) H) as [x ->]. reflexivity.
Qed.

Lemma key_at_insert (l : list Z) s v x :
  (Z.to_nat s < length l)%nat ->
  key_at (<[Z.to_nat s := v]> l) x =
    if decide (Z.to_nat x = Z.to_nat s) then v else key_at l x.
Proof.
  intros H. unfold key_at. destruct (decide (Z.to_nat x = Z.to_nat s)) as [E | E].
  - rewrite E, list_lookup_insert_eq by exact H. reflexivity.
  - rewrite list_lookup_insert_ne by congruence. reflexivity.
Qed.

Lemma val_at_insert (l : list (option Finalizer)) s v x :
  (Z.to_nat s < length l)%nat ->
  val_at (<[Z.to_nat s := v]> l) x =
    if decide (Z.to_nat x = Z.to_nat s) then v else val_at l x.
Proof.
  intros H. unfold val_at. destruct (decide (Z.to_nat x = Z.to_nat s)) as [E | E].
  - rewrite E, list_lookup_insert_eq by exact H. reflexivity.
  - rewrite list_lookup_insert_ne by congruence. reflexivity.
Qed.

Lemma count_bounds f l : 0 <= count f l <= Z.of_nat (length l).
Proof.
  induction l as [| x l IH]; simpl; [lia |]. destruct (f x); lia.
Qed.

Lemma count_insert f : forall (l : list Z) n old v,
  l !! n = Some old ->
  count f (<[n := v]> l) =
    count f l - (if f old then 1 else 0) + (if f v then 1 else 0).
Proof.
  induction l as [| x l IH]; intros n old v E; [discriminate |].
  destruct n as [| n]; simpl in *.
  - inversion E; subst. lia.
  - rewrite (IH n old v E). lia.
Qed.

Lemma count_replicate_nil f n : f nil = false -> count f (replicate n nil) = 0.
Proof.
  intros H. induction n as [| n IH]; simpl; [reflexivity |].
  rewrite H, IH. reflexivity.
Qed.

(** Fewer non-nil keys than slots: some slot was never used. *)
Lemma count_nonnil_free : forall (l : list Z),
  count nonnil l < Z.of_nat (length l) ->
  exists x, 0 <= x < Z.of_nat (length l) /\ key_at l x = nil.
Proof.
  induction l as [| a l IH]; simpl; intros H; [lia |].
  unfold nonnil at 1 in H. destruct (Z.eqb_spec a nil) as [E | E]; simpl in H.
  - exists 0. split; [lia |]. unfold key_at. simpl. exact E.
  - destruct IH as (x & Hx & Kx); [lia |].
    exists (x + 1). split; [lia |]. unfold key_at in *.
    replace (Z.to_nat (x + 1)) with (S (Z.to_nat x)) by lia. exact Kx.
Qed.

Lemma live_stop_add k : live k -> stop_add k = false.
Proof.
  intros [H1 H2]. unfold stop_add.
  destruct (Z.eqb_spec k nil); [contradiction |].
  destruct (Z.eqb_spec k DEAD); [contradiction | reflexivity].
Qed.

Lemma stop_add_live k : stop_add k = false -> live k.
Proof.
  unfold stop_add. destruct (Z.eqb_spec k nil); [discriminate |].
  destruct (Z.eqb_spec k DEAD); [discriminate |]. intros _. split; assumption.
Qed.

Lemma dead_not_nil : DEAD <> nil.
Proof. unfold DEAD, nil. lia. Qed.

(** The slots of a well-formed table with fewer than [max] non-nil keys. *)
Lemma wf_free t :
  wf t -> nkey t < max t ->
  exists x, 0 <= x < max t /\ key_at (key t) x = nil.
Proof.
  intros W H. destruct W. destruct (count_nonnil_free (key t)) as (x & Hx & Kx).
  - rewrite <- wf_nkey0, wf_key0. lia.
  - exists x. split; [rewrite wf_key0 in Hx; lia | exact Kx].
Qed.

(** In a well-formed table a live key sits in one slot only. *)
Lemma wf_unique t i j :
  wf t -> 0 <= i < max t -> 0 <= j < max t ->
  live (key_at (key t) i) -> key_at (key t) i = key_at (key t) j -> i = j.
Proof.
  intros W Hi Hj L E.
  pose proof (wf_find t W i Hi L) as Fi.
  rewrite E in L. pose proof (wf_find t W j Hj L) as Fj.
  rewrite <- E in Fj. rewrite Fi in Fj. inversion Fj. reflexivity.
Qed.

(** The lookup loop on a well-formed table with a free slot: it ends at the
    key's slot, or with [Absent] when no slot has the key. *)
Lemma look_scan_spec t k :
  wf t -> nkey t < max t -> live k ->
  (exists i, 0 <= i < max t /\ key_at (key t) i = k /\
     lookfintab_scan (key t) (max t) k (hash (max t) k) (Z.to_nat (max t)) = At i) \/
  ((forall i, 0 <= i < max t -> key_at (key t) i <> k) /\
   lookfintab_scan (key t) (max t) k (hash (max t) k) (Z.to_nat (max t)) = Absent).
Proof.
  intros W Hfree L.
  destruct (wf_free t W Hfree) as (x & Hx & Kx).
  pose proof (wf_max t W) as HM.
  assert (HM' : 0 < max t < 2 ^ 31) by lia.
  destruct (scan_complete (stop_look k) (key t) (max t) (hash (max t) k) x
              HM' (hash_range _ k HM') Hx) as (s & E).
  { unfold stop_look. rewrite Kx. reflexivity. }
  pose proof (scan_stops _ _ _ _ _ _ E) as S.
  pose proof (scan_range _ (key t) (max t) ltac:(lia) _ _ _
                (hash_range _ k HM') E) as R.
  rewrite lookfintab_scan_eq, E.
  unfold stop_look in S.
  destruct (Z.eqb_spec (key_at (key t) s) nil) as [N | N].
  - right. split; [| reflexivity].
    intros i Hi Ki.
    assert (Li : live (key_at (key t) i)) by (rewrite Ki; exact L).
    pose proof (wf_find t W i Hi Li) as F.
    rewrite Ki, lookfintab_scan_eq, E in F.
    destruct (Z.eqb_spec (key_at (key t) s) nil); [discriminate | contradiction].
  - left. exists s. simpl in S. apply Z.eqb_eq in S. auto.
Qed.

End SlotFacts.

Section AddFacts.
Import Mach Mfinal FintabSpec.

(** A read outside the array gives nil; a read inside is the read at the
    index in range with the same list position. *)
Lemma key_at_cases (l : list Z) x :
  key_at l x = nil \/
  exists x', 0 <= x' < Z.of_nat (length l) /\ Z.to_nat x = Z.to_nat x'.
Proof.
  destruct (le_lt_dec (length l) (Z.to_nat x)) as [H | H].
  - left. unfold key_at. rewrite lookup_ge_None_2 by exact H. reflexivity.
  - right. exists (Z.of_nat (Z.to_nat x)). split; lia.
Qed.

Lemma key_at_same (l : list Z) x x' :
  Z.to_nat x = Z.to_nat x' -> key_at l x = key_at l x'.
Proof. intros E. unfold key_at. rewrite E. reflexivity. Qed.

(** Writing a live key [k] that the table does not have into the slot
    where the loop of [addfintab] stopped keeps every key findable. *)
Lemma insert_keeps_find t k s :
  wf t -> 0 < max t -> live k ->
  (forall i, 0 <= i < max t -> key_at (key t) i <> k) ->
  scan stop_add (key t) (max t) (hash (max t) k) (Z.to_nat (max t)) = Some s ->
  forall i, 0 <= i < max t ->
    live (key_at (<[Z.to_nat s := k]> (key t)) i) ->
    lookfintab_scan (<[Z.to_nat s := k]> (key t)) (max t)
      (key_at (<[Z.to_nat s := k]> (key t)) i)
      (hash (max t) (key_at (<[Z.to_nat s := k]> (key t)) i))
      (Z.to_nat (max t)) = At i.
Proof.
  intros W HM L Hnew E i Hi Li.
  pose proof (wf_max t W) as Hmax. pose proof (wf_key t W) as Hlen.
  assert (HM' : 0 < max t < 2 ^ 31) by lia.
  pose proof (scan_stops _ _ _ _ _ _ E) as Ss.
  pose proof (scan_range _ (key t) (max t) ltac:(lia) _ _ _
                (hash_range _ k HM') E) as Rs.
  assert (Hs : (Z.to_nat s < length (key t))%nat) by lia.
  assert (Hother : forall x, key_at (key t) x <> nil -> key_at (key t) x <> k).
  { intros x Hx. destruct (key_at_cases (key t) x) as [N | (x' & Hx' & Ex)];
      [contradiction |].
    rewrite (key_at_same _ _ _ Ex). apply Hnew. lia. }
  rewrite lookfintab_scan_eq.
  rewrite (key_at_insert _ _ _ _ Hs) in *.
  destruct (decide (Z.to_nat i = Z.to_nat s)) as [Eis | Nis].
  - assert (i = s) by lia. subst i.
    rewrite (scan_transfer stop_add (stop_look k) (key t)
               (<[Z.to_nat s := k]> (key t)) (max t) _ _ s E).
    + rewrite (key_at_insert _ _ _ _ Hs).
      destruct (decide (Z.to_nat s = Z.to_nat s)); [| contradiction].
      destruct (Z.eqb_spec k nil); [destruct L; contradiction | reflexivity].
    + intros x Sx. rewrite (key_at_insert _ _ _ _ Hs).
      destruct (decide (Z.to_nat x = Z.to_nat s)) as [Exs | Nxs].
      * rewrite (key_at_same _ _ _ Exs), Ss in Sx. discriminate.
      * apply stop_add_live in Sx. destruct Sx as [Sx1 Sx2].
        unfold stop_look.
        destruct (Z.eqb_spec (key_at (key t) x) nil); [contradiction |].
        destruct (Z.eqb_spec (key_at (key t) x) k) as [Ek | Ek];
          [| reflexivity].
        exfalso. apply (Hother x Sx1 Ek).
    + rewrite (key_at_insert _ _ _ _ Hs).
      destruct (decide (Z.to_nat s = Z.to_nat s)); [| contradiction].
      unfold stop_look. rewrite Z.eqb_refl. apply orb_true_r.
  - set (q := key_at (key t) i) in *.
    pose proof (wf_find t W i Hi Li) as F. fold q in F.
    rewrite lookfintab_scan_eq in F.
    destruct (scan (stop_look q) (key t) (max t) (hash (max t) q)
                (Z.to_nat (max t))) as [s' |] eqn:E'; [| discriminate].
    assert (s' = i).
    { destruct (key_at (key t) s' =? nil); [discriminate |].
      inversion F. reflexivity. }
    subst s'.
    rewrite (scan_transfer (stop_look q) (stop_look q) (key t)
               (<[Z.to_nat s := k]> (key t)) (max t) _ _ i E').
    + rewrite (key_at_insert _ _ _ _ Hs).
      destruct (decide (Z.to_nat i = Z.to_nat s)); [contradiction |].
      fold q. destruct (Z.eqb_spec q nil); [destruct Li; contradiction |].
      reflexivity.
    + intros x Sx. rewrite (key_at_insert _ _ _ _ Hs).
      destruct (decide (Z.to_nat x = Z.to_nat s)) as [Exs | Nxs];
        [| exact Sx].
      unfold stop_look.
      destruct (Z.eqb_spec k nil); [destruct L; contradiction |].
      destruct (Z.eqb_spec k q) as [Ek | Ek]; [| reflexivity].
      exfalso. apply (Hnew i Hi). fold q. congruence.
    + rewrite (key_at_insert _ _ _ _ Hs).
      destruct (decide (Z.to_nat i = Z.to_nat s)); [contradiction |].
      fold q. unfold stop_look. rewrite Z.eqb_refl. apply orb_true_r.
Qed.

End AddFacts.

Section AddTable.
Import Mach Mfinal FintabSpec.

(** [addfintab] on a well-formed table with a free slot, for a live key the
    table does not have: no throw, the table stays well-formed, and it now
    holds the new key next to what it held. *)
Lemma addfintab_ok t k fv :
  wf t -> nkey t < max t -> live k ->
  (forall i, 0 <= i < max t -> key_at (key t) i <> k) ->
  exists t',
    addfintab t k (Some fv) = Ok t' /\ wf t' /\ max t' = max t /\
    nkey t' - ndead t' = nkey t - ndead t + 1 /\
    nkey t <= nkey t' <= nkey t + 1 /\
    (forall q w, holds t' q w <-> (q = k /\ w = fv) \/ holds t q w).
Proof.
  intros W Hfree L Hnew.
  pose proof (wf_max t W) as Hmax. pose proof (wf_key t W) as Hlen.
  pose proof (wf_val t W) as Hlenv.
  pose proof (count_bounds nonnil (key t)) as Bn.
  pose proof (count_bounds dead (key t)) as Bd.
  pose proof (wf_nkey t W) as Hnk. pose proof (wf_ndead t W) as Hnd.
  assert (HM' : 0 < max t < 2 ^ 31) by lia.
  destruct (wf_free t W Hfree) as (x & Hx & Kx).
  destruct (scan_complete stop_add (key t) (max t) (hash (max t) k) x
              HM' (hash_range _ k HM') Hx) as (s & E).
  { unfold stop_add. rewrite Kx. reflexivity. }
  pose proof (scan_stops _ _ _ _ _ _ E) as Ss.
  pose proof (scan_range _ (key t) (max t) ltac:(lia) _ _ _
                (hash_range _ k HM') E) as Rs.
  assert (Hs : (Z.to_nat s < length (key t))%nat) by lia.
  assert (Hsv : (Z.to_nat s < length (val t))%nat) by lia.
  pose proof (insert_keeps_find t k s W ltac:(lia) L Hnew E) as Find.
  pose proof (key_at_lookup (key t) s Hs) as Old.
  assert (Hk1 : nonnil k = true).
  { unfold nonnil. destruct (Z.eqb_spec k nil); [destruct L; contradiction |].
    reflexivity. }
  assert (Hk2 : dead k = false).
  { unfold dead. destruct (Z.eqb_spec k DEAD); [destruct L; contradiction |].
    reflexivity. }
  assert (Some' : forall i, 0 <= i < max t ->
            live (key_at (<[Z.to_nat s := k]> (key t)) i) ->
            is_Some (val_at (<[Z.to_nat s := Some fv]> (val t)) i)).
  { intros i Hi Li. rewrite (key_at_insert _ _ _ _ Hs) in Li.
    rewrite (val_at_insert _ _ _ _ Hsv).
    destruct (decide (Z.to_nat i = Z.to_nat s)); [eexists; reflexivity |].
    apply (wf_some t W i Hi Li). }
  assert (Holds' : forall q w,
            (live q /\ exists i, 0 <= i < max t /\
               key_at (<[Z.to_nat s := k]> (key t)) i = q /\
               val_at (<[Z.to_nat s := Some fv]> (val t)) i = Some w)
            <-> (q = k /\ w = fv) \/ holds t q w).
  { intros q w. split.
    - intros (Lq & i & Hi & Ki & Vi).
      rewrite (key_at_insert _ _ _ _ Hs) in Ki.
      rewrite (val_at_insert _ _ _ _ Hsv) in Vi.
      destruct (decide (Z.to_nat i = Z.to_nat s)).
      + left. split; congruence.
      + right. split; [exact Lq |]. exists i. auto.
    - intros [[-> ->] | (Lq & i & Hi & Ki & Vi)].
      + split; [exact L |]. exists s.
        rewrite (key_at_insert _ _ _ _ Hs), (val_at_insert _ _ _ _ Hsv).
        destruct (decide (Z.to_nat s = Z.to_nat s)); [| contradiction]. auto.
      + split; [exact Lq |]. exists i.
        rewrite (key_at_insert _ _ _ _ Hs), (val_at_insert _ _ _ _ Hsv).
        destruct (decide (Z.to_nat i = Z.to_nat s)) as [Eis | Nis]; [| auto].
        exfalso. rewrite <- (key_at_same _ _ _ Eis), Ki in Ss.
        rewrite (live_stop_add q Lq) in Ss. discriminate. }
  unfold addfintab, uintptr. rewrite (Z.mod_small (max t)) by lia.
  destruct (Z.eqb_spec (max t) 0); [lia |].
  rewrite addfintab_scan_eq, E.
  unfold stop_add in Ss.
  destruct (Z.eqb_spec (key_at (key t) s) nil) as [N | N].
  - eexists. split; [reflexivity |].
    cbn [key val nkey ndead max].
    assert (Cn : count nonnil (<[Z.to_nat s := k]> (key t)) = nkey t + 1).
    { rewrite (count_insert _ _ _ _ _ Old), N, Hk1, Hnk. unfold nonnil, nil.
      simpl. lia. }
    assert (Cd : count dead (<[Z.to_nat s := k]> (key t)) = ndead t).
    { rewrite (count_insert _ _ _ _ _ Old), N, Hk2, Hnd. unfold dead, nil, DEAD.
      simpl. lia. }
    rewrite int32_small by lia.
    split; [| split; [reflexivity | split; [lia | split; [lia | exact Holds']]]].
    constructor; cbn [key val nkey ndead max]; try assumption.
    + rewrite length_insert. exact Hlen.
    + rewrite length_insert. exact Hlenv.
    + symmetry. exact Cn.
    + symmetry. exact Cd.
  - simpl in Ss. apply Z.eqb_eq in Ss.
    eexists. split; [reflexivity |].
    cbn [key val nkey ndead max].
    assert (Cn : count nonnil (<[Z.to_nat s := k]> (key t)) = nkey t).
    { rewrite (count_insert _ _ _ _ _ Old), Ss, Hk1, Hnk. unfold nonnil, nil, DEAD.
      simpl. lia. }
    assert (Cd : count dead (<[Z.to_nat s := k]> (key t)) = ndead t - 1).
    { rewrite (count_insert _ _ _ _ _ Old), Ss, Hk2, Hnd. unfold dead.
      rewrite Z.eqb_refl. lia. }
    pose proof (count_bounds dead (<[Z.to_nat s := k]> (key t))) as Bd'.
    rewrite int32_small by lia.
    split; [| split; [reflexivity | split; [lia | split; [lia | exact Holds']]]].
    constructor; cbn [key val nkey ndead max]; try assumption.
    + rewrite length_insert. exact Hlen.
    + rewrite length_insert. exact Hlenv.
    + symmetry. exact Cn.
    + symmetry. exact Cd.
Qed.

End AddTable.

Section LookTable.
Import Mach Mfinal FintabSpec.

Lemma holds_unique t k v w : wf t -> holds t k v -> holds t k w -> v = w.
Proof.
  intros W (L & i & Hi & Ki & Vi) (_ & j & Hj & Kj & Vj).
  assert (i = j).
  { apply (wf_unique t i j W Hi Hj); [rewrite Ki; exact L | congruence]. }
  subst j. congruence.
Qed.

(** [lookfintab] without [del]: no throw, the table is left as it is, and
    the answer is the finalizer the table holds for the key, if any. *)
Lemma lookfintab_get t k :
  wf t -> max t = 0 \/ nkey t < max t -> live k ->
  exists r, lookfintab t k false = Ok (r, t) /\
            (forall v, r = Some v <-> holds t k v).
Proof.
  intros W Hfree L. unfold lookfintab.
  destruct (Z.eqb_spec (max t) 0) as [E0 | N0].
  - exists None. split; [reflexivity |]. intros v. split; [discriminate |].
    intros (_ & i & Hi & _). lia.
  - destruct Hfree as [? | Hfree]; [contradiction |].
    destruct (look_scan_spec t k W Hfree L) as [(i & Hi & Ki & ->) | (Hno & ->)].
    + exists (val_at (val t) i). split; [reflexivity |]. intros v. split.
      * intros Vi. split; [exact L |]. exists i. auto.
      * intros H. assert (Li : live (key_at (key t) i)) by (rewrite Ki; exact L).
        destruct (wf_some t W i Hi Li) as [w Vi]. rewrite Vi. f_equal.
        apply (holds_unique t k w v W); [| exact H].
        split; [exact L |]. exists i. auto.
    + exists None. split; [reflexivity |]. intros v. split; [discriminate |].
      intros (_ & i & Hi & Ki & _). exfalso. apply (Hno i Hi Ki).
Qed.

(** [lookfintab] with [del]: no throw; the key's slot, if there is one,
    becomes a dead slot, every other key stays where the loop finds it. *)
Lemma lookfintab_del t k :
  wf t -> max t = 0 \/ nkey t < max t -> live k ->
  exists r t',
    lookfintab t k true = Ok (r, t') /\ wf t' /\ max t' = max t /\
    nkey t' = nkey t /\ ndead t <= ndead t' /\
    (forall v, r = Some v <-> holds t k v) /\
    (forall q w, holds t' q w <-> q <> k /\ holds t q w).
Proof.
  intros W Hfree L.
  destruct (lookfintab_get t k W Hfree L) as (r0 & G & Hr0).
  unfold lookfintab in *.
  destruct (Z.eqb_spec (max t) 0) as [E0 | N0].
  - exists None, t. inversion G; subst r0.
    split; [reflexivity |].
    split; [exact W | split; [reflexivity | split; [reflexivity | split;
      [lia | split; [exact Hr0 |]]]]].
    intros q w. split; [| tauto]. intros H. split; [| exact H].
    destruct H as (_ & i & Hi & _). lia.
  - destruct Hfree as [? | Hfree]; [contradiction |].
    destruct (look_scan_spec t k W Hfree L) as [(s & Hs & Ks & E) | (Hno & E)];
      rewrite E in *.
    + inversion G; subst r0. clear G.
      pose proof (wf_max t W) as Hmax. pose proof (wf_key t W) as Hlen.
      pose proof (wf_val t W) as Hlenv.
      assert (Hsl : (Z.to_nat s < length (key t))%nat) by lia.
      assert (Hsv : (Z.to_nat s < length (val t))%nat) by lia.
      pose proof (key_at_lookup (key t) s Hsl) as Old. rewrite Ks in Old.
      assert (Hk1 : nonnil k = true).
      { unfold nonnil. destruct (Z.eqb_spec k nil); [destruct L; contradiction |].
        reflexivity. }
      assert (Hk2 : dead k = false).
      { unfold dead. destruct (Z.eqb_spec k DEAD); [destruct L; contradiction |].
        reflexivity. }
      assert (Cn : count nonnil (<[Z.to_nat s := DEAD]> (key t)) = nkey t).
      { rewrite (count_insert _ _ _ _ _ Old), Hk1, (wf_nkey t W).
        unfold nonnil, nil, DEAD. simpl. lia. }
      assert (Cd : count dead (<[Z.to_nat s := DEAD]> (key t)) = ndead t + 1).
      { rewrite (count_insert _ _ _ _ _ Old), Hk2, (wf_ndead t W).
        unfold dead. rewrite Z.eqb_refl. lia. }
      pose proof (count_bounds dead (<[Z.to_nat s := DEAD]> (key t))) as Bd'.
      rewrite length_insert in Bd'.
      eexists _, _. split; [reflexivity |]. cbn [key val nkey ndead max].
      rewrite int32_small by lia.
      split; [| split; [reflexivity | split; [reflexivity | split; [lia |
        split; [exact Hr0 |]]]]].
      * constructor; cbn [key val nkey ndead max].
        -- exact Hmax.
        -- rewrite length_insert. exact Hlen.
        -- rewrite length_insert. exact Hlenv.
        -- symmetry. exact Cn.
        -- symmetry. exact Cd.
        -- intros i Hi Li. rewrite (key_at_insert _ _ _ _ Hsl) in *.
           destruct (decide (Z.to_nat i = Z.to_nat s)) as [Eis | Nis].
           { destruct Li as [_ Li]. contradiction. }
           set (q := key_at (key t) i) in *.
           pose proof (wf_find t W i Hi Li) as F. fold q in F.
           rewrite lookfintab_scan_eq in F |- *.
           destruct (scan (stop_look q) (key t) (max t) (hash (max t) q)
                       (Z.to_nat (max t))) as [s' |] eqn:E'; [| discriminate].
           assert (s' = i).
           { destruct (key_at (key t) s' =? nil); [discriminate |].
             inversion F. reflexivity. }
           subst s'.
           rewrite (scan_transfer (stop_look q) (stop_look q) (key t)
                      (<[Z.to_nat s := DEAD]> (key t)) (max t) _ _ i E').
           ++ rewrite (key_at_insert _ _ _ _ Hsl).
              destruct (decide (Z.to_nat i = Z.to_nat s)); [contradiction |].
              fold q. destruct (Z.eqb_spec q nil); [destruct Li; contradiction |].
              reflexivity.
           ++ intros x Sx. rewrite (key_at_insert _ _ _ _ Hsl).
              destruct (decide (Z.to_nat x = Z.to_nat s)); [| exact Sx].
              unfold stop_look.
              destruct (Z.eqb_spec DEAD nil) as [D | _];
                [exfalso; apply dead_not_nil; exact D |].
              destruct (Z.eqb_spec DEAD q) as [D | _]; [| reflexivity].
              destruct Li as [_ Li]. congruence.
           ++ rewrite (key_at_insert _ _ _ _ Hsl).
              destruct (decide (Z.to_nat i = Z.to_nat s)); [contradiction |].
              fold q. unfold stop_look. rewrite Z.eqb_refl. apply orb_true_r.
        -- intros i Hi Li. rewrite (key_at_insert _ _ _ _ Hsl) in Li.
           rewrite (val_at_insert _ _ _ _ Hsv).
           destruct (decide (Z.to_nat i = Z.to_nat s)).
           { destruct Li as [_ Li]. contradiction. }
           apply (wf_some t W i Hi Li).
      * intros q w. unfold holds. cbn [key val max]. split.
        -- intros (Lq & i & Hi & Ki & Vi).
           rewrite (key_at_insert _ _ _ _ Hsl) in Ki.
           rewrite (val_at_insert _ _ _ _ Hsv) in Vi.
           destruct (decide (Z.to_nat i = Z.to_nat s)); [discriminate |].
           split.
           ++ intros ->. assert (i = s); [| subst; contradiction].
              apply (wf_unique t i s W Hi Hs); [rewrite Ki; exact L | congruence].
           ++ split; [exact Lq |]. exists i. auto.
        -- intros (Nq & Lq & i & Hi & Ki & Vi).
           split; [exact Lq |]. exists i.
           rewrite (key_at_insert _ _ _ _ Hsl), (val_at_insert _ _ _ _ Hsv).
           destruct (decide (Z.to_nat i = Z.to_nat s)) as [Eis | Nis]; [| auto].
           exfalso. apply Nq. rewrite <- Ki, <- Ks. apply key_at_same. exact Eis.
    + inversion G; subst r0. clear G.
      exists None, t. split; [reflexivity |].
      split; [exact W | split; [reflexivity | split; [reflexivity | split;
        [lia | split; [exact Hr0 |]]]]].
      intros q w. split; [| tauto]. intros H. split; [| exact H].
      intros ->. destruct H as (_ & i & Hi & Ki & _). apply (Hno i Hi Ki).
Qed.

End LookTable.

Section RehashFacts.
Import Mach Mfinal FintabSpec.

Lemma count_app f l1 l2 : count f (l1 ++ l2) = count f l1 + count f l2.
Proof. induction l1 as [| x l1 IH]; simpl; [reflexivity |]. rewrite IH. lia. Qed.

Lemma count_take_le f n l : count f (take n l) <= count f l.
Proof.
  rewrite <- (take_drop n l) at 2. rewrite count_app.
  pose proof (count_bounds f (drop n l)). lia.
Qed.

(** The non-nil keys are the dead ones and the live ones. *)
Lemma count_live l : count nonnil l = count dead l + count liveb l.
Proof.
  induction l as [| x l IH]; simpl; [reflexivity |].
  unfold nonnil at 1, dead at 1, liveb at 1.
  destruct (Z.eqb_spec x nil) as [E | E]; simpl.
  - destruct (Z.eqb_spec x DEAD) as [D | D]; [| lia].
    exfalso. apply dead_not_nil. congruence.
  - destruct (Z.eqb_spec x DEAD); simpl; lia.
Qed.

Lemma liveb_live x : liveb x = true <-> live x.
Proof.
  unfold liveb, live.
  destruct (Z.eqb_spec x nil); destruct (Z.eqb_spec x DEAD); simpl;
    split; intros H; try discriminate; try tauto.
Qed.

Lemma key_at_replicate n i : key_at (replicate n nil) i = nil.
Proof.
  unfold key_at. destruct (replicate n nil !! Z.to_nat i) as [x |] eqn:E;
    [| reflexivity].
  apply lookup_replicate in E. destruct E as [-> _]. reflexivity.
Qed.

(** The cleared table the rehash starts from. *)
Lemma cleared_wf m :
  0 <= m < 2 ^ 31 ->
  wf {| key := replicate (Z.to_nat m) nil; val := replicate (Z.to_nat m) None;
        nkey := 0; ndead := 0; max := m |}.
Proof.
  intros Hm. constructor; cbn [key val nkey ndead max].
  - exact Hm.
  - apply length_replicate.
  - apply length_replicate.
  - symmetry. apply count_replicate_nil. reflexivity.
  - symmetry. apply count_replicate_nil. reflexivity.
  - intros i _ [L _]. rewrite key_at_replicate in L. contradiction.
  - intros i _ [L _]. rewrite key_at_replicate in L. contradiction.
Qed.

(** The loop of the rehash after [n] turns: the new table is well-formed,
    has no dead slot, and holds the live keys of the first [n] old slots
    with their finalizers. *)
Lemma rehash_loop t m :
  wf t -> 0 < m < 2 ^ 31 -> count liveb (key t) < m ->
  forall n, (n <= Z.to_nat (max t))%nat ->
  exists nt,
    foldl (rehash_step t)
      (Ok {| key := replicate (Z.to_nat m) nil;
             val := replicate (Z.to_nat m) None;
             nkey := 0; ndead := 0; max := m |})
      (seqZ 0 (Z.of_nat n)) = Ok nt /\
    wf nt /\ max nt = m /\ ndead nt = 0 /\
    nkey nt = count liveb (take n (key t)) /\
    (forall q w, holds nt q w <->
       live q /\ exists j, 0 <= j < Z.of_nat n /\
                  key_at (key t) j = q /\ val_at (val t) j = Some w).
Proof.
  intros W Hm Hroom. induction n as [| n IH]; intros Hn.
  - eexists. split; [reflexivity |].
    split; [apply cleared_wf; lia |]. cbn [max ndead nkey].
    split; [reflexivity |]. split; [reflexivity |]. split; [reflexivity |].
    intros q w. split.
    + intros (L & i & _ & Ki & _). cbn [key] in Ki.
      rewrite key_at_replicate in Ki. destruct L. congruence.
    + intros (_ & j & Hj & _). lia.
  - destruct (IH ltac:(lia)) as (nt & E & Wn & Mn & Dn & Nn & Hn').
    rewrite seqZ_S, foldl_app, E. cbn [foldl rehash_step]. rewrite Z.add_0_l.
    pose proof (wf_max t W) as Hmax. pose proof (wf_key t W) as Hlen.
    assert (Hi : 0 <= Z.of_nat n < max t) by lia.
    assert (Hl : (Z.to_nat (Z.of_nat n) < length (key t))%nat) by lia.
    pose proof (key_at_lookup (key t) (Z.of_nat n) Hl) as Kn.
    rewrite Nat2Z.id in Kn.
    assert (Tk : count liveb (take (S n) (key t)) =
                 count liveb (take n (key t)) +
                 (if liveb (key_at (key t) (Z.of_nat n)) then 1 else 0)).
    { rewrite (take_S_r _ _ _ Kn), count_app. simpl. lia. }
    fold (liveb (key_at (key t) (Z.of_nat n))).
    destruct (liveb (key_at (key t) (Z.of_nat n))) eqn:Lb.
    + apply liveb_live in Lb.
      destruct (wf_some t W _ Hi Lb) as [fv Vn].
      pose proof (count_take_le liveb (S n) (key t)) as Le.
      destruct (addfintab_ok nt (key_at (key t) (Z.of_nat n)) fv Wn
                  ltac:(lia) Lb) as (nt' & A & Wn' & Mn' & Cn' & Bn' & Hn'').
      { intros x Hx Kx.
        assert (Lx : live (key_at (key nt) x)) by (rewrite Kx; exact Lb).
        destruct (wf_some nt Wn x Hx Lx) as [w Vx].
        assert (H : holds nt (key_at (key t) (Z.of_nat n)) w).
        { split; [exact Lb |]. exists x. auto. }
        apply Hn' in H. destruct H as (_ & j & Hj & Kj & _).
        assert (j = Z.of_nat n); [| lia].
        apply (wf_unique t j (Z.of_nat n) W ltac:(lia) Hi);
          [rewrite Kj; exact Lb | exact Kj]. }
      rewrite Vn, A. exists nt'. split; [reflexivity |].
      pose proof (count_bounds dead (key nt')) as Bd.
      rewrite <- (wf_ndead nt' Wn') in Bd.
      split; [exact Wn' |]. split; [congruence |]. split; [lia |].
      split; [lia |].
      intros q w. rewrite Hn'', Hn'. split.
      * intros [[-> ->] | (Lq & j & Hj & Kj & Vj)].
        -- split; [exact Lb |]. exists (Z.of_nat n). split; [lia | auto].
        -- split; [exact Lq |]. exists j. split; [lia | auto].
      * intros (Lq & j & Hj & Kj & Vj).
        destruct (Z.eq_dec j (Z.of_nat n)) as [-> | Nj].
        -- left. split; congruence.
        -- right. split; [exact Lq |]. exists j. split; [lia | auto].
    + exists nt. split; [reflexivity |].
      split; [exact Wn |]. split; [exact Mn |]. split; [exact Dn |].
      split; [lia |].
      intros q w. rewrite Hn'. split.
      * intros (Lq & j & Hj & Kj & Vj).
        split; [exact Lq |]. exists j. split; [lia | auto].
      * intros (Lq & j & Hj & Kj & Vj).
        destruct (Z.eq_dec j (Z.of_nat n)) as [-> | Nj].
        -- apply liveb_live in Lq. congruence.
        -- split; [exact Lq |]. exists j. split; [lia | auto].
Qed.

(** The rehash: no throw, a well-formed table of the new size without
    dead slots that holds what the old one held. *)
Lemma rehash_ok t :
  wf t -> 0 < newmax t < 2 ^ 31 -> nkey t - ndead t < newmax t ->
  exists nt,
    rehash t = Ok nt /\ wf nt /\ max nt = newmax t /\ ndead nt = 0 /\
    nkey nt = nkey t - ndead t /\
    (forall q w, holds nt q w <-> holds t q w).
Proof.
  intros W Hm Hroom.
  pose proof (wf_max t W) as Hmax. pose proof (wf_key t W) as Hlen.
  pose proof (count_live (key t)) as CL.
  rewrite <- (wf_nkey t W), <- (wf_ndead t W) in CL.
  destruct (rehash_loop t (newmax t) W Hm ltac:(lia) (Z.to_nat (max t))
              ltac:(lia)) as (nt & E & Wn & Mn & Dn & Nn & Hn).
  rewrite Z2Nat.id in E by lia.
  exists nt. split; [exact E |]. split; [exact Wn |]. split; [exact Mn |].
  split; [exact Dn |]. split.
  - rewrite Nn, take_ge by lia. lia.
  - intros q w. rewrite Hn. unfold holds.
    rewrite Z2Nat.id by lia. reflexivity.
Qed.

End RehashFacts.

Section AddFinalizer.
Import Mach Mfinal FintabSpec.

Variable mlookup : Z -> option Z.

Lemma threshold_div M : 0 <= M -> threshold M = M / 2 + M / 4.
Proof.
  intros H. unfold threshold. rewrite !Z.quot_div_nonneg by lia. reflexivity.
Qed.

(** An [inv] table has a free slot unless it is empty. *)
Lemma inv_room t : inv t -> max t = 0 \/ nkey t < max t.
Proof.
  intros (W & [Z0 | Big] & Cap); [left; exact Z0 | right].
  rewrite threshold_div in Cap by lia.
  pose proof (Z.div_mod (max t) 2 ltac:(lia)).
  pose proof (Z.mod_pos_bound (max t) 2 ltac:(lia)).
  pose proof (Z.div_mod (max t) 4 ltac:(lia)).
  pose proof (Z.mod_pos_bound (max t) 4 ltac:(lia)).
  lia.
Qed.

(** The size of the new table, and the room in it, when the old table is
    due for a rehash. *)
Lemma newmax_room t :
  inv t -> 3 * max t < 2 ^ 31 -> crowded t = true ->
  0 < newmax t < 2 ^ 31 /\ 27 <= newmax t /\
  nkey t - ndead t < newmax t /\
  nkey t - ndead t + 1 <= threshold (newmax t) /\
  (newmax t = 27 /\ max t = 0 \/
   newmax t = 3 * max t /\ 0 < max t /\ ndead t < Z.quot (nkey t) 2 \/
   newmax t = max t /\ 0 < max t /\ Z.quot (nkey t) 2 <= ndead t).
Proof.
  intros (W & Size & Cap) Fit Cr.
  pose proof (wf_max t W) as Hmax.
  pose proof (count_live (key t)) as CL.
  rewrite <- (wf_nkey t W), <- (wf_ndead t W) in CL.
  pose proof (count_bounds liveb (key t)) as BL.
  pose proof (count_bounds dead (key t)) as BD.
  rewrite <- (wf_ndead t W) in BD.
  unfold crowded in Cr. apply Z.leb_le in Cr. fold (threshold (max t)) in Cr.
  unfold newmax.
  destruct (Z.eqb_spec (max t) 0) as [E0 | N0].
  - rewrite (wf_key t W), E0 in BL. simpl in BL.
    assert (nkey t - ndead t = 0) by lia.
    change (3 * 3 * 3) with 27. rewrite threshold_div by lia.
    change (27 / 2 + 27 / 4) with 19. lia.
  - destruct Size as [? | Big]; [contradiction |].
    rewrite threshold_div in Cap, Cr by lia.
    pose proof (Z.div_mod (max t) 2 ltac:(lia)).
    pose proof (Z.mod_pos_bound (max t) 2 ltac:(lia)).
    pose proof (Z.div_mod (max t) 4 ltac:(lia)).
    pose proof (Z.mod_pos_bound (max t) 4 ltac:(lia)).
    assert (Q : Z.quot (nkey t) 2 = nkey t / 2)
      by (apply Z.quot_div_nonneg; lia).
    pose proof (Z.div_mod (nkey t) 2 ltac:(lia)).
    pose proof (Z.mod_pos_bound (nkey t) 2 ltac:(lia)).
    destruct (Z.ltb_spec (ndead t) (Z.quot (nkey t) 2)) as [Few | Many].
    + rewrite int32_small by lia.
      rewrite threshold_div by lia.
      pose proof (Z.div_mod (max t * 3) 2 ltac:(lia)).
      pose proof (Z.mod_pos_bound (max t * 3) 2 ltac:(lia)).
      pose proof (Z.div_mod (max t * 3) 4 ltac:(lia)).
      pose proof (Z.mod_pos_bound (max t * 3) 4 ltac:(lia)).
      lia.
    + rewrite threshold_div by lia. lia.
Qed.

(** A key the table holds no finalizer for is in none of its slots. *)
Lemma no_slot t k :
  wf t -> live k -> (forall v, ~ holds t k v) ->
  forall i, 0 <= i < max t -> key_at (key t) i <> k.
Proof.
  intros W L Hno i Hi Ki.
  assert (Li : live (key_at (key t) i)) by (rewrite Ki; exact L).
  destruct (wf_some t W i Hi Li) as [w Vi].
  apply (Hno w). split; [exact L |]. exists i. auto.
Qed.

(** [addfinalizer] with a finalizer, on the base pointer of a heap block:
    either the table holds a finalizer for the pointer already and the call
    throws "double finalizer", or the call returns, the table is again at
    most 3/4 full and holds the new finalizer next to the old ones. *)
Lemma addfinalizer_step st p f nret :
  inv (fintab st) -> 3 * max (fintab st) < 2 ^ 31 ->
  heap_base mlookup p = true -> live p -> f <> 0 ->
  (exists v, holds (fintab st) p v /\
     addfinalizer mlookup st p f nret = (st, Throw "double finalizer")) \/
  ((forall v, ~ holds (fintab st) p v) /\
   exists t',
     addfinalizer mlookup st p f nret =
       ({| fintab := t'; special := {[ p ]} ∪ special st |}, Ok tt) /\
     inv t' /\ nkey t' <= nkey (fintab st) + 1 /\
     max t' = (if crowded (fintab st) then newmax (fintab st)
               else max (fintab st)) /\
     (forall q w, holds t' q w <->
        (q = p /\ w = {| fn := f; nret := nret |}) \/ holds (fintab st) q w)).
Proof.
  intros I Fit Hb L Hf. set (t := fintab st) in *.
  pose proof I as (W & Size & Cap).
  destruct (lookfintab_get t p W (inv_room t I) L) as (r & G & Hr).
  unfold addfinalizer. rewrite Hb. cbn [negb].
  destruct (Z.eqb_spec f 0); [contradiction |]. fold t. rewrite G.
  destruct r as [v |].
  - left. exists v. split; [apply Hr; reflexivity | reflexivity].
  - right.
    assert (Hno : forall v, ~ holds t p v).
    { intros v H. apply Hr in H. discriminate. }
    split; [exact Hno |].
    destruct (crowded t) eqn:Cr.
    + destruct (newmax_room t I Fit Cr) as (Hm & Hbig & Hroom & Hcap & _).
      destruct (rehash_ok t W Hm Hroom) as (nt & R & Wn & Mn & Dn & Nn & Hn).
      rewrite R.
      destruct (addfintab_ok nt p {| fn := f; nret := nret |} Wn
                  ltac:(lia) L) as (t' & A & W' & M' & C' & B' & H').
      { apply (no_slot nt p Wn L). intros v H. apply Hn in H.
        apply (Hno v H). }
      pose proof (count_bounds dead (key t)) as BD.
      rewrite <- (wf_ndead t W) in BD.
      rewrite A. exists t'. split; [reflexivity |]. split.
      * split; [exact W' |]. split; [right; lia |]. rewrite M', Mn. lia.
      * split; [lia |].
        split; [congruence |]. intros q w. rewrite H', Hn. reflexivity.
    + unfold crowded in Cr. apply Z.leb_gt in Cr.
      fold (threshold (max t)) in Cr.
      pose proof (count_bounds nonnil (key t)) as Bn.
      rewrite <- (wf_nkey t W) in Bn.
      assert (Big : 27 <= max t).
      { destruct Size as [E0 | Big]; [| exact Big].
        rewrite E0 in Cr. change (threshold 0) with 0 in Cr. lia. }
      destruct (inv_room t I) as [E0 | Room]; [lia |].
      destruct (addfintab_ok t p {| fn := f; nret := nret |} W Room L
                  (no_slot t p W L Hno)) as (t' & A & W' & M' & C' & B' & H').
      rewrite A. exists t'. split; [reflexivity |]. split.
      * split; [exact W' |]. split; [right; lia |]. rewrite M'. lia.
      * split; [lia |]. split; [exact M' | exact H'].
Qed.

End AddFinalizer.

Section FinalizerCalls.
Import Mach Mfinal FintabSpec.

Variable mlookup : Z -> option Z.

(** The allocator hands out neither the nil pointer nor the address
    [(void* )-1] as the base of a block. *)
Hypothesis heap_live : forall p, heap_base mlookup p = true -> live p.

Lemma inv_fintab0 : inv fintab0.
Proof.
  split; [| split; [left; reflexivity | change (0 <= 0); lia]].
  constructor; simpl; try reflexivity; try lia; intros i Hi; lia.
Qed.

(** [lookfintab] on a table that is at most 3/4 full. *)
Lemma lookfintab_inv t k del :
  inv t -> live k ->
  exists r t',
    lookfintab t k del = Ok (r, t') /\ inv t' /\ max t' = max t /\
    nkey t' = nkey t /\
    (forall v, r = Some v <-> holds t k v) /\
    (forall q w, holds t' q w <-> (del = true -> q <> k) /\ holds t q w).
Proof.
  intros I L. pose proof I as (W & Size & Cap). destruct del.
  - destruct (lookfintab_del t k W (inv_room t I) L)
      as (r & t' & E & W' & M' & N' & _ & Hr & Hh).
    exists r, t'. split; [exact E |]. split.
    { split; [exact W' |]. rewrite M', N'. split; assumption. }
    split; [exact M' |]. split; [exact N' |]. split; [exact Hr |].
    intros q w. rewrite Hh. tauto.
  - destruct (lookfintab_get t k W (inv_room t I) L) as (r & E & Hr).
    exists r, t. split; [exact E |]. split; [exact I |].
    split; [reflexivity |]. split; [reflexivity |]. split; [exact Hr |].
    intros q w. split; [intros H; split; [discriminate | exact H] | tauto].
Qed.

Lemma getfinalizer_inv st p del :
  inv (fintab st) -> live p ->
  exists r st',
    getfinalizer st p del = (st', Ok r) /\ inv (fintab st') /\
    max (fintab st') = max (fintab st) /\ nkey (fintab st') = nkey (fintab st) /\
    (forall v, r = Some v <-> holds (fintab st) p v) /\
    (forall q w, holds (fintab st') q w <->
       (del = true -> q <> p) /\ holds (fintab st) q w).
Proof.
  intros I L.
  destruct (lookfintab_inv (fintab st) p del I L) as (r & t' & E & H).
  unfold getfinalizer. rewrite E. eexists r, _. split; [reflexivity |].
  exact H.
Qed.

(** Removing with [addfinalizer(p, nil, _)]. *)
Lemma addfinalizer_nil st p nret :
  inv (fintab st) -> heap_base mlookup p = true ->
  exists st',
    addfinalizer mlookup st p 0 nret = (st', Ok tt) /\ inv (fintab st') /\
    max (fintab st') = max (fintab st) /\ nkey (fintab st') = nkey (fintab st) /\
    (forall q w, holds (fintab st') q w <-> q <> p /\ holds (fintab st) q w).
Proof.
  intros I Hb.
  destruct (lookfintab_inv (fintab st) p true I (heap_live p Hb))
    as (r & t' & E & I' & M' & N' & _ & Hh).
  unfold addfinalizer. rewrite Hb, E. cbn [negb Z.eqb].
  eexists. split; [reflexivity |]. cbn [fintab].
  split; [exact I' |]. split; [exact M' |]. split; [exact N' |].
  intros q w. rewrite Hh. tauto.
Qed.

(** C3: with a finalizer to install, [runtime·addfinalizer] throws
    "addfinalizer on invalid pointer" when [p] is not the base address of a
    heap block, and "double finalizer" when the table holds a finalizer for
    [p] already, in particular right after a first successful call for [p];
    each time the table, and the rest of the state, is as it was before the
    call. *)
Theorem addfinalizer_fatal_errors (st : fstate) (p f nret : Z) (Hf : f <> 0) :
  (heap_base mlookup p = false ->
   addfinalizer mlookup st p f nret =
     (st, Throw "addfinalizer on invalid pointer")) /\
  (forall v, inv (fintab st) -> heap_base mlookup p = true ->
     holds (fintab st) p v ->
     addfinalizer mlookup st p f nret = (st, Throw "double finalizer")) /\
  (forall st1 f' nret', inv (fintab st) -> 3 * max (fintab st) < 2 ^ 31 ->
     addfinalizer mlookup st p f nret = (st1, Ok tt) -> f' <> 0 ->
     addfinalizer mlookup st1 p f' nret' = (st1, Throw "double finalizer")).
Proof.
  assert (Double : forall s v f0 n0, f0 <> 0 -> inv (fintab s) ->
            heap_base mlookup p = true -> holds (fintab s) p v ->
            addfinalizer mlookup s p f0 n0 = (s, Throw "double finalizer")).
  { intros s v f0 n0 Hf0 I Hb H. pose proof I as (W & _).
    destruct (lookfintab_get (fintab s) p W (inv_room _ I) (heap_live p Hb))
      as (r & E & Hr).
    unfold addfinalizer. rewrite Hb, E. cbn [negb].
    destruct (Z.eqb_spec f0 0); [contradiction |].
    apply Hr in H. rewrite H. reflexivity. }
  split; [| split].
  - intros Hb. unfold addfinalizer. rewrite Hb. reflexivity.
  - intros v I Hb H. apply (Double st v f nret Hf I Hb H).
  - intros st1 f' nret' I Fit E Hf'.
    assert (Hb : heap_base mlookup p = true).
    { unfold addfinalizer in E. destruct (heap_base mlookup p);
        [reflexivity | discriminate]. }
    destruct (addfinalizer_step mlookup st p f nret I Fit Hb
                (heap_live p Hb) Hf)
      as [(v & _ & E') | (_ & t' & E' & I' & _ & _ & Hh)];
      rewrite E' in E; inversion E; subst st1.
    apply (Double {| fintab := t'; special := {[p]} ∪ special st |}
             {| fn := f; nret := nret |} f' nret' Hf' I' Hb).
    apply Hh. left. split; reflexivity.
Qed.

(** C4: the table maps an object to its finalizer.  For the base pointer
    [p] of a heap block that the table has no finalizer for:
    [addfinalizer(p, f, nret)] returns; [getfinalizer(p, del)] then returns
    the finalizer with that [fn] and [nret]; after the removal of [p], by
    [addfinalizer(p, nil, _)] or by [getfinalizer(p, true)],
    [getfinalizer(p, del)] returns nil; and a different key [q] that holds
    finalizer [w] is still answered with [w] after the removal of [p]. *)
Theorem finalizer_install_lookup_remove (st : fstate) (p f nret : Z)
  (Hinv : inv (fintab st)) (Hfit : 3 * max (fintab st) < 2 ^ 31)
  (Hbase : heap_base mlookup p = true) (Hf : f <> 0)
  (Hnew : forall v, ~ holds (fintab st) p v) :
  exists st1,
    addfinalizer mlookup st p f nret = (st1, Ok tt) /\
    (forall del, exists st2,
       getfinalizer st1 p del = (st2, Ok (Some {| fn := f; nret := nret |}))) /\
    (exists st3,
       addfinalizer mlookup st1 p 0 nret = (st3, Ok tt) /\
       (forall del, exists st', getfinalizer st3 p del = (st', Ok None)) /\
       (forall q w del, q <> p -> holds (fintab st1) q w ->
          exists st', getfinalizer st3 q del = (st', Ok (Some w)))) /\
    (exists st4 r,
       getfinalizer st1 p true = (st4, r) /\
       (forall del, exists st', getfinalizer st4 p del = (st', Ok None)) /\
       (forall q w del, q <> p -> holds (fintab st1) q w ->
          exists st', getfinalizer st4 q del = (st', Ok (Some w)))).
Proof.
  pose proof (heap_live p Hbase) as L.
  destruct (addfinalizer_step mlookup st p f nret Hinv Hfit Hbase L Hf)
    as [(v & H & _) | (_ & t1 & E1 & I1 & _ & _ & H1)];
    [exfalso; apply (Hnew v H) |].
  eexists. split; [exact E1 |].
  set (st1 := {| fintab := t1; special := {[p]} ∪ special st |}) in *.
  assert (Answer : forall s q w del, inv (fintab s) -> holds (fintab s) q w ->
            exists s', getfinalizer s q del = (s', Ok (Some w))).
  { intros s q w del I H. pose proof H as (Lq & _).
    destruct (getfinalizer_inv s q del I Lq) as (r & s' & E & _ & _ & _ & Hr & _).
    exists s'. rewrite E. apply Hr in H. rewrite H. reflexivity. }
  assert (Gone : forall s del, inv (fintab s) ->
            (forall v, ~ holds (fintab s) p v) ->
            exists s', getfinalizer s p del = (s', Ok None)).
  { intros s del I Hno.
    destruct (getfinalizer_inv s p del I L) as (r & s' & E & _ & _ & _ & Hr & _).
    exists s'. rewrite E. destruct r as [v |]; [| reflexivity].
    exfalso. apply (Hno v). apply Hr. reflexivity. }
  split; [| split].
  - intros del. apply (Answer st1 p _ del I1). apply H1. left. auto.
  - destruct (addfinalizer_nil st1 p nret I1 Hbase)
      as (st3 & E3 & I3 & _ & _ & H3).
    exists st3. split; [exact E3 |]. split.
    + intros del. apply (Gone st3 del I3). intros v H. apply H3 in H. tauto.
    + intros q w del Nq H. apply (Answer st3 q w del I3). apply H3. auto.
  - destruct (getfinalizer_inv st1 p true I1 L)
      as (r & st4 & E4 & I4 & _ & _ & _ & H4).
    exists st4, (Ok r). split; [exact E4 |]. split.
    + intros del. apply (Gone st4 del I4). intros v H. apply H4 in H.
      destruct H as [H _]. apply (H eq_refl). reflexivity.
    + intros q w del Nq H. apply (Answer st4 q w del I4). apply H4. auto.
Qed.

End FinalizerCalls.

Section FinalizerRuns.
Import Mach Mfinal FintabSpec.

Variable mlookup : Z -> option Z.
Hypothesis heap_live : forall p, heap_base mlookup p = true -> live p.


(** Every run of calls keeps the table at most 3/4 full, ends in no
    "finalizer table inconsistent", and the table grows no faster than the
    calls made. *)
Lemma run_inv : forall cs st n,
  inv (fintab st) -> 0 <= n ->
  max (fintab st) <= 27 + 4 * n -> nkey (fintab st) <= n ->
  Forall call_ok cs -> n + Z.of_nat (length cs) <= 10 ^ 8 ->
  inv (fintab (run mlookup st cs).1) /\
  (run mlookup st cs).2 <> Throw "finalizer table inconsistent" /\
  (run mlookup st cs).2 <> Throw "integer divide by zero".
Proof.
  induction cs as [| c cs IH]; intros st n I Hn Hmax Hnk Hok Hlen.
  - simpl. split; [exact I |]. split; discriminate.
  - inversion Hok as [| ? ? Hc Hcs]; subst. simpl in Hlen.
    destruct c as [p f nret | p del]; cbn [run].
    + destruct (heap_base mlookup p) eqn:Hb.
      * destruct (Z.eq_dec f 0) as [-> | Hf].
        -- destruct (addfinalizer_nil mlookup heap_live st p nret I Hb)
             as (st' & E & I' & M' & N' & _).
           rewrite E. apply (IH st' (n + 1)); try assumption; lia.
        -- pose proof I as (W & Size & Cap).
           destruct (addfinalizer_step mlookup st p f nret I ltac:(lia) Hb
                       (heap_live p Hb) Hf)
             as [(v & _ & E) | (_ & t' & E & I' & N' & M' & _)]; rewrite E.
           ++ cbn [fst snd]. split; [exact I |]. split; discriminate.
           ++ apply (IH _ (n + 1)); cbn [fintab]; try assumption; try lia.
              rewrite M'. destruct (crowded (fintab st)) eqn:Cr; [| lia].
              destruct (newmax_room (fintab st) I ltac:(lia) Cr)
                as (_ & _ & _ & _ & [[-> _] | [[-> [Pos _]] | [-> _]]]);
                try lia.
              unfold crowded in Cr. apply Z.leb_le in Cr.
              fold (threshold (max (fintab st))) in Cr.
              rewrite threshold_div in Cr by lia.
              pose proof (Z.div_mod (max (fintab st)) 2 ltac:(lia)).
              pose proof (Z.mod_pos_bound (max (fintab st)) 2 ltac:(lia)).
              pose proof (Z.div_mod (max (fintab st)) 4 ltac:(lia)).
              pose proof (Z.mod_pos_bound (max (fintab st)) 4 ltac:(lia)).
              lia.
      * unfold addfinalizer. rewrite Hb. cbn [negb fst snd].
        split; [exact I |]. split; discriminate.
    + destruct (getfinalizer_inv st p del I Hc)
        as (r & st' & E & I' & M' & N' & _).
      rewrite E. apply (IH st' (n + 1)); try assumption; lia.
Qed.


End FinalizerRuns.

(** ** Channels *)

Section ChanFacts.
Import Chan.

Variable V : Type.
Variable zero : V.

(** A closed channel has no blocked sender: [close] dies on one, and so
    does every later [send]. *)
Lemma apply_op_no_senders (o : op V) (c c1 : chan V) :
  (closed V c = true -> sendq V c = []) ->
  apply_op V zero c o = Some c1 ->
  closed V c1 = true -> sendq V c1 = [].
Proof.
  intros Hc A Cl1. destruct o as [t v | t |]; simpl in A.
  - unfold send in A. destruct (closed V c) eqn:Cl; [discriminate |].
    destruct (recvq V c) as [| r rq].
    + destruct (length (buf V c) <? cap V c)%nat;
        injection A as <-; simpl in Cl1; congruence.
    + injection A as <-. simpl in Cl1. congruence.
  - unfold recv in A. destruct (sendq V c) as [| [s v] sq] eqn:Sq.
    + destruct (buf V c) as [| v b].
      * destruct (closed V c) eqn:Cl; injection A as <-.
        -- exact Sq.
        -- simpl in Cl1. congruence.
      * injection A as <-. reflexivity.
    + injection A as <-. simpl in Cl1. specialize (Hc Cl1). discriminate.
  - unfold close in A. destruct (closed V c); [discriminate |].
    destruct (sendq V c); [| discriminate].
    injection A as <-. reflexivity.
Qed.

Lemma after_no_senders : forall (ops : list (op V)) (c c' : chan V),
  (closed V c = true -> sendq V c = []) ->
  after zero c ops = Some c' ->
  closed V c' = true -> sendq V c' = [].
Proof.
  induction ops as [| o ops IH]; intros c c' Hc E.
  - inversion E; subst. exact Hc.
  - simpl in E. destruct (apply_op V zero c o) as [c1 |] eqn:A; [| discriminate].
    apply (IH c1 c'); [| exact E].
    apply (apply_op_no_senders o c c1 Hc A).
Qed.

(** C5: on every channel, as the operations made on it have left it:
    (1) once it is closed and its buffer is empty, a receive returns the
    zero value with ok false, wakes nobody, does not block and leaves the
    channel as it is, so that every later receive does the same; (2) a
    receive that blocks puts its task on the receive queue, and a close
    made while a task is there wakes it with (zero, false); right after
    the blocked receive the close succeeds; (3) a send on a closed channel
    is fatal. *)
Theorem closed_channel (capacity : nat) (ops : list (op V)) (c : chan V)
  (Hreach : after zero (make capacity) ops = Some c) :
  (closed V c = true -> buf V c = [] ->
   forall task, recv zero c task = Done (zero, false) c []) /\
  (forall task c1, recv zero c task = Blocks c1 ->
     In task (recvq V c1) /\
     exists c2 woken, close zero c1 = Done tt c2 woken /\
       closed V c2 = true /\ buf V c2 = []) /\
  (forall task c2 woken, In task (recvq V c) ->
     close zero c = Done tt c2 woken ->
     In (WakeRecv task zero false) woken /\ recvq V c2 = []) /\
  (closed V c = true ->
   forall task v, send c task v = Fatal "send on closed channel").
Proof.
  pose proof (after_no_senders ops (make capacity) c
                ltac:(discriminate) Hreach) as Hs.
  split; [| split; [| split]].
  - intros Cl Hb task. unfold recv. rewrite (Hs Cl), Hb, Cl. reflexivity.
  - intros task c1 E. unfold recv in E.
    destruct (sendq V c) as [| [s v] sq] eqn:Sq; [| discriminate].
    destruct (buf V c) as [| v b] eqn:Hb; [| discriminate].
    destruct (closed V c) eqn:Cl; [discriminate |].
    inversion E; subst c1. cbn [recvq]. split.
    + apply in_or_app. right. left. reflexivity.
    + unfold close. cbn [closed sendq].
      eexists _, _. split; [reflexivity |]. split; reflexivity.
  - intros task c2 woken Hin E. unfold close in E.
    destruct (closed V c); [discriminate |].
    destruct (sendq V c); [| discriminate].
    inversion E; subst. split; [| reflexivity].
    apply in_map_iff. exists task. split; [reflexivity | exact Hin].
  - intros Cl task v. unfold send. rewrite Cl. reflexivity.
Qed.

End ChanFacts.

(** [closed_channel] on an unbuffered channel of integers on which task 1
    blocks in a receive and the channel is then closed. *)
Lemma closed_channel_witness :
  Chan.after 0 (Chan.make 0) [Chan.Recv 1%nat; Chan.Close]
    = Some {| Chan.cap := 0; Chan.buf := []; Chan.sendq := [];
              Chan.recvq := []; Chan.closed := true |} /\
  forall task,
    Chan.recv 0 {| Chan.cap := 0; Chan.buf := []; Chan.sendq := [];
                   Chan.recvq := []; Chan.closed := true |} task
    = Chan.Done (0, false)
        {| Chan.cap := 0; Chan.buf := []; Chan.sendq := [];
           Chan.recvq := []; Chan.closed := true |} [].
Proof.
  assert (R : Chan.after 0 (Chan.make 0) [Chan.Recv 1%nat; Chan.Close]
              = Some {| Chan.cap := 0; Chan.buf := []; Chan.sendq := [];
                        Chan.recvq := []; Chan.closed := true |})
    by reflexivity.
  split; [exact R |].
  destruct (closed_channel Z 0 0%nat [Chan.Recv 1%nat; Chan.Close] _ R)
    as (H & _).
  apply H; reflexivity.
Defined.

(** ** peter.go *)

Section PeterFacts.
Import Chan Peter.

Lemma fan_in_start : fan_in start.
Proof.
  unfold fan_in, start. simpl.
  split; [reflexivity |]. split; [reflexivity |]. split; [reflexivity |].
  split; [constructor |]. split; [constructor |]. split; [reflexivity |].
  left. split; reflexivity.
Qed.

Ltac fan_in_field :=
  first [ assumption | reflexivity | solve [constructor]
        | solve [apply Forall_app; split; [assumption | repeat constructor]]
        | solve [rewrite length_app; simpl; lia]
        | lia ].

Ltac fan_in_fields :=
  unfold fan_in;
  cbn [c received left waiting cap buf closed sendq recvq];
  do 6 (split; [fan_in_field |]).

Lemma fan_in_step w pick : fan_in w -> fan_in (step w pick).
Proof.
  intros H. pose proof H as (Hcap & Hbuf & Hcl & Hsq & Hrv & Hlen & Hq).
  destruct pick as [| i]; cbn [step].
  - destruct (waiting w) eqn:Wt; [exact H |].
    destruct (left w) as [| n] eqn:Lf; [exact H |].
    destruct Hq as [[Rq _] | [_ [Wt' _]]]; [| discriminate].
    unfold recv. rewrite Hbuf, Hcl.
    destruct (sendq Z (c w)) as [| [s v] sq] eqn:Sq.
    + fan_in_fields. rewrite Rq.
      right. split; [reflexivity |]. split; [reflexivity | lia].
    + inversion Hsq as [| ? ? Hv Hsq']; subst. simpl in Hv. subst v.
      cbn [foldl wake_one]. fan_in_fields.
      left. split; [exact Rq | reflexivity].
  - destruct (tasks w !! i) as [[| |] |]; try exact H.
    unfold send. rewrite Hcl.
    destruct Hq as [[Rq Wt] | [Rq [Wt Lf]]]; rewrite Rq.
    + rewrite Hbuf, Hcap. cbn [length Nat.ltb Nat.leb].
      fan_in_fields. left. split; [reflexivity | exact Wt].
    + cbn [foldl wake_one]. fan_in_fields.
      left. split; reflexivity.
Qed.

Lemma fan_in_run schedule : fan_in (run schedule).
Proof.
  unfold run. generalize fan_in_start. generalize start.
  induction schedule as [| pick schedule IH]; intros w H; [exact H |].
  simpl. apply IH. apply fan_in_step. exact H.
Qed.

Lemma sum_ones l : Forall (fun v => v = 1) l -> sum l = Z.of_nat (length l).
Proof.
  induction 1 as [| v l Hv _ IH]; [reflexivity |].
  unfold sum in *. simpl foldr. rewrite IH, Hv. simpl length. lia.
Qed.

(** C6, as the program has it: each [ready(index)] prints its index and
    sends the value 1 on the unbuffered channel.  Under every schedule the
    values [main] has received are all 1 and, with the receives still to
    come, there are 10 of them; once [main] is through it has read exactly
    10 values and their sum is 10.  Under the schedule the sleeps make, all
    tasks return, [main] is through, and the indices printed are 1 to 10:
    it is they that sum to 55. *)
Theorem peter_fan_in (schedule : list nat) :
  (Forall (fun v => v = 1) (received (run schedule)) /\
   (length (received (run schedule)) + left (run schedule) = 10)%nat /\
   (left (run schedule) = 0%nat ->
    length (received (run schedule)) = 10%nat /\
    sum (received (run schedule)) = 10)) /\
  (left (run by_the_clock) = 0%nat /\
   tasks (run by_the_clock) = replicate 10 Finished /\
   received (run by_the_clock) = replicate 10 1 /\
   sum (received (run by_the_clock)) = 10 /\
   printed (run by_the_clock) = [1; 2; 3; 4; 5; 6; 7; 8; 9; 10] /\
   sum (printed (run by_the_clock)) = 55).
Proof.
  split.
  - destruct (fan_in_run schedule) as (_ & _ & _ & _ & Hrv & Hlen & _).
    split; [exact Hrv |]. split; [exact Hlen |]. intros L0.
    rewrite L0 in Hlen. split; [unfold total in Hlen; lia |].
    rewrite (sum_ones _ Hrv). unfold total in Hlen. lia.
  - repeat split; vm_compute; reflexivity.
Qed.

(** C6 as it is worded fails on the program: under the schedule the sleeps
    make, [main] reads its 10 values, and they are ten times the value 1,
    not the indices, and sum to 10, not to 55. *)
Lemma peter_sum_counterexample :
  left (run by_the_clock) = 0%nat /\
  received (run by_the_clock) = [1; 1; 1; 1; 1; 1; 1; 1; 1; 1] /\
  received (run by_the_clock) <> [1; 2; 3; 4; 5; 6; 7; 8; 9; 10] /\
  sum (received (run by_the_clock)) <> 55.
Proof.
  split; [vm_compute; reflexivity |].
  split; [vm_compute; reflexivity |].
  split; vm_compute; discriminate.
Qed.

End PeterFacts.

(** ** The theorems at concrete inputs *)

Section Witnesses.
Import Mach Mfinal FintabSpec.

Lemma heap16_live p : heap_base heap16 p = true -> live p.
Proof.
  unfold heap_base, heap16.
  destruct (Z.leb_spec 4096 p); [| discriminate].
  destruct (Z.ltb_spec p 8192); [| discriminate].
  intros _. unfold live, nil, DEAD. lia.
Qed.


(** [addfinalizer_fatal_errors] on the small heap: 5 is no heap pointer,
    4096 is the base of a block. *)
Lemma addfinalizer_fatal_errors_witness :
  addfinalizer heap16 fstate0 5 7 0
    = (fstate0, Throw "addfinalizer on invalid pointer") /\
  (forall st1, addfinalizer heap16 fstate0 4096 7 0 = (st1, Ok tt) ->
     addfinalizer heap16 st1 4096 9 0 = (st1, Throw "double finalizer")).
Proof.
  assert (H7 : 7 <> 0) by lia. assert (H9 : 9 <> 0) by lia.
  split.
  - apply (addfinalizer_fatal_errors heap16 heap16_live fstate0 5 7 0 H7).
    reflexivity.
  - intros st1 E.
    destruct (addfinalizer_fatal_errors heap16 heap16_live fstate0 4096 7 0 H7)
      as (_ & _ & H).
    apply (H st1 9 0 inv_fintab0 ltac:(simpl; lia) E H9).
Defined.

(** [finalizer_install_lookup_remove] for the block at 4096, on the empty
    table. *)
Lemma finalizer_install_lookup_remove_witness :
  exists st1,
    addfinalizer heap16 fstate0 4096 7 8 = (st1, Ok tt) /\
    (forall del, exists st2,
       getfinalizer st1 4096 del = (st2, Ok (Some {| fn := 7; nret := 8 |}))).
Proof.
  assert (Hnew : forall v, ~ holds (fintab fstate0) 4096 v).
  { intros v (_ & i & Hi & _). simpl in Hi. lia. }
  destruct (finalizer_install_lookup_remove heap16 heap16_live fstate0 4096 7 8
              inv_fintab0 ltac:(simpl; lia) eq_refl ltac:(lia) Hnew)
    as (st1 & E & G & _).
  exists st1. split; [exact E | exact G].
Defined.


End Witnesses.

(** ** The finalizer table: walking, rehashing, and the map it stands for *)

Section WalkFacts.
Import Mach Mfinal FintabSpec Walk.

(** After [n] turns the walk has called [fn] on the live keys of the first
    [n] slots, each once. *)
Lemma walk_prefix t :
  wf t -> forall n, (n <= Z.to_nat (max t))%nat ->
  let l := foldl (walk_step t) [] (seqZ 0 (Z.of_nat n)) in
  NoDup l /\
  Z.of_nat (length l) = count liveb (take n (key t)) /\
  (forall q, q ∈ l <->
     live q /\ exists i, 0 <= i < Z.of_nat n /\ key_at (key t) i = q).
Proof.
  intros W. induction n as [| n IH]; intros Hn l.
  - subst l. cbn. split; [constructor |]. split; [reflexivity |].
    intros q. split; [intros H; inversion H | intros (_ & i & ? & _); lia].
  - specialize (IH ltac:(lia)). cbv zeta in IH.
    destruct IH as (ND & Len & Mem).
    subst l.
    replace (Z.of_nat (S n)) with (Z.of_nat n + 1) by lia.
    rewrite seqZ_app by lia. rewrite foldl_app.
    change (seqZ (0 + Z.of_nat n) 1) with [0 + Z.of_nat n].
    cbn [foldl]. rewrite Z.add_0_l.
    set (l := foldl (walk_step t) [] (seqZ 0 (Z.of_nat n))) in *.
    pose proof (wf_key t W) as Hk.
    assert (Hlk : key t !! n = Some (key_at (key t) (Z.of_nat n))).
    { rewrite <- (Nat2Z.id n) at 1. apply key_at_lookup. lia. }
    rewrite (take_S_r _ _ _ Hlk), count_app. cbn [count].
    unfold walk_step.
    fold (liveb (key_at (key t) (Z.of_nat n))).
    destruct (liveb (key_at (key t) (Z.of_nat n))) eqn:Lv.
    + apply liveb_live in Lv.
      assert (Fresh : key_at (key t) (Z.of_nat n) ∉ l).
      { intros In. apply Mem in In. destruct In as (_ & i & Hi & E).
        assert (Z.of_nat n = i); [| lia].
        apply (wf_unique t _ _ W); [lia | lia | exact Lv | congruence]. }
      split.
      { apply NoDup_app. split; [exact ND |]. split.
        - intros x In. rewrite list_elem_of_singleton. intros ->. tauto.
        - apply NoDup_singleton. }
      split.
      { rewrite length_app. cbn [length]. lia. }
      intros q. rewrite elem_of_app, list_elem_of_singleton, Mem. split.
      * intros [(L & i & Hi & E) | ->].
        -- split; [exact L |]. exists i. split; [lia | exact E].
        -- split; [exact Lv |]. exists (Z.of_nat n). split; [lia | reflexivity].
      * intros (L & i & Hi & E).
        destruct (Z.eq_dec i (Z.of_nat n)) as [-> | Ne].
        -- right. symmetry. exact E.
        -- left. split; [exact L |]. exists i. split; [lia | exact E].
    + split; [exact ND |]. split; [lia |].
      intros q. rewrite Mem. split.
      * intros (L & i & Hi & E). split; [exact L |]. exists i.
        split; [lia | exact E].
      * intros (L & i & Hi & E). split; [exact L |].
        destruct (Z.eq_dec i (Z.of_nat n)) as [-> | Ne].
        -- apply liveb_live in L. congruence.
        -- exists i. split; [lia | exact E].
Qed.

(** The walk of a well-formed table. *)
Lemma walk_spec t :
  wf t ->
  NoDup (walkfintab t) /\
  Z.of_nat (length (walkfintab t)) = nkey t - ndead t /\
  (forall q, q ∈ walkfintab t <-> exists v, holds t q v).
Proof.
  intros W.
  pose proof (wf_max t W) as Hmax. pose proof (wf_key t W) as Hk.
  destruct (walk_prefix t W (Z.to_nat (max t)) ltac:(lia)) as (ND & Len & Mem).
  rewrite Z2Nat.id in ND, Len, Mem by lia.
  fold (walkfintab t) in ND, Len, Mem.
  split; [exact ND |]. split.
  - rewrite Len, <- Hk, firstn_all.
    rewrite (wf_nkey t W), (wf_ndead t W), count_live. lia.
  - intros q. rewrite Mem. split.
    + intros (L & i & Hi & E).
      destruct (wf_some t W i Hi) as (v & Hv); [rewrite E; exact L |].
      exists v. split; [exact L |]. exists i. tauto.
    + intros (v & L & i & Hi & E & _). split; [exact L |]. exists i. tauto.
Qed.

(** X1: [walkfintab] calls [fn] on exactly the objects that have a
    finalizer, on each of them once, and never on nil or on the dead mark
    (void* )-1; the number of calls is [nkey - ndead]. *)
Theorem walkfintab_visits_each_once (t : Fintab) (W : wf t) :
  NoDup (walkfintab t) /\
  Forall live (walkfintab t) /\
  (forall q, q ∈ walkfintab t <-> exists v, holds t q v) /\
  Z.of_nat (length (walkfintab t)) = nkey t - ndead t.
Proof.
  destruct (walk_spec t W) as (ND & Len & Mem).
  split; [exact ND |]. split; [| split; [exact Mem | exact Len]].
  apply Forall_forall. intros q In. apply Mem in In.
  destruct In as (v & L & _). exact L.
Qed.

(** Where no slot stops the scan, the scan ends after [j] probes without
    a slot. *)
Lemma scan_all_pass stop key M :
  0 < M < 2 ^ 31 ->
  (forall x, 0 <= x < M -> stop (key_at key x) = false) ->
  forall j i, 0 <= i < M -> scan stop key M i j = None.
Proof.
  intros HM Pass. induction j as [| j IH]; intros i Hi; [reflexivity |].
  cbn [scan]. rewrite (Pass i Hi). apply IH, next_range; lia.
Qed.

(** X2: on a table without a free slot both loops give up after [max]
    probes: [addfintab] throws, and so does [lookfintab] for a key that is
    not in the table. *)
Theorem full_table_is_inconsistent (t : Fintab) (k : Z)
  (v : option Finalizer) (del : bool)
  (Hmax : 0 < max t < 2 ^ 31)
  (Hfull : forall i, 0 <= i < max t ->
     live (key_at (key t) i) /\ key_at (key t) i <> k) :
  addfintab t k v = Throw "finalizer table inconsistent" /\
  lookfintab t k del = Throw "finalizer table inconsistent".
Proof.
  split.
  - unfold addfintab.
    assert (U : uintptr (max t) = max t).
    { unfold uintptr. apply Z.mod_small. lia. }
    rewrite U. destruct (Z.eqb_spec (max t) 0) as [E | _]; [lia |].
    rewrite addfintab_scan_eq, (scan_all_pass stop_add); [reflexivity | lia | |].
    + intros x Hx. apply live_stop_add, (Hfull x Hx).
    + apply hash_range. lia.
  - unfold lookfintab.
    destruct (Z.eqb_spec (max t) 0) as [E | _]; [lia |].
    rewrite lookfintab_scan_eq, (scan_all_pass (stop_look k));
      [reflexivity | lia | |].
    + intros x Hx. destruct (Hfull x Hx) as ((N & _) & Ne).
      unfold stop_look.
      destruct (Z.eqb_spec (key_at (key t) x) nil); [contradiction |].
      destruct (Z.eqb_spec (key_at (key t) x) k); [contradiction |].
      reflexivity.
    + apply hash_range. lia.
Qed.

Lemma full_table_is_inconsistent_witness :
  addfintab {| key := [5]; val := [None]; nkey := 1; ndead := 0; max := 1 |}
    7 None = Throw "finalizer table inconsistent" /\
  lookfintab {| key := [5]; val := [None]; nkey := 1; ndead := 0; max := 1 |}
    7 true = Throw "finalizer table inconsistent".
Proof.
  apply full_table_is_inconsistent.
  - cbn. lia.
  - intros i Hi. cbn in Hi. assert (i = 0) as -> by lia.
    repeat split; intros E; vm_compute in E; discriminate E.
Defined.

End WalkFacts.

Section FinalizerMap.
Import Mach Mfinal FintabSpec Walk.

Variable mlookup : Z -> option Z.
Hypothesis heap_live : forall p, heap_base mlookup p = true -> live p.

Lemma run_cons st c cs :
  run mlookup st (c :: cs) =
    match do_call mlookup st c with
    | (st', Ok _) => run mlookup st' cs
    | (st', Throw msg) => (st', Throw msg)
    end.
Proof.
  destruct c as [p f nret | p del]; cbn [run do_call]; [reflexivity |].
  destruct (getfinalizer st p del) as [st' [[] | msg]]; reflexivity.
Qed.

(** A lookup that does not delete leaves the table as it is, and so does
    the removal of a key that is not there. *)
Lemma lookfintab_keeps t k :
  inv t -> live k ->
  (exists r, lookfintab t k false = Ok (r, t) /\
             (forall v, r = Some v <-> holds t k v)) /\
  ((forall v, ~ holds t k v) -> forall del, lookfintab t k del = Ok (None, t)).
Proof.
  intros I L. pose proof I as (W & _).
  pose proof (inv_room t I) as Room.
  destruct (lookfintab_get t k W Room L) as (r & E & Hr).
  split; [exists r; split; assumption |].
  intros No del.
  assert (r = None) as ->.
  { destruct r as [v |]; [| reflexivity]. exfalso. apply (No v), Hr.
    reflexivity. }
  destruct del; [| exact E].
  clear E. unfold lookfintab.
  destruct (Z.eqb_spec (max t) 0) as [_ | Pos]; [reflexivity |].
  assert (Room' : nkey t < max t) by (destruct Room; [contradiction | assumption]).
  destruct (look_scan_spec t k W Room' L)
    as [(i & Hi & Ek & _) | (_ & ->)]; [| reflexivity].
  exfalso.
  destruct (wf_some t W i Hi) as (v & Hv); [rewrite Ek; exact L |].
  apply (No v). split; [exact L |]. exists i. tauto.
Qed.

(** One call on the table and on the map. *)
Lemma call_sim st m c :
  inv (fintab st) -> 3 * max (fintab st) < 2 ^ 31 -> call_ok c ->
  stands_for (fintab st) m ->
  exists st',
    do_call mlookup st c = (st', (map_call mlookup m c).2) /\
    inv (fintab st') /\
    stands_for (fintab st') (map_call mlookup m c).1 /\
    nkey (fintab st') <= nkey (fintab st) + 1 /\
    (max (fintab st') = max (fintab st) \/
     max (fintab st) = 0 /\ max (fintab st') = 27 \/
     0 < max (fintab st) /\ max (fintab st') = 3 * max (fintab st) /\
       3 * max (fintab st) <= 4 * nkey (fintab st) + 8).
Proof.
  intros I Fit Hc Rep.
  destruct c as [p f nret | p del]; cbn [do_call map_call].
  - destruct (heap_base mlookup p) eqn:Hb; cbn [negb].
    + destruct (Z.eqb_spec f 0) as [-> | Hf].
      * destruct (addfinalizer_nil mlookup heap_live st p nret I Hb)
          as (st' & E & I' & M' & N' & H').
        exists st'. cbn [fst snd].
        split; [exact E |]. split; [exact I' |]. split; [| split; [lia |]].
        -- intros q w. rewrite H', (Rep q w).
           destruct (Z.eq_dec q p) as [-> | Ne].
           ++ rewrite lookup_delete_eq. split; [tauto | discriminate].
           ++ rewrite lookup_delete_ne by congruence. tauto.
        -- left. exact M'.
      * destruct (addfinalizer_step mlookup st p f nret I Fit Hb
                    (heap_live p Hb) Hf)
          as [(v & Hv & E) | (No & t' & E & I' & N' & M' & H')].
        -- apply Rep in Hv. rewrite Hv. cbn [fst snd].
           exists st. split; [exact E |]. split; [exact I |].
           split; [exact Rep |]. split; [lia |]. left. reflexivity.
        -- assert (Hm : m !! p = None).
           { destruct (m !! p) as [v |] eqn:Ev; [| reflexivity].
             exfalso. apply (No v), Rep, Ev. }
           rewrite Hm. cbn [fst snd].
           eexists. split; [exact E |]. cbn [fintab].
           split; [exact I' |]. split; [| split; [exact N' |]].
           ++ intros q w. rewrite H', (Rep q w).
              destruct (Z.eq_dec q p) as [-> | Ne].
              ** rewrite lookup_insert_eq. split.
                 --- intros [[_ ->] | Hw]; [reflexivity | congruence].
                 --- intros Ew. injection Ew as <-. left. tauto.
              ** rewrite lookup_insert_ne by congruence. tauto.
           ++ rewrite M'. destruct (crowded (fintab st)) eqn:Cr;
                [| left; reflexivity].
              destruct (newmax_room (fintab st) I Fit Cr)
                as (_ & _ & _ & _ & [[-> Z0] | [[-> [Pos _]] | [-> _]]]).
              ** right. left. split; [exact Z0 | reflexivity].
              ** right. right. split; [exact Pos |]. split; [reflexivity |].
                 destruct I as (W & _ & _).
                 pose proof (wf_max _ W) as Hmax.
                 unfold crowded in Cr. apply Z.leb_le in Cr.
                 fold (threshold (max (fintab st))) in Cr.
                 rewrite threshold_div in Cr by lia.
                 pose proof (Z.div_mod (max (fintab st)) 2 ltac:(lia)).
                 pose proof (Z.mod_pos_bound (max (fintab st)) 2 ltac:(lia)).
                 pose proof (Z.div_mod (max (fintab st)) 4 ltac:(lia)).
                 pose proof (Z.mod_pos_bound (max (fintab st)) 4 ltac:(lia)).
                 lia.
              ** left. reflexivity.
    + exists st. unfold addfinalizer. rewrite Hb. cbn [negb fst snd].
      split; [reflexivity |]. split; [exact I |]. split; [exact Rep |].
      split; [lia |]. left. reflexivity.
  - destruct (getfinalizer_inv st p del I Hc)
      as (r & st' & E & I' & M' & N' & _ & H').
    rewrite E. exists st'. cbn [fst snd].
    split; [reflexivity |]. split; [exact I' |]. split; [| split; [lia |]].
    + intros q w. rewrite H', (Rep q w). destruct del.
      * destruct (Z.eq_dec q p) as [-> | Ne].
        -- rewrite lookup_delete_eq. split; [intros [F _]; now destruct F |
                                             discriminate].
        -- rewrite lookup_delete_ne by congruence. tauto.
      * split; [tauto |]. intros Hw. split; [discriminate | exact Hw].
    + left. exact M'.
Qed.

Lemma power_of_3_triple M : 0 < M -> power_of_3 M -> power_of_3 (3 * M).
Proof.
  intros Pos [-> | (j & ->)]; [lia |]. right. exists (S j).
  replace (3 + Z.of_nat (S j)) with (Z.succ (3 + Z.of_nat j)) by lia.
  rewrite Z.pow_succ_r by lia. reflexivity.
Qed.

(** A run of calls on the table and on the map. *)
Lemma run_sim : forall cs st m n,
  inv (fintab st) -> 0 <= n ->
  max (fintab st) <= 27 + 4 * n -> nkey (fintab st) <= n ->
  Forall call_ok cs -> n + Z.of_nat (length cs) <= 10 ^ 8 ->
  stands_for (fintab st) m -> power_of_3 (max (fintab st)) ->
  (run mlookup st cs).2 = (map_run mlookup m cs).2 /\
  inv (fintab (run mlookup st cs).1) /\
  stands_for (fintab (run mlookup st cs).1) (map_run mlookup m cs).1 /\
  power_of_3 (max (fintab (run mlookup st cs).1)).
Proof.
  induction cs as [| c cs IH]; intros st m n I Hn Hmax Hnk Hok Hlen Rep P3.
  - cbn. tauto.
  - inversion Hok as [| ? ? Hc Hcs]; subst. cbn [length] in Hlen.
    destruct (call_sim st m c I ltac:(lia) Hc Rep)
      as (st' & E & I' & Rep' & N' & M').
    rewrite run_cons, E. cbn [map_run].
    destruct (map_call mlookup m c) as [m' [[] | msg]]; cbn [fst snd] in *.
    + apply (IH st' m' (n + 1)); try assumption; try lia.
      destruct M' as [-> | [[_ ->] | (Pos & -> & _)]].
      * exact P3.
      * right. exists 0%nat. reflexivity.
      * apply power_of_3_triple; assumption.
    + split; [reflexivity |]. split; [exact I' |]. split; [exact Rep' |].
      destruct M' as [-> | [[_ ->] | (Pos & -> & _)]].
      * exact P3.
      * right. exists 0%nat. reflexivity.
      * apply power_of_3_triple; assumption.
Qed.

Lemma stands_for_empty : stands_for fintab0 ∅.
Proof.
  intros q w. split.
  - intros (_ & i & Hi & _). cbn in Hi. lia.
  - rewrite lookup_empty. discriminate.
Qed.

(** X3: the table is a finite map.  A run of up to 10^8 calls from the
    empty table ends as the same calls do on a finite map from objects to
    finalizers (entered by [addfinalizer] with a function, removed by
    [addfinalizer] with nil or [getfinalizer] with [del]): with the same
    result, and with a table in which [getfinalizer] answers for every
    object what the map holds, and which [walkfintab] walks through the
    objects of the map, each once. *)
Theorem fintab_is_a_finite_map (cs : list call)
  (Hcalls : Forall call_ok cs) (Hlen : Z.of_nat (length cs) <= 10 ^ 8) :
  (run mlookup fstate0 cs).2 = (map_run mlookup ∅ cs).2 /\
  (forall q del, live q ->
     exists st', getfinalizer (run mlookup fstate0 cs).1 q del =
                   (st', Ok ((map_run mlookup ∅ cs).1 !! q))) /\
  walkfintab (fintab (run mlookup fstate0 cs).1)
    ≡ₚ elements (dom (map_run mlookup ∅ cs).1).
Proof.
  destruct (run_sim cs fstate0 ∅ 0 inv_fintab0 ltac:(lia)
              ltac:(cbn; lia) ltac:(cbn; lia) Hcalls ltac:(lia)
              stands_for_empty ltac:(left; reflexivity))
    as (R & I & Rep & _).
  split; [exact R |]. split.
  - intros q del L.
    destruct (getfinalizer_inv _ q del I L) as (r & st' & E & _ & _ & _ & Hr & _).
    exists st'. rewrite E. f_equal. f_equal.
    destruct r as [v |].
    + symmetry. apply Rep, Hr. reflexivity.
    + destruct (_ !! q) as [w |] eqn:Ew; [| reflexivity].
      apply Rep, Hr in Ew. discriminate.
  - destruct I as (W & _).
    destruct (walk_spec _ W) as (ND & _ & Mem).
    apply NoDup_Permutation; [exact ND | apply NoDup_elements |].
    intros q. rewrite Mem, elem_of_elements, elem_of_dom. unfold is_Some.
    split; intros (v & Hv); exists v; apply Rep; exact Hv.
Qed.

(** X4: the table's size is a power of 3 ("so that hash can be key % max"):
    after every run of up to 10^8 calls from the empty table, [max] is 0 or
    3^j with j >= 3. *)
Theorem table_size_is_a_power_of_3 (cs : list call)
  (Hcalls : Forall call_ok cs) (Hlen : Z.of_nat (length cs) <= 10 ^ 8) :
  power_of_3 (max (fintab (run mlookup fstate0 cs).1)).
Proof.
  apply (run_sim cs fstate0 ∅ 0 inv_fintab0 ltac:(lia)
           ltac:(cbn; lia) ltac:(cbn; lia) Hcalls ltac:(lia)
           stands_for_empty ltac:(left; reflexivity)).
Qed.

(** X5: a lookup changes nothing, and neither does removing what is not
    there: [getfinalizer(p, 0)] leaves table and heap marks as they are and
    answers with the finalizer of [p] if it has one; for an object without
    finalizer, [getfinalizer(p, del)] and [addfinalizer(p, nil, nret)]
    return with nothing changed - no dead slot is made. *)
Theorem lookup_changes_nothing (st : fstate) (p : Z)
  (Hinv : inv (fintab st)) (Hlive : live p) :
  (exists r, getfinalizer st p false = (st, Ok r) /\
             (forall v, r = Some v <-> holds (fintab st) p v)) /\
  ((forall v, ~ holds (fintab st) p v) ->
   (forall del, getfinalizer st p del = (st, Ok None)) /\
   (forall nret, heap_base mlookup p = true ->
      addfinalizer mlookup st p 0 nret = (st, Ok tt))).
Proof.
  destruct (lookfintab_keeps (fintab st) p Hinv Hlive) as ((r & E & Hr) & No).
  destruct st as [t sp]. cbn [fintab] in *.
  split.
  - exists r. unfold getfinalizer. cbn [fintab special]. rewrite E.
    split; [reflexivity | exact Hr].
  - intros Abs. split.
    + intros del. unfold getfinalizer. cbn [fintab special].
      rewrite (No Abs del). reflexivity.
    + intros nret Hb. unfold addfinalizer. rewrite Hb. cbn [negb fintab special].
      rewrite Z.eqb_refl, (No Abs true). reflexivity.
Qed.

(** X6: installing a finalizer disturbs no other: where [addfinalizer]
    installs one for [p] - also when it rehashes or grows the table on the
    way - [p] is marked special in the heap, no mark is lost, and every other
    object has the finalizer it had. *)
Theorem addfinalizer_keeps_the_others (st : fstate) (p f nret : Z)
  (Hinv : inv (fintab st)) (Hfit : 3 * max (fintab st) < 2 ^ 31)
  (Hbase : heap_base mlookup p = true) (Hf : f <> 0)
  (Hnew : forall v, ~ holds (fintab st) p v) :
  exists st1,
    addfinalizer mlookup st p f nret = (st1, Ok tt) /\
    p ∈ special st1 /\ special st ⊆ special st1 /\
    (forall q del, live q -> q <> p ->
       exists r st' st1',
         getfinalizer st q false = (st', Ok r) /\
         getfinalizer st1 q del = (st1', Ok r)).
Proof.
  destruct (addfinalizer_step mlookup st p f nret Hinv Hfit Hbase
              (heap_live p Hbase) Hf)
    as [(v & Hv & _) | (_ & t' & E & I' & _ & _ & H')];
    [destruct (Hnew v Hv) |].
  eexists. split; [exact E |]. cbn [special].
  split; [apply elem_of_union_l, elem_of_singleton; reflexivity |].
  split; [apply union_subseteq_r |].
  intros q del L Ne.
  destruct (getfinalizer_inv st q false Hinv L)
    as (r & st' & E1 & _ & _ & _ & Hr & _).
  destruct (getfinalizer_inv {| fintab := t'; special := {[p]} ∪ special st |}
              q del I' L) as (r' & st1' & E2 & _ & _ & _ & Hr' & _).
  exists r, st', st1'. split; [exact E1 |]. rewrite E2. f_equal. f_equal.
  cbn [fintab] in Hr'.
  destruct r' as [w' |].
  - pose proof (proj1 (Hr' w') eq_refl) as H. apply H' in H.
    destruct H as [[-> _] | H]; [contradiction |].
    symmetry. apply Hr, H.
  - destruct r as [w |]; [| reflexivity].
    assert (H : holds t' q w) by (apply H'; right; apply Hr; reflexivity).
    apply Hr' in H. discriminate.
Qed.

(** X7: a rehash loses nothing and leaves no dead slot: on a table due
    for it, [rehash] ends with a table of the new size that holds the same
    finalizers, counts the live keys only, and is walked through the same
    objects. *)
Theorem rehash_keeps_finalizers (t : Fintab)
  (Hinv : inv t) (Hfit : 3 * max t < 2 ^ 31) (Hdue : crowded t = true) :
  exists nt,
    rehash t = Ok nt /\ inv nt /\ max nt = newmax t /\
    ndead nt = 0 /\ nkey nt = nkey t - ndead t /\
    (forall q w, holds nt q w <-> holds t q w) /\
    walkfintab nt ≡ₚ walkfintab t.
Proof.
  pose proof Hinv as (W & _).
  destruct (newmax_room t Hinv Hfit Hdue) as (R1 & R2 & R3 & R4 & _).
  destruct (rehash_ok t W R1 R3) as (nt & E & W' & M' & D' & N' & H').
  exists nt. split; [exact E |].
  split; [| split; [exact M' |]; split; [exact D' |]; split; [exact N' |];
            split; [exact H' |]].
  - split; [exact W' |]. rewrite M'. split; [right; exact R2 | lia].
  - destruct (walk_spec t W) as (ND & _ & Mem).
    destruct (walk_spec nt W') as (ND' & _ & Mem').
    apply NoDup_Permutation; [exact ND' | exact ND |].
    intros q. rewrite Mem, Mem'. split; intros (v & Hv); exists v; apply H';
      exact Hv.
Qed.

End FinalizerMap.

Section FinalizerMapWitnesses.
Import Mach Mfinal FintabSpec Walk.

Lemma busy_inv : inv (fintab busy).
Proof.
  apply (run_inv heap16 heap16_live _ fstate0 0 inv_fintab0);
    [lia | cbn; lia | cbn; lia | | cbn; lia].
  repeat constructor; unfold nil, DEAD; lia.
Qed.

Lemma crammed_inv : inv (fintab crammed).
Proof.
  apply (run_inv heap16 heap16_live _ fstate0 0 inv_fintab0);
    [lia | cbn; lia | cbn; lia | | cbn; lia].
  cbn. repeat constructor.
Qed.

(** [walkfintab_visits_each_once] on the table in use: of the two objects
    entered, the walk meets the one that still has its finalizer. *)
Lemma walkfintab_visits_each_once_witness :
  walkfintab (fintab busy) = [4112] /\
  (forall q, q ∈ walkfintab (fintab busy) <-> exists v, holds (fintab busy) q v).
Proof.
  split; [reflexivity |].
  destruct busy_inv as (W & _).
  apply (walkfintab_visits_each_once (fintab busy) W).
Defined.

(** [fintab_is_a_finite_map] for a run that ends in a second finalizer for
    the same object. *)
Lemma fintab_is_a_finite_map_witness :
  (run heap16 fstate0
     [AddFinalizer 4096 7 0; AddFinalizer 4112 9 1; GetFinalizer 4096 true;
      AddFinalizer 4112 5 0]).2 = Throw "double finalizer".
Proof.
  assert (Hok : Forall call_ok
            [AddFinalizer 4096 7 0; AddFinalizer 4112 9 1;
             GetFinalizer 4096 true; AddFinalizer 4112 5 0]).
  { repeat constructor; unfold nil, DEAD; lia. }
  destruct (fintab_is_a_finite_map heap16 heap16_live _ Hok ltac:(cbn; lia))
    as (R & _).
  rewrite R. reflexivity.
Defined.

(** [table_size_is_a_power_of_3] for twenty finalizers: the table has
    grown once, to 81 slots. *)
Lemma table_size_is_a_power_of_3_witness :
  max (fintab (run heap16 fstate0
         (map (fun i => AddFinalizer (4096 + 16 * Z.of_nat i) 7 0) (seq 0 20))).1)
    = 81 /\
  power_of_3 (max (fintab (run heap16 fstate0
         (map (fun i => AddFinalizer (4096 + 16 * Z.of_nat i) 7 0) (seq 0 20))).1)).
Proof.
  split; [reflexivity |].
  apply (table_size_is_a_power_of_3 heap16 heap16_live).
  - cbn. repeat constructor.
  - cbn. lia.
Defined.

(** [lookup_changes_nothing] on the table in use, for the object whose
    finalizer was taken out. *)
Lemma lookup_changes_nothing_witness :
  getfinalizer busy 4096 true = (busy, Ok None) /\
  addfinalizer heap16 busy 4096 0 0 = (busy, Ok tt).
Proof.
  assert (L : live 4096) by (apply heap16_live; reflexivity).
  assert (Abs : forall v, ~ holds (fintab busy) 4096 v).
  { intros v H.
    destruct (lookup_changes_nothing heap16 busy 4096 busy_inv L)
      as ((r & E & Hr) & _).
    apply Hr in H. subst r. vm_compute in E. discriminate E. }
  destruct (lookup_changes_nothing heap16 busy 4096 busy_inv L) as (_ & H).
  destruct (H Abs) as (G & A).
  split; [apply G | apply A; reflexivity].
Defined.

(** [addfinalizer_keeps_the_others] on the table in use: a finalizer for
    4128 leaves that of 4112 in place. *)
Lemma addfinalizer_keeps_the_others_witness :
  exists st1,
    addfinalizer heap16 busy 4128 3 0 = (st1, Ok tt) /\ 4128 ∈ special st1 /\
    exists r st' st1',
      getfinalizer busy 4112 false = (st', Ok r) /\
      getfinalizer st1 4112 true = (st1', Ok r).
Proof.
  assert (Abs : forall v, ~ holds (fintab busy) 4128 v).
  { intros v H.
    destruct (lookfintab_get (fintab busy) 4128) as (r & E & Hr).
    - apply busy_inv.
    - right. vm_compute. reflexivity.
    - apply heap16_live. reflexivity.
    - apply Hr in H. subst r. vm_compute in E. discriminate E. }
  destruct (addfinalizer_keeps_the_others heap16 heap16_live busy 4128 3 0
              busy_inv ltac:(vm_compute; reflexivity) eq_refl ltac:(lia) Abs)
    as (st1 & E & S1 & _ & K).
  exists st1. split; [exact E |]. split; [exact S1 |].
  apply K; [apply heap16_live; reflexivity | lia].
Defined.

(** [rehash_keeps_finalizers] on a table of 27 slots with 19 keys. *)
Lemma rehash_keeps_finalizers_witness :
  exists nt,
    rehash (fintab crammed) = Ok nt /\ max nt = 81 /\ nkey nt = 19 /\
    walkfintab nt ≡ₚ walkfintab (fintab crammed).
Proof.
  destruct (rehash_keeps_finalizers (fintab crammed) crammed_inv
              ltac:(vm_compute; reflexivity) eq_refl)
    as (nt & E & _ & M & _ & N & _ & P).
  exists nt. split; [exact E |]. split; [rewrite M; reflexivity |].
  split; [rewrite N; reflexivity | exact P].
Defined.

End FinalizerMapWitnesses.

(** ** [sleep]: what it asks of [sysSleep], and when it stops *)

Section SleepFacts.
Import Mach Time.

(** At or after the deadline the loop is over, whatever the world would
    do next. *)
Lemma sleep_loop_over env t end_ asked :
  end_ <= t -> sleep_loop env t end_ asked = Some (t, None, asked).
Proof.
  intros H. destruct env; cbn [sleep_loop];
    destruct (Z.ltb_spec t end_); (lia || reflexivity).
Qed.

(** While [sysSleep] returns early (without error, the clock still before
    the deadline) the loop calls it again, each time for what is left until
    the deadline. *)
Lemma sleep_loop_calls early : forall w rest t end_ asked,
  Forall (fun w => sys_err w = None /\ 0 <= clock w < end_) early ->
  0 <= t < end_ -> end_ < 2 ^ 63 ->
  sleep_loop (early ++ w :: rest) t end_ asked =
    match sys_err w with
    | Some err =>
        Some (0, Some err,
              asked ++ map (fun c => end_ - c) (t :: map clock early))
    | None =>
        sleep_loop rest (int64 (clock w)) end_
          (asked ++ map (fun c => end_ - c) (t :: map clock early))
    end.
Proof.
  induction early as [| w0 early IH]; intros w rest t end_ asked He Ht Hend.
  - cbn [app sleep_loop map]. destruct (Z.ltb_spec t end_); [| lia].
    rewrite (int64_small (end_ - t)) by lia. reflexivity.
  - inversion He as [| ? ? [E1 E2] He']; subst.
    cbn [app sleep_loop]. destruct (Z.ltb_spec t end_); [| lia].
    rewrite E1, (int64_small (clock w0)) by lia.
    rewrite (int64_small (end_ - t)) by lia.
    rewrite (IH w rest (clock w0) end_ _ He' E2 Hend).
    cbn [map]. rewrite <- !app_assoc. reflexivity.
Qed.

(** What was asked of [sysSleep] before stays in the list. *)
Lemma sleep_loop_asked env : forall acc c end_ t' err asked,
  sleep_loop env c end_ acc = Some (t', err, asked) ->
  exists more, asked = acc ++ more.
Proof.
  induction env as [| w env IH]; intros acc c end_ t' err asked;
    cbn [sleep_loop]; destruct (c <? end_).
  - discriminate.
  - intros E. injection E as _ _ <-. exists []. now rewrite app_nil_r.
  - destruct (sys_err w).
    + intros E. injection E as _ _ <-. eexists. reflexivity.
    + intros E. apply IH in E. destruct E as (more & ->).
      rewrite <- app_assoc. eexists. reflexivity.
  - intros E. injection E as _ _ <-. exists []. now rewrite app_nil_r.
Qed.

(** X8: [sleep] pauses for at least [ns] nanoseconds when [t + ns] fits
    an int64: it returns without error only with a clock reading at or after
    [t + ns]; for [ns <= 0] it returns [t] at once without a call of
    [sysSleep]; for [ns > 0] it calls [sysSleep] at least once, first for
    [ns]. *)
Theorem sleep_pauses_at_least_ns (env : list turn) (t ns : Z)
  (Hns : - 2 ^ 63 <= ns < 2 ^ 63)
  (Hfit : - 2 ^ 63 <= t + ns < 2 ^ 63) :
  (forall t' asked, sleep env t ns = Some (t', None, asked) -> t + ns <= t') /\
  (ns <= 0 -> sleep env t ns = Some (t, None, [])) /\
  (0 < ns -> forall t' err asked,
     sleep env t ns = Some (t', err, asked) ->
     exists more, asked = ns :: more).
Proof.
  split; [| split].
  - intros t' asked E. exact (sleep_at_least env t ns t' asked Hfit E).
  - intros Le. unfold sleep. rewrite (int64_small _ Hfit).
    apply sleep_loop_over. lia.
  - intros Pos t' err asked. unfold sleep. rewrite (int64_small _ Hfit).
    destruct env as [| w env]; cbn [sleep_loop];
      destruct (Z.ltb_spec t (t + ns)); try lia; [discriminate |].
    replace (t + ns - t) with ns by lia. rewrite (int64_small ns Hns).
    cbn [app].
    destruct (sys_err w) as [e |].
    + intros E. injection E as _ _ <-. exists []. reflexivity.
    + intros E. apply sleep_loop_asked in E. destruct E as (more & ->).
      exists more. reflexivity.
Qed.

Lemma sleep_pauses_at_least_ns_witness :
  sleep [{| sys_err := None; clock := 130 |}] 100 0 = Some (100, None, []) /\
  (forall t' asked,
     sleep [{| sys_err := None; clock := 130 |}] 100 25
       = Some (t', None, asked) -> 125 <= t').
Proof.
  split.
  - apply (sleep_pauses_at_least_ns _ 100 0); lia.
  - apply (sleep_pauses_at_least_ns _ 100 25); lia.
Defined.

(** X9: [sleep] sleeps again after an early wake-up.  While [sysSleep]
    returns without error and the clock read after it is still before
    [t + ns], [sleep] calls [sysSleep] again, each time for exactly what is
    left until [t + ns]; it returns the first clock reading at or after
    [t + ns], and asks nothing more of the world. *)
Theorem sleep_sleeps_again (early : list turn) (late : turn)
  (rest : list turn) (t ns : Z)
  (Ht : 0 <= t) (Hns : 0 < ns) (Hfit : t + ns < 2 ^ 63)
  (Hearly : Forall (fun w => sys_err w = None /\ 0 <= clock w < t + ns) early)
  (Hok : sys_err late = None) (Hlate : t + ns <= clock late < 2 ^ 63) :
  sleep (early ++ late :: rest) t ns =
    Some (clock late, None,
          map (fun c => t + ns - c) (t :: map clock early)).
Proof.
  unfold sleep. rewrite (int64_small (t + ns)) by lia.
  rewrite (sleep_loop_calls early late rest t (t + ns) [] Hearly) by lia.
  rewrite Hok, (int64_small (clock late)) by lia.
  apply sleep_loop_over. lia.
Qed.

Lemma sleep_sleeps_again_witness :
  sleep [{| sys_err := None; clock := 110 |};
         {| sys_err := None; clock := 124 |};
         {| sys_err := None; clock := 130 |};
         {| sys_err := Some "EINTR"%string; clock := 140 |}] 100 25
    = Some (130, None, [25; 15; 1]).
Proof.
  apply (sleep_sleeps_again
           [{| sys_err := None; clock := 110 |};
            {| sys_err := None; clock := 124 |}]
           {| sys_err := None; clock := 130 |}
           [{| sys_err := Some "EINTR"%string; clock := 140 |}] 100 25);
    try (cbn; lia); try reflexivity.
  repeat constructor; cbn; lia.
Defined.

(** X10: an error of [sysSleep] ends [sleep] at once: it returns time 0
    with that error, reads the clock no more and makes no further call of
    [sysSleep], however early it is. *)
Theorem sleep_stops_at_error (early : list turn) (bad : turn)
  (rest : list turn) (err : string) (t ns : Z)
  (Ht : 0 <= t) (Hns : 0 < ns) (Hfit : t + ns < 2 ^ 63)
  (Hearly : Forall (fun w => sys_err w = None /\ 0 <= clock w < t + ns) early)
  (Hbad : sys_err bad = Some err) :
  sleep (early ++ bad :: rest) t ns =
    Some (0, Some err, map (fun c => t + ns - c) (t :: map clock early)).
Proof.
  unfold sleep. rewrite (int64_small (t + ns)) by lia.
  rewrite (sleep_loop_calls early bad rest t (t + ns) [] Hearly) by lia.
  rewrite Hbad. reflexivity.
Qed.

Lemma sleep_stops_at_error_witness :
  sleep [{| sys_err := None; clock := 110 |};
         {| sys_err := Some "EINTR"%string; clock := 111 |};
         {| sys_err := None; clock := 130 |}] 100 25
    = Some (0, Some "EINTR"%string, [25; 15]).
Proof.
  apply (sleep_stops_at_error
           [{| sys_err := None; clock := 110 |}]
           {| sys_err := Some "EINTR"%string; clock := 111 |}
           [{| sys_err := None; clock := 130 |}] "EINTR" 100 25);
    try (cbn; lia); try reflexivity.
  repeat constructor; cbn; lia.
Defined.

End SleepFacts.

(** ** mem.c: freeing, mapping and probing *)

Section PagesFacts.
Import Mach Mem Pages.

Lemma unmap_lookup (l : list Z) : forall (m : memory) a,
  foldl (fun m' x => delete x m') m l !! a =
    if decide (a ∈ l) then None else m !! a.
Proof.
  induction l as [| x l IH]; intros m a; cbn [foldl].
  - destruct (decide (a ∈ [])) as [H | _]; [inversion H | reflexivity].
  - rewrite IH.
    destruct (decide (a ∈ l)) as [In | Out].
    + rewrite decide_True by (right; exact In). reflexivity.
    + destruct (decide (a = x)) as [-> | Ne].
      * rewrite decide_True by left. apply lookup_delete_eq.
      * rewrite decide_False.
        -- apply lookup_delete_ne. congruence.
        -- intros H. inversion H; subst; contradiction.
Qed.

Lemma u64_add_sub x n : 0 <= x < 2 ^ 64 -> u64 (u64 (x + n) - n) = x.
Proof.
  intros H. unfold u64. rewrite Zminus_mod_idemp_l.
  replace (x + n - n) with x by lia. apply Z.mod_small. exact H.
Qed.

(** X11: what [SysAlloc] obtains, [SysFree] gives back.  For a grant
    of [n] bytes at addresses that were not mapped, [SysAlloc] followed by
    [SysFree] of the same block leaves the mapped memory and [mstats.sys]
    as they were; and when the kernel refuses the unmapping with an error
    code, [SysFree] does not return: the stub faults. *)
Theorem SysAlloc_SysFree_round_trip (a n : Z) (garbage : Z -> Z)
  (st : mstate)
  (Hsys : 0 <= sys st < 2 ^ 64)
  (Hnew : forall x, a <= x < a + n -> mapped st !! x = None) :
  (exists st1,
     SysAlloc (Some a) garbage n st = Some (a, st1) /\
     SysFree 0 a n st1 = Some st) /\
  (forall errno st1, 0 < errno < 4095 -> SysFree (- errno) a n st1 = None).
Proof.
  split.
  - unfold SysAlloc. cbn [mmap].
    destruct (memclr_zeroes a n
                (foldl (fun m' x => <[x := garbage x]> m') (mapped st) (seqZ a n)))
      as (m2 & E & Zr & Oth).
    { intros x Hx. rewrite map_fresh_lookup; [eexists; reflexivity |].
      apply elem_of_seqZ. lia. }
    rewrite E. eexists. split; [reflexivity |].
    unfold SysFree, munmap. cbn [sys mapped].
    change (u64 0) with 0. cbn [Z.ltb Z.eqb Z.compare].
    rewrite (u64_add_sub _ _ Hsys).
    destruct st as [s m]. cbn [sys mapped] in *. f_equal. f_equal.
    apply map_eq. intros x. rewrite unmap_lookup.
    destruct (decide (x ∈ seqZ a n)) as [In | Out].
    + symmetry. apply Hnew. apply elem_of_seqZ in In. lia.
    + rewrite Oth by (intros Hx; apply Out, elem_of_seqZ; lia).
      apply map_fresh_other. exact Out.
  - intros errno st1 He. unfold SysFree, munmap.
    assert (U : u64 (- errno) = 2 ^ 64 - errno).
    { unfold u64. symmetry. apply Z.mod_unique with (q := -1); lia. }
    rewrite U. destruct (Z.ltb_spec (2 ^ 64 - 4095) (2 ^ 64 - errno)); [| lia].
    reflexivity.
Qed.

Lemma SysAlloc_SysFree_round_trip_witness :
  exists st1,
    SysAlloc (Some 4096) (fun _ => 255) 3 {| sys := 10; mapped := ∅ |}
      = Some (4096, st1) /\
    SysFree 0 4096 3 st1 = Some {| sys := 10; mapped := ∅ |}.
Proof.
  destruct (SysAlloc_SysFree_round_trip 4096 3 (fun _ => 255)
              {| sys := 10; mapped := ∅ |}) as (H & _).
  - cbn. lia.
  - intros x _. apply lookup_empty.
  - exact H.
Defined.

(** A fault stays a fault. *)
Lemma memclr_fault (l : list Z) :
  foldl (fun om x =>
           match om with
           | Some m' =>
               if decide (is_Some ((m' : memory) !! x)) then Some (<[x := 0]> m')
               else None
           | None => None
           end) None l = None.
Proof. induction l as [| x l IH]; [reflexivity | exact IH]. Qed.

Lemma memclr_unmapped p n (m : memory) :
  0 < n -> m !! p = None -> memclr p n m = None.
Proof.
  intros Hn Hp. unfold memclr.
  replace n with (1 + (n - 1)) by lia.
  rewrite seqZ_app by lia. change (seqZ p 1) with [p].
  cbn [app foldl]. rewrite decide_False.
  - apply memclr_fault.
  - rewrite Hp. intros [x Hx]. discriminate.
Qed.

(** X12: [SysMap] maps and zeroes where the kernel grants.  Whatever the
    pointer size, [SysMap(v, n)] adds [n] to [mstats.sys] and returns with
    the [n] bytes at the granted address mapped and zero, all other memory
    as before; the address the kernel chose is not compared with [v]. *)
Theorem SysMap_zeroes_the_grant (ptr8 : bool) (a v n : Z)
  (garbage : Z -> Z) (st : mstate) :
  exists st',
    SysMap ptr8 (Some a) garbage v n st = Some st' /\
    zeroed a n (mapped st') /\
    (forall x, ~ a <= x < a + n -> mapped st' !! x = mapped st !! x) /\
    sys st' = u64 (sys st + n) /\
    SysAlloc (Some a) garbage n st = Some (a, st').
Proof.
  destruct (memclr_zeroes a n
              (foldl (fun m' x => <[x := garbage x]> m') (mapped st) (seqZ a n)))
    as (m2 & E & Zr & Oth).
  { intros x Hx. rewrite map_fresh_lookup; [eexists; reflexivity |].
    apply elem_of_seqZ. lia. }
  exists {| sys := u64 (sys st + n); mapped := m2 |}.
  split; [| split; [exact Zr |]; split; [| split; [reflexivity |]]].
  - unfold SysMap. destruct ptr8; cbn [mmap]; rewrite E; reflexivity.
  - intros x Hx. cbn [mapped]. rewrite (Oth x Hx).
    apply map_fresh_other. rewrite elem_of_seqZ. lia.
  - unfold SysAlloc. cbn [mmap]. rewrite E. reflexivity.
Qed.

(** X13: a failed [mmap] is not noticed.  When the kernel grants nothing,
    [SysAlloc] clears [n] bytes from the nil pointer on and [SysMap] from
    [v] on: with [n > 0] and that address not mapped, the call faults instead
    of returning; [SysAlloc(0)] returns nil. *)
Theorem mmap_failure_faults (garbage : Z -> Z) (n : Z) (st : mstate)
  (Hn : 0 < n) :
  (mapped st !! 0 = None -> SysAlloc None garbage n st = None) /\
  (forall ptr8 v, mapped st !! v = None ->
     SysMap ptr8 None garbage v n st = None) /\
  SysAlloc None garbage 0 st
    = Some (0, {| sys := u64 (sys st + 0); mapped := mapped st |}).
Proof.
  split; [| split].
  - intros H0. unfold SysAlloc. cbn [mmap].
    rewrite (memclr_unmapped 0 n _ Hn H0). reflexivity.
  - intros ptr8 v Hv. unfold SysMap.
    destruct ptr8; cbn [mmap]; rewrite (memclr_unmapped v n _ Hn Hv);
      reflexivity.
  - reflexivity.
Qed.

Lemma mmap_failure_faults_witness :
  SysAlloc None (fun _ => 255) 8 {| sys := 0; mapped := ∅ |} = None.
Proof.
  apply (mmap_failure_faults (fun _ => 255) 8 {| sys := 0; mapped := ∅ |});
    [lia | apply lookup_empty].
Defined.

(** The loop of [addrspace_free] from page [j] on, with [k] pages to go. *)
Lemma addrspace_free_from mincore v n :
  0 <= n <= 2 ^ 64 - 4096 ->
  forall (k : nat) j fuel,
    0 <= j -> n <= 4096 * (j + Z.of_nat k) -> (k < fuel)%nat ->
    exists r,
      addrspace_free_loop mincore v n (4096 * j) fuel = Some r /\
      (r = 0 \/ r = 1) /\
      (r = 1 <->
       forall i, j <= i -> 4096 * i < n ->
         int32 (mincore (u64 (v + 4096 * i))) = - ENOMEM).
Proof.
  intros Hn. induction k as [| k IH]; intros j fuel Hj Hk Hf;
    (destruct fuel as [| fuel]; [lia |]); cbn [addrspace_free_loop].
  - destruct (Z.ltb_spec (4096 * j) n); [lia |].
    exists 1. split; [reflexivity |]. split; [right; reflexivity |].
    split; [intros _ i Hi Hlt; lia | reflexivity].
  - destruct (Z.ltb_spec (4096 * j) n) as [Lt | Ge].
    + destruct (Z.eqb_spec (int32 (mincore (u64 (v + 4096 * j)))) (- ENOMEM))
        as [E | Ne].
      * rewrite E. change (- ENOMEM =? 0) with false. cbn [orb negb].
        assert (U : u64 (4096 * j + 4096) = 4096 * (j + 1)).
        { unfold u64. rewrite Z.mod_small by lia. lia. }
        rewrite U.
        destruct (IH (j + 1) fuel ltac:(lia) ltac:(lia) ltac:(lia))
          as (r & Er & R01 & Hr).
        exists r. split; [exact Er |]. split; [exact R01 |].
        rewrite Hr. split.
        -- intros H i Hi Hlt.
           destruct (Z.eq_dec i j) as [-> | Nj]; [exact E | apply H; lia].
        -- intros H i Hi Hlt. apply H; lia.
      * rewrite orb_true_r. exists 0.
        split; [reflexivity |]. split; [left; reflexivity |].
        split; [discriminate |]. intros H. exfalso. apply Ne, H; lia.
    + exists 1. split; [reflexivity |]. split; [right; reflexivity |].
      split; [intros _ i Hi Hlt; lia | reflexivity].
Qed.

(** X14: [addrspace_free(v, n)] answers 1 exactly when the kernel
    answers -ENOMEM for every page of the range: for [n] up to
    2^64 - 4096 it returns after at most [n/4096 + 2] loop tests, having
    probed the pages [v], [v + 4096], ... below [v + n] in turn, with 0 at
    the first page for which [mincore] answers anything else. *)
Theorem addrspace_free_probes_every_page (mincore : Z -> Z) (v n : Z)
  (fuel : nat)
  (Hn : 0 <= n <= 2 ^ 64 - 4096) (Hfuel : n / 4096 + 1 < Z.of_nat fuel) :
  exists r,
    addrspace_free mincore v n fuel = Some r /\
    (r = 0 \/ r = 1) /\
    (r = 1 <->
     forall i, 0 <= i -> 4096 * i < n ->
       int32 (mincore (u64 (v + 4096 * i))) = - ENOMEM).
Proof.
  unfold addrspace_free.
  pose proof (Z.div_mod n 4096 ltac:(lia)) as D.
  pose proof (Z.mod_pos_bound n 4096 ltac:(lia)) as B.
  assert (0 <= n / 4096) by (apply Z.div_pos; lia).
  exact (addrspace_free_from mincore v n Hn (Z.to_nat (n / 4096 + 1)) 0 fuel
           ltac:(lia) ltac:(lia) ltac:(lia)).
Qed.

Lemma addrspace_free_probes_every_page_witness :
  addrspace_free (fun a => if a <? 3 * 4096 then -12 else 0) 0 (2 * 4096 + 1) 5
    = Some 1 /\
  addrspace_free (fun a => if a <? 3 * 4096 then -12 else 0) 4096 (2 * 4096 + 1) 5
    = Some 0.
Proof.
  split.
  - destruct (addrspace_free_probes_every_page
                (fun a => if a <? 3 * 4096 then -12 else 0) 0 (2 * 4096 + 1) 5
                ltac:(lia) ltac:(vm_compute; reflexivity)) as (r & E & _ & Hr).
    rewrite E. f_equal. apply Hr. intros i Hi Hlt.
    assert (i = 0 \/ i = 1 \/ i = 2) as [-> | [-> | ->]] by lia;
      vm_compute; reflexivity.
  - reflexivity.
Defined.

End PagesFacts.

(** ** thread.c: round trips and the hand-over of a lock *)

Section HandoffFacts.
Import Mach Kernel Thread Handoff.

Lemma u32_back x d : 0 <= x < 2 ^ 32 -> u32 (u32 (x + d) - d) = x.
Proof.
  intros H. unfold u32. rewrite Zminus_mod_idemp_l.
  replace (x + d - d) with x by lia. apply Z.mod_small. exact H.
Qed.

(** X15: lock and unlock undo each other.  On a free lock (key 0), for a
    thread with a sane lock count, [runtime·lock] returns at once and the
    [runtime·unlock] that follows restores the key, the semaphore cell,
    [m->locks] and the kernel: neither makes a system call, and no
    semaphore is allocated. *)
Theorem lock_unlock_round_trip (s : lstate)
  (Hfree : key (lk s) = 0) (Hlocks : 0 <= mlocks s < 2 ^ 31 - 1) :
  exists s1,
    lock s = Returned s1 /\ key (lk s1) = 1 /\ lkern s1 = lkern s /\
    unlock s1 = Returned s.
Proof.
  destruct s as [m [ky sm] kn]. cbn [lk key mlocks] in *. subst ky.
  unfold lock. cbn [mlocks lk key sema lkern xadd].
  destruct (Z.ltb_spec m 0); [lia |].
  change (u32 (0 + 1)) with 1. change (1 <? 1) with false. cbv iota.
  eexists. split; [reflexivity |]. cbn [lk key lkern].
  split; [reflexivity |]. split; [reflexivity |].
  unfold unlock. cbn [mlocks lk key sema lkern xadd].
  rewrite (int32_small (m + 1)) by lia.
  replace (m + 1 - 1) with m by lia. rewrite (int32_small m) by lia.
  destruct (Z.ltb_spec m 0); [lia |].
  change (u32 (1 + -1)) with 0. change (0 <? 0) with false. cbv iota.
  reflexivity.
Qed.

Lemma lock_unlock_round_trip_witness :
  exists s1, lock lock0 = Returned s1 /\ unlock s1 = Returned lock0.
Proof.
  destruct (lock_unlock_round_trip lock0 eq_refl ltac:(cbn; lia))
    as (s1 & L & _ & _ & U).
  exists s1. split; assumption.
Defined.

(** X16: release and acquire undo each other in user space.  With a
    counter that is not negative, [usemrelease] followed by [usemacquire]
    restores the semaphore without a system call; so does [usemacquire]
    followed by [usemrelease] when the counter is at least 1. *)
Theorem usema_round_trip (s : Usema) (kn : kernel)
  (Hu : 0 <= u s < 2 ^ 31 - 1) :
  (exists s1,
     usemrelease s kn = (s1, kn) /\ usemacquire s1 kn = Returned (s, kn)) /\
  (1 <= u s ->
   exists s1,
     usemacquire s kn = Returned (s1, kn) /\ usemrelease s1 kn = (s, kn)).
Proof.
  destruct s as [us ks]. cbn [u] in Hu. split.
  - eexists. rewrite usemrelease_fast by (cbn [u]; rewrite int32_small; lia).
    split; [reflexivity |]. cbn [u k].
    rewrite usemacquire_fast; cbn [u k].
    + rewrite u32_back by lia. reflexivity.
    + rewrite <- int32_u32, u32_back by lia. rewrite int32_small; lia.
  - intros H1. cbn [u] in H1. eexists.
    rewrite usemacquire_fast by (cbn [u]; rewrite int32_small; lia).
    split; [reflexivity |]. cbn [u k].
    replace (us - 1) with (us + -1) by lia.
    rewrite usemrelease_fast; cbn [u k].
    + replace (u32 (us + -1) + 1) with (u32 (us + -1) - -1) by lia.
      rewrite u32_back by lia. reflexivity.
    + replace (u32 (us + -1) + 1) with (u32 (us + -1) - -1) by lia.
      rewrite <- int32_u32, u32_back by lia. rewrite int32_small; lia.
Qed.

Lemma usema_round_trip_witness :
  exists s1,
    usemrelease {| u := 0; k := 0 |} boot = (s1, boot) /\
    usemacquire s1 boot = Returned ({| u := 0; k := 0 |}, boot).
Proof.
  destruct (usema_round_trip {| u := 0; k := 0 |} boot ltac:(cbn; lia))
    as (H & _).
  exact H.
Defined.

(** X17: the key counts the holder and the sleepers, and an unlock hands
    the lock to one of them.  While a lock is held with [c] threads asleep
    in its semaphore, another [runtime·lock] puts its caller to sleep there
    too (allocating the semaphore if it is the first), and
    [runtime·unlock] by the holder wakes exactly one sleeper and leaves the
    lock held - or, with no sleeper, frees the lock without a system
    call. *)
Theorem lock_hand_over (s : lstate) (c : nat)
  (Hheld : held_with c (lk s) (lkern s))
  (Hroom : Z.of_nat c + 2 < 2 ^ 32) :
  (0 <= mlocks s ->
   exists s', lock s = Parked s' /\ held_with (S c) (lk s') (lkern s')) /\
  (0 <= int32 (mlocks s - 1) ->
   exists s',
     unlock s = Returned s' /\
     match c with
     | O => key (lk s') = 0 /\ lkern s' = lkern s /\ sema (lk s') = sema (lk s)
     | S c' =>
         held_with c' (lk s') (lkern s') /\
         (sem_post (sema (lk s)) (lkern s)).1 = 1%nat
     end).
Proof.
  destruct s as [m [ky sm] kn]. cbn [lk lkern mlocks] in *.
  destruct Hheld as (Hk & Hs). cbn [key sema] in Hk, Hs. subst ky.
  split.
  - intros Hm. unfold lock. cbn [mlocks lk key sema lkern xadd].
    destruct (Z.ltb_spec m 0); [lia |].
    rewrite (u32_small (Z.of_nat c + 1 + 1)) by lia.
    destruct (Z.ltb_spec 1 (Z.of_nat c + 1 + 1)); [| lia].
    destruct Hs as [[-> ->] | [Ne Hl]].
    + change (0 =? 0) with true. cbv iota. rewrite initsema_zero.
      unfold sem_wait. cbn [sem_init snd sems fresh klog].
      rewrite lookup_insert_eq. cbn [kvalue kwaiting].
      change (0 <? 0) with false. cbv iota.
      eexists. split; [reflexivity |].
      split; cbn [lk key sema lkern sems]; [lia |].
      right. split; [discriminate |]. rewrite lookup_insert_eq. reflexivity.
    + destruct (Z.eqb_spec sm 0); [contradiction |].
      unfold sem_wait. rewrite Hl. cbn [kvalue kwaiting].
      change (0 <? 0) with false. cbv iota.
      eexists. split; [reflexivity |].
      split; cbn [lk key sema lkern sems]; [lia |].
      right. split; [exact Ne |]. rewrite lookup_insert_eq. reflexivity.
  - intros Hm. unfold unlock. cbn [mlocks lk key sema lkern xadd].
    destruct (Z.ltb_spec (int32 (m - 1)) 0); [lia |].
    replace (Z.of_nat c + 1 + -1) with (Z.of_nat c) by lia.
    rewrite (u32_small (Z.of_nat c)) by lia.
    destruct c as [| c'].
    + change (0 <? Z.of_nat 0) with false. cbv iota.
      eexists. split; [reflexivity |]. cbn [lk key sema lkern]. tauto.
    + destruct (Z.ltb_spec 0 (Z.of_nat (S c'))); [| lia].
      destruct Hs as [[_ Hc] | [Ne Hl]]; [discriminate |].
      destruct (Z.eqb_spec sm 0); [contradiction |].
      unfold sem_post. rewrite Hl. cbn [kvalue kwaiting].
      eexists. split; [reflexivity |].
      split; [| reflexivity].
      split; cbn [lk key sema lkern sems]; [lia |].
      right. split; [exact Ne |]. rewrite lookup_insert_eq. reflexivity.
Qed.

(** [lock_hand_over] for the first thread that finds the lock taken, and
    for the unlock that wakes it. *)
Lemma lock_hand_over_witness :
  exists s1 s2 s3,
    lock lock0 = Returned s1 /\
    lock (seen_by 0 s1) = Parked s2 /\
    held_with 1 (lk s2) (lkern s2) /\
    unlock (seen_by 1 s2) = Returned s3 /\
    held_with 0 (lk s3) (lkern s3).
Proof.
  assert (H0 : held_with 0 (lk (seen_by 0 (match lock lock0 with
                                            | Returned a => a
                                            | _ => lock0
                                            end)))
                 (lkern (seen_by 0 (match lock lock0 with
                                    | Returned a => a
                                    | _ => lock0
                                    end)))).
  { split; [reflexivity |]. left. split; reflexivity. }
  destruct (lock_hand_over _ 0 H0 ltac:(cbn; lia)) as (L & _).
  destruct (L ltac:(vm_compute; discriminate)) as (s2 & E2 & H2).
  assert (H2' : held_with 1 (lk (seen_by 1 s2)) (lkern (seen_by 1 s2)))
    by exact H2.
  destruct (lock_hand_over _ 1 H2' ltac:(cbn; lia)) as (_ & U).
  destruct (U ltac:(vm_compute; discriminate)) as (s3 & E3 & H3 & _).
  eexists _, s2, s3. split; [reflexivity |].
  split; [exact E2 |]. split; [exact H2 |]. split; [exact E3 | exact H3].
Defined.

End HandoffFacts.

(** ** The note's semaphore under interleaving *)

Section LeakFacts.
Import Mach Kernel Thread Race Leak.

Lemma sem_wait_dom h t kn x :
  is_Some (sems (sem_wait h t kn).2 !! x) <-> is_Some (sems kn !! x).
Proof.
  unfold sem_wait. destruct (sems kn !! h) as [v |] eqn:E; [| reflexivity].
  destruct (0 <? kvalue v); cbn [snd sems];
    (destruct (Z.eq_dec x h) as [-> | Ne];
     [rewrite lookup_insert_eq, E; split; intros _; eexists; reflexivity
     | rewrite lookup_insert_ne by congruence; reflexivity]).
Qed.

Lemma sem_post_dom h kn x :
  is_Some (sems (sem_post h kn).2 !! x) <-> is_Some (sems kn !! x).
Proof.
  unfold sem_post. destruct (sems kn !! h) as [v |] eqn:E; [| reflexivity].
  destruct (kwaiting v); cbn [snd sems];
    (destruct (Z.eq_dec x h) as [-> | Ne];
     [rewrite lookup_insert_eq, E; split; intros _; eexists; reflexivity
     | rewrite lookup_insert_ne by congruence; reflexivity]).
Qed.

Lemma sem_init_dom v kn x :
  is_Some (sems (sem_init v kn).2 !! x) ->
  x = (sem_init v kn).1 /\ x <> 0 \/ is_Some (sems kn !! x).
Proof.
  unfold sem_init. cbn [fst snd sems].
  destruct (Z.eq_dec x (Z.pos (fresh kn))) as [-> | Ne].
  - intros _. left. split; [reflexivity | discriminate].
  - rewrite lookup_insert_ne by congruence. tauto.
Qed.

Lemma sem_free_dom h kn x :
  is_Some (sems (sem_free h kn) !! x) -> x <> h /\ is_Some (sems kn !! x).
Proof.
  unfold sem_free. cbn [sems].
  destruct (Z.eq_dec x h) as [-> | Ne].
  - rewrite lookup_delete_eq. intros [? H]. discriminate.
  - rewrite lookup_delete_ne by congruence. tauto.
Qed.

(** The note's semaphore cell, once filled, is never written again. *)
Lemma cell_stays s pick :
  k (nsema (note s)) <> 0 ->
  k (nsema (note (step s pick))) = k (nsema (note s)).
Proof.
  intros Ne. unfold step.
  destruct pick; [unfold sleeper_step | unfold waker_step].
  - destruct (sleeper s); cbn [default note nsema k with_u with_k xadd];
      try reflexivity.
    + unfold cas. destruct (Z.eqb_spec (k (nsema (note s))) 0);
        [contradiction | reflexivity].
    + destruct (sem_wait _ _ _). reflexivity.
  - destruct (waker s); cbn [default note nsema k with_u with_k xadd];
      try reflexivity.
    + unfold cas. destruct (Z.eqb_spec (k (nsema (note s))) 0);
        [contradiction | reflexivity].
    + destruct (sem_post _ _). reflexivity.
Qed.

Lemma cell_stays_exec schedule : forall s,
  k (nsema (note s)) <> 0 ->
  k (nsema (note (exec s schedule))) = k (nsema (note s)).
Proof.
  induction schedule as [| pick schedule IH]; intros s Ne; [reflexivity |].
  change (exec s (pick :: schedule)) with (exec (step s pick) schedule).
  pose proof (cell_stays s pick Ne) as E.
  rewrite IH by congruence. exact E.
Qed.

Lemma note_semaphore_cell_kept n kn schedule :
  k (nsema n) <> 0 ->
  k (nsema (note (exec (enter n kn) schedule))) = k (nsema n).
Proof. intros Nk. exact (cell_stays_exec schedule (enter n kn) Nk). Qed.

(** A step keeps every semaphore accounted for. *)
Lemma accounted_step kn0 s pick :
  accounted kn0 s -> accounted kn0 (step s pick).
Proof.
  intros A h. specialize (A h). unfold step.
  destruct pick; [unfold sleeper_step | unfold waker_step].
  - destruct (sleeper s) as [| | | | | h0 | h0 | | h0 |] eqn:Es;
      cbn [default kern note sleeper waker nsema k with_u with_k xadd
           made_s made_w] in *;
      try exact A; try (rewrite Es; exact A).
    + destruct (wakeup (note s) =? 0); exact A.
    + destruct (int32 _ <? 0); exact A.
    + destruct (k (nsema (note s)) =? 0); exact A.
    + destruct (negb _); exact A.
    + intros Hh. apply sem_init_dom in Hh. cbn [sem_init fst] in *.
      destruct Hh as [[-> N0] | Hh]; [right; tauto |].
      destruct (A Hh) as [? | (N0 & [? | [? | ?]])];
        [tauto | right; tauto | discriminate | right; tauto].
    + unfold cas. destruct (Z.eqb_spec (k (nsema (note s))) 0) as [E0 | N0];
        cbn [negb kern note sleeper waker nsema k with_k made_s];
        intros Hh; destruct (A Hh) as [? | (Nh & [? | [Eh | ?]])];
        try tauto; try (right; tauto).
      * congruence.
      * injection Eh as ->. right. tauto.
    + intros Hh. apply sem_free_dom in Hh. destruct Hh as (Nh & Hh).
      destruct (A Hh) as [? | (N0 & [? | [Eh | ?]])];
        [tauto | right; tauto | congruence | right; tauto].
    + destruct (sem_wait (k (nsema (note s))) 0 (kern s)) as [asleep k1] eqn:Ew.
      cbn [kern note sleeper waker]. intros Hh.
      assert (Hh' : is_Some (sems (kern s) !! h)).
      { apply (sem_wait_dom (k (nsema (note s))) 0). rewrite Ew. exact Hh. }
      destruct (A Hh') as [? | (N0 & [? | [? | ?]])];
        [tauto | right; tauto | discriminate | right].
      destruct asleep; tauto.
  - destruct (waker s) as [| | | | | h0 | h0 | |] eqn:Ew;
      cbn [default kern note sleeper waker nsema k with_u with_k xadd
           made_s made_w] in *;
      try exact A; try (rewrite Ew; exact A).
    + destruct (int32 _ <=? 0); exact A.
    + destruct (k (nsema (note s)) =? 0); exact A.
    + destruct (negb _); exact A.
    + intros Hh. apply sem_init_dom in Hh. cbn [sem_init fst] in *.
      destruct Hh as [[-> N0] | Hh]; [right; tauto |].
      destruct (A Hh) as [? | (N0 & [? | [? | ?]])];
        [tauto | right; tauto | right; tauto | discriminate].
    + unfold cas. destruct (Z.eqb_spec (k (nsema (note s))) 0) as [E0 | N0];
        cbn [negb kern note sleeper waker nsema k with_k made_w];
        intros Hh; destruct (A Hh) as [? | (Nh & [? | [? | Eh]])];
        try tauto; try (right; tauto).
      * congruence.
      * injection Eh as ->. right. tauto.
    + intros Hh. apply sem_free_dom in Hh. destruct Hh as (Nh & Hh).
      destruct (A Hh) as [? | (N0 & [? | [? | Eh]])];
        [tauto | right; tauto | right; tauto | congruence].
    + destruct (sem_post (k (nsema (note s))) (kern s)) as [woken k1] eqn:Ep.
      cbn [kern note sleeper waker]. intros Hh.
      assert (Hh' : is_Some (sems (kern s) !! h)).
      { apply (sem_post_dom (k (nsema (note s)))). rewrite Ep. exact Hh. }
      destruct (A Hh') as [? | (N0 & [? | [Eh | ?]])];
        [tauto | right; tauto | | discriminate].
      right. split; [exact N0 |]. right. left.
      destruct woken; [exact Eh |]. destruct (sleeper s); try exact Eh;
        discriminate.
Qed.

Lemma accounted_exec kn0 schedule : forall s,
  accounted kn0 s -> accounted kn0 (exec s schedule).
Proof.
  induction schedule as [| pick schedule IH]; intros s A; [exact A |].
  change (exec s (pick :: schedule)) with (exec (step s pick) schedule).
  apply IH, accounted_step, A.
Qed.

(** X18: the semaphore of a note is installed once.  Under every
    schedule of the two threads, from any state on, a semaphore cell that is
    filled keeps its value: the [cas] of [initsema] writes an empty cell
    only. *)
Theorem note_semaphore_installed_once (s : sys) (schedule : list bool)
  (Hset : k (nsema (note s)) <> 0) :
  k (nsema (note (exec s schedule))) = k (nsema (note s)).
Proof. exact (cell_stays_exec schedule s Hset). Qed.

Lemma note_semaphore_installed_once_witness :
  k (nsema (note (exec (exec (enter note0 boot) race_begins) race_ends))) = 2.
Proof.
  rewrite (note_semaphore_installed_once
             (exec (enter note0 boot) race_begins) race_ends).
  - reflexivity.
  - vm_compute. discriminate.
Defined.

(** X19: a round on a note leaks no semaphore and leaves the note ready
    for the next round.  When, under whatever schedule, the sleeper is back
    from [notesleep] and the waker from [notewakeup], every semaphore in the
    kernel was there before or is the note's own (the loser of a race in
    [initsema] has freed the one it made); the note's semaphore holds no
    credit and nobody sleeps on it; and the counter is not negative. *)
Theorem note_round_leaks_nothing (n : Note) (kn : kernel) (c : nat)
  (schedule : list bool)
  (Hcredits : int32 (u (nsema n)) = Z.of_nat c)
  (Hsmall : Z.of_nat c < 2 ^ 31 - 2)
  (Hkernel : forall h, is_Some (sems kn !! h) -> 0 < h < Z.pos (fresh kn))
  (Hidle : idle (k (nsema n)) kn)
  (Hslept : sleeper (exec (enter n kn) schedule) = SDone)
  (Hwoke : waker (exec (enter n kn) schedule) = WDone) :
  (forall h, is_Some (sems (kern (exec (enter n kn) schedule)) !! h) ->
     is_Some (sems kn !! h) \/
     h = k (nsema (note (exec (enter n kn) schedule)))) /\
  idle (k (nsema (note (exec (enter n kn) schedule))))
    (kern (exec (enter n kn) schedule)) /\
  0 <= int32 (u (nsema (note (exec (enter n kn) schedule))))
    <= Z.of_nat c + 1 /\
  (k (nsema n) <> 0 ->
   k (nsema (note (exec (enter n kn) schedule))) = k (nsema n)).
Proof.
  assert (HC : 0 <= Z.of_nat c < 2 ^ 31 - 2) by lia.
  pose proof (exec_inv (Z.of_nat c) schedule (enter n kn) HC
                (enter_inv (Z.of_nat c) n kn ltac:(lia) Hkernel Hidle)) as I.
  assert (A : accounted kn (exec (enter n kn) schedule)).
  { apply accounted_exec. intros h Hh. left. exact Hh. }
  set (s := exec (enter n kn) schedule) in *.
  pose proof (inv_after _ _ I) as Ia. pose proof (inv_cell _ _ I) as Ic.
  pose proof (inv_u _ _ I) as Iu.
  rewrite Hwoke in Ia. rewrite Hslept in Ia, Ic.
  cbn [before owes_post owes_wait asleep_on] in Ia, Ic.
  destruct (Ia eq_refl) as (U0 & Cr & _).
  split; [| split; [| split]].
  - intros h Hh. destruct (A h Hh) as [? | (_ & [? | [M | M]])];
      [tauto | tauto | |].
    + rewrite Hslept in M. discriminate.
    + rewrite Hwoke in M. discriminate.
  - destruct (Z.eq_dec (k (nsema (note s))) 0) as [E0 | N0];
      [left; exact E0 | right].
    destruct (Ic N0) as (v & Ev & _ & _). rewrite Ev. f_equal. f_equal.
    unfold credit in Cr. rewrite Ev in Cr. cbn [kvalue] in Cr. lia.
  - lia.
  - intros Nk. subst s. apply note_semaphore_cell_kept. exact Nk.
Qed.

(** [note_round_leaks_nothing] for the race in [initsema]: the sleeper's
    semaphore 1 is gone, the waker's semaphore 2 is the note's and idle. *)
Lemma note_round_leaks_nothing_witness :
  sems (kern (exec (enter note0 boot) (race_begins ++ race_ends))) !! 1 = None /\
  idle (k (nsema (note (exec (enter note0 boot) (race_begins ++ race_ends)))))
    (kern (exec (enter note0 boot) (race_begins ++ race_ends))).
Proof.
  destruct (note_round_leaks_nothing note0 boot 0 (race_begins ++ race_ends))
    as (L & I & _ & _).
  - reflexivity.
  - cbn. lia.
  - intros h [x Hx]. unfold boot in Hx. cbn [sems] in Hx.
    rewrite lookup_empty in Hx. discriminate.
  - left. reflexivity.
  - reflexivity.
  - reflexivity.
  - split; [| exact I].
    destruct (sems (kern (exec (enter note0 boot) (race_begins ++ race_ends)))
                !! 1) as [x |] eqn:E; [| reflexivity].
    exfalso. destruct (L 1) as [[y Hy] | H2].
    + rewrite E. eexists. reflexivity.
    + unfold boot in Hy. cbn [sems] in Hy.
      rewrite lookup_empty in Hy. discriminate.
    + vm_compute in H2. discriminate.
Defined.

End LeakFacts.

(** ** peter.go under every schedule *)

Section GoroutineFacts.
Import Chan Peter Goroutines.


Lemma returned_insert : forall (l : list status) i old new,
  l !! i = Some old ->
  (returned (<[i := new]> l) + (if is_finished old then 1 else 0)
   = returned l + (if is_finished new then 1 else 0))%nat.
Proof.
  induction l as [| s l IH]; intros i old new H; [discriminate |].
  destruct i as [| i]; cbn in H.
  - injection H as ->. cbn [insert list_insert returned].
    destruct (is_finished old), (is_finished new); lia.
  - specialize (IH i old new H).
    change (<[S i := new]> (s :: l)) with (s :: <[i := new]> l).
    cbn [returned].
    destruct (is_finished s), (is_finished old), (is_finished new); lia.
Qed.


Lemma tidy_start : tidy start.
Proof.
  split; unfold start, senders;
    cbn [c tasks received printed waiting sendq make map].
  - reflexivity.
  - constructor.
  - intros s H. inversion H.
  - intros i H. apply lookup_replicate in H. destruct H as [H _]. discriminate.
  - reflexivity.
  - reflexivity.
  - constructor.
  - intros x. split; [intros H; inversion H |].
    intros (i & s & _ & H & Ne). apply lookup_replicate in H.
    destruct H as [-> _]. congruence.
Qed.

Lemma tidy_step w pick : fan_in w -> tidy w -> tidy (step w pick).
Proof.
  intros F T. pose proof F as (Hcap & Hbuf & Hcl & _ & _ & _ & Hq).
  pose proof T as [Tt To Tq Ts Tw Tr Tp1 Tp].
  destruct pick as [| i]; cbn [step].
  - destruct (waiting w) eqn:Wt; [exact T |].
    destruct (left w) as [| n] eqn:Lf; [exact T |].
    unfold recv. rewrite Hbuf, Hcl.
    unfold senders in To, Tq, Ts.
    destruct (sendq Z (c w)) as [| [s v] sq] eqn:Sq.
    + split; cbn [c tasks received printed waiting sendq]; unfold senders;
        cbn [c sendq]; try assumption. reflexivity.
    + cbn [foldl wake_one]. cbn [map fst] in To, Tq, Ts.
      apply NoDup_cons in To. destruct To as (Ns & To).
      destruct (Tq s ltac:(left)) as (j & -> & Hj).
      cbn [pred Nat.pred].
      split; cbn [c tasks received printed waiting sendq]; unfold senders;
        cbn [c sendq].
      * rewrite length_insert. exact Tt.
      * exact To.
      * intros s Hs. destruct (Tq s ltac:(right; exact Hs)) as (i & -> & Hi).
        exists i. split; [reflexivity |].
        rewrite list_lookup_insert_ne; [exact Hi |]. intros <-. contradiction.
      * intros i Hi. destruct (Nat.eq_dec i j) as [-> | Ne].
        -- rewrite list_lookup_insert_eq in Hi by (eapply lookup_lt_Some; eauto).
           discriminate.
        -- rewrite list_lookup_insert_ne in Hi by congruence.
           specialize (Ts i Hi). apply elem_of_cons in Ts.
           destruct Ts as [E | In]; [congruence | exact In].
      * discriminate.
      * pose proof (returned_insert _ j Sending Finished Hj) as R.
        cbn [is_finished] in R. rewrite length_app. cbn [length]. lia.
      * exact Tp1.
      * intros x. rewrite Tp. split; intros (i & st & -> & Hi & Ne).
        -- destruct (Nat.eq_dec i j) as [-> | Nij].
           ++ exists j, Finished. split; [reflexivity |].
              rewrite list_lookup_insert_eq by (eapply lookup_lt_Some; eauto).
              split; [reflexivity | discriminate].
           ++ exists i, st. rewrite list_lookup_insert_ne by congruence. tauto.
        -- destruct (Nat.eq_dec i j) as [-> | Nij].
           ++ exists j, Sending. split; [reflexivity |].
              split; [exact Hj | discriminate].
           ++ exists i, st. rewrite list_lookup_insert_ne in Hi by congruence.
              tauto.
  - destruct (tasks w !! i) as [[| |] |] eqn:Ti; try exact T.
    assert (Li : (i < length (tasks w))%nat) by (eapply lookup_lt_Some; eauto).
    assert (Fresh : Z.of_nat (S i) ∉ printed w).
    { intros In. apply Tp in In. destruct In as (j & st & E & Hj & Ne).
      assert (j = i) by lia. subst j. congruence. }
    assert (NotQ : S i ∉ senders w).
    { intros In. destruct (Tq _ In) as (j & E & Hj). injection E as <-.
      congruence. }
    assert (Printed : forall x (l : list status) st', st' <> Asleep ->
              l = <[i := st']> (tasks w) ->
              (x ∈ printed w ++ [Z.of_nat (S i)] <->
               exists j st, x = Z.of_nat (S j) /\ l !! j = Some st /\ st <> Asleep)).
    { intros x l st' Ne' ->. rewrite elem_of_app, list_elem_of_singleton, Tp.
      split.
      - intros [(j & st & -> & Hj & Ne) | ->].
        + exists j, st. split; [reflexivity |].
          rewrite list_lookup_insert_ne by congruence. tauto.
        + exists i, st'. split; [reflexivity |].
          rewrite list_lookup_insert_eq by exact Li. tauto.
      - intros (j & st & -> & Hj & Ne).
        destruct (Nat.eq_dec j i) as [-> | Nji]; [right; reflexivity | left].
        exists j, st. rewrite list_lookup_insert_ne in Hj by congruence. tauto. }
    unfold send. rewrite Hcl.
    destruct Hq as [[Rq Wt] | [Rq [Wt Lf]]]; rewrite Rq.
    + rewrite Hbuf, Hcap. cbn [length Nat.ltb Nat.leb].
      split; cbn [c tasks received printed waiting sendq]; unfold senders;
        cbn [c sendq].
      * rewrite length_insert. exact Tt.
      * rewrite map_app. cbn [map fst]. apply NoDup_app.
        split; [exact To |]. split; [| apply NoDup_singleton].
        intros x In. rewrite list_elem_of_singleton. intros ->. contradiction.
      * intros s. rewrite map_app, elem_of_app. cbn [map fst].
        rewrite list_elem_of_singleton. intros [In | ->].
        -- destruct (Tq s In) as (j & -> & Hj). exists j.
           split; [reflexivity |].
           rewrite list_lookup_insert_ne; [exact Hj |]. congruence.
        -- exists i. split; [reflexivity |].
           apply list_lookup_insert_eq. exact Li.
      * intros j Hj. rewrite map_app, elem_of_app. cbn [map fst].
        rewrite list_elem_of_singleton.
        destruct (Nat.eq_dec j i) as [-> | Nji]; [right; reflexivity | left].
        rewrite list_lookup_insert_ne in Hj by congruence. apply Ts, Hj.
      * congruence.
      * pose proof (returned_insert _ i Asleep Sending Ti) as R.
        cbn [is_finished] in R. lia.
      * apply NoDup_app. split; [exact Tp1 |]. split; [| apply NoDup_singleton].
        intros x In. rewrite list_elem_of_singleton. intros ->. contradiction.
      * intros x. apply (Printed x _ Sending); [discriminate | reflexivity].
    + cbn [foldl wake_one].
      split; cbn [c tasks received printed waiting sendq]; unfold senders;
        cbn [c sendq].
      * rewrite length_insert. exact Tt.
      * exact To.
      * intros s In. destruct (Tq s In) as (j & -> & Hj). exists j.
        split; [reflexivity |].
        rewrite list_lookup_insert_ne; [exact Hj |]. congruence.
      * intros j Hj.
        destruct (Nat.eq_dec j i) as [-> | Nji].
        -- rewrite list_lookup_insert_eq in Hj by exact Li. discriminate.
        -- rewrite list_lookup_insert_ne in Hj by congruence. apply Ts, Hj.
      * discriminate.
      * pose proof (returned_insert _ i Asleep Finished Ti) as R.
        cbn [is_finished] in R. rewrite length_app. cbn [length]. lia.
      * apply NoDup_app. split; [exact Tp1 |]. split; [| apply NoDup_singleton].
        intros x In. rewrite list_elem_of_singleton. intros ->. contradiction.
      * intros x. apply (Printed x _ Finished); [discriminate | reflexivity].
Qed.

Lemma tidy_run schedule : tidy (run schedule).
Proof.
  unfold run. induction schedule as [| pick schedule IH] using rev_ind.
  - exact tidy_start.
  - rewrite foldl_app. cbn [foldl].
    apply tidy_step; [apply (fan_in_run schedule) | exact IH].
Qed.


(** A task that has not returned, where fewer have returned than there
    are. *)
Lemma returned_short : forall l : list status,
  (returned l < length l)%nat ->
  exists i s, l !! i = Some s /\ s <> Finished.
Proof.
  induction l as [| x l IH]; cbn [returned length]; intros H; [lia |].
  destruct x; cbn [is_finished] in H.
  - exists 0%nat, Asleep. split; [reflexivity | discriminate].
  - exists 0%nat, Sending. split; [reflexivity | discriminate].
  - destruct (IH ltac:(lia)) as (i & s & Hi & Ne).
    exists (S i), s. split; [exact Hi | exact Ne].
Qed.


(** How far [main] is from being through. *)
Lemma peter_progress : forall (n : nat) w,
  fan_in w -> tidy w ->
  (2 * left w + (if waiting w then 0 else 1) <= n)%nat ->
  exists more, (length more <= n)%nat /\ left (foldl step w more) = 0%nat.
Proof.
  induction n as [| n IH]; intros w F T M.
  - exists []. split; [reflexivity |]. cbn [foldl].
    destruct (waiting w); lia.
  - destruct (left w) as [| k] eqn:Lf.
    { exists []. split; [cbn; lia | exact Lf]. }
    assert (Move : exists pick,
              (2 * left (step w pick)
               + (if waiting (step w pick) then 0 else 1) <= n)%nat).
    { pose proof F as (Hcap & Hbuf & Hcl & _ & _ & Hlen & Hq).
      pose proof T as [Tt To Tq Ts Tw Tr Tp1 Tp].
      destruct (waiting w) eqn:Wt.
      - destruct Hq as [[_ Wf] | [Rq _]]; [congruence |].
        destruct (returned_short (tasks w)) as (i & s & Hi & Ne).
        { rewrite Tr, Tt. lia. }
        assert (s = Asleep) as ->.
        { destruct s; [reflexivity | | contradiction].
          apply Ts in Hi. unfold senders in Hi. rewrite (Tw eq_refl) in Hi.
          inversion Hi. }
        exists (S i). cbn [step]. rewrite Hi. unfold send.
        rewrite Hcl, Rq. cbn [foldl wake_one left waiting]. rewrite Lf.
        cbn [pred Nat.pred]. lia.
      - exists 0%nat. cbn [step]. rewrite Wt, Lf. unfold recv.
        rewrite Hbuf, Hcl.
        destruct (sendq Z (c w)) as [| [s v] sq]; cbn [left waiting].
        + lia.
        + cbn [foldl wake_one left waiting]. lia. }
    destruct Move as (pick & Hm).
    destruct (IH (step w pick) (fan_in_step w pick F) (tidy_step w pick F T) Hm)
      as (more & Len & E).
    exists (pick :: more). split; [cbn [length]; lia | exact E].
Qed.

(** X21: the program cannot deadlock: whatever the scheduler has done so
    far, at most 21 further picks bring [main] through its ten receives. *)
Theorem peter_never_deadlocks (schedule : list nat) :
  exists more,
    (length more <= 21)%nat /\ left (run (schedule ++ more)) = 0%nat.
Proof.
  destruct (peter_progress 21 (run schedule) (fan_in_run schedule)
              (tidy_run schedule)) as (more & Len & E).
  - destruct (fan_in_run schedule) as (_ & _ & _ & _ & _ & Hlen & _).
    unfold total in Hlen. destruct (waiting (run schedule)); lia.
  - exists more. split; [exact Len |]. unfold run. rewrite foldl_app. exact E.
Qed.

End GoroutineFacts.

(** ** Two threads at one lock: mutual exclusion *)

Section ContendFacts.
Import Mach Kernel Thread Contend.

Lemma good_swap l kn t o : good l kn t o -> good l kn o t.
Proof.
  intros [K O C D Ce A Nt No Mt Mo Mne Lt Lo].
  split; try assumption.
  - lia.
  - lia.
  - intros N. destruct (Ce N) as (v & E). exists v. rewrite E.
    f_equal. f_equal. lia.
  - intros H. apply A. lia.
  - intros h h' H H' E. apply (Mne h' h H' H). congruence.
Qed.

(** A step that changes the thread's place only. *)
Lemma good_goto l kn t o p' :
  good l kn t o -> same_role (at_ t) p' ->
  (forall h, made p' = Some h -> made (at_ t) = Some h) ->
  (needs_sema p' = true -> sema l <> 0) ->
  good l kn (goes t p') o.
Proof.
  intros [K O C D Ce A Nt No Mt Mo Mne [Lt Tt] Lo] (Rh & Rw & Rp & Rs & Rl & Rt)
    Hm Hn.
  split; cbn [goes at_ locks]; try assumption.
  - lia.
  - lia.
  - rewrite Rs. exact Ce.
  - rewrite Rs. exact A.
  - intros h H. apply Mt, Hm, H.
  - intros h h' H H'. apply (Mne h h' (Hm h H) H').
  - split; [lia | exact Rt].
Qed.

Lemma credit_other l kn kn' :
  sems kn' !! sema l = sems kn !! sema l -> credit l kn' = credit l kn.
Proof. unfold credit. intros ->. reflexivity. Qed.

(** A thread makes a semaphore in [initsema]. *)
Lemma good_init l kn t o p' :
  good l kn t o -> same_role (at_ t) p' -> made (at_ t) = None ->
  made p' = Some (sem_init 0 kn).1 -> needs_sema p' = false ->
  good l (sem_init 0 kn).2 (goes t p') o.
Proof.
  intros [K O C D Ce A Nt No Mt Mo Mne [Lt Tt] Lo] (Rh & Rw & Rp & Rs & Rl & Rt)
    Hnone Hm Hn.
  assert (Hcell : Z.pos (fresh kn) <> sema l).
  { intros E. destruct (Ce ltac:(rewrite <- E; discriminate)) as (v & Hv).
    specialize (D (sema l) ltac:(rewrite Hv; eexists; reflexivity)). lia. }
  assert (Hc : credit l (sem_init 0 kn).2 = credit l kn).
  { apply credit_other. cbn [sem_init snd sems].
    rewrite lookup_insert_ne by exact Hcell. reflexivity. }
  cbn [sem_init fst] in Hm.
  split; cbn [goes at_ locks]; rewrite ?Hc; cbn [sem_init snd sems fresh];
    try assumption.
  - lia.
  - lia.
  - intros h Hh. destruct (Z.eq_dec h (Z.pos (fresh kn))) as [-> | Ne].
    + lia.
    + rewrite lookup_insert_ne in Hh by congruence. specialize (D h Hh). lia.
  - intros N. rewrite lookup_insert_ne by exact Hcell. rewrite Rs. exact (Ce N).
  - rewrite Rs. exact A.
  - intros H. congruence.
  - intros h H. rewrite Hm in H. injection H as <-.
    split; [exact Hcell | apply lookup_insert_eq].
  - intros h H. destruct (Mo h H) as (N1 & N2). split; [exact N1 |].
    rewrite lookup_insert_ne; [exact N2 |].
    intros <-. specialize (D (Z.pos (fresh kn))
                             ltac:(rewrite N2; eexists; reflexivity)). lia.
  - intros h h' H H' ->. rewrite Hm in H. injection H as <-.
    destruct (Mo _ H') as (_ & N2).
    specialize (D (Z.pos (fresh kn)) ltac:(rewrite N2; eexists; reflexivity)).
    lia.
  - split; [lia | exact Rt].
Qed.

Lemma no_semaphore_zero l kn t o : good l kn t o -> sems kn !! 0 = None.
Proof.
  intros G. destruct (sems kn !! 0) as [x |] eqn:E; [| reflexivity].
  pose proof (g_dom _ _ _ _ G 0 ltac:(rewrite E; eexists; reflexivity)). lia.
Qed.

(** The [cas] of [initsema] finds the cell empty and installs the
    semaphore the thread has made. *)
Lemma good_install l kn t o h p' :
  good l kn t o -> same_role (at_ t) p' -> made (at_ t) = Some h ->
  sema l = 0 -> made p' = None ->
  good {| key := key l; sema := h |} kn (goes t p') o.
Proof.
  intros G (Rh & Rw & Rp & Rs & Rl & Rt) Hmade H0 Hm.
  pose proof (no_semaphore_zero _ _ _ _ G) as Z0.
  destruct G as [K O C D Ce A Nt No Mt Mo Mne [Lt Tt] Lo].
  destruct (Mt h Hmade) as (Nh & Eh).
  assert (Hc : credit l kn = 0) by (unfold credit; rewrite H0, Z0; reflexivity).
  assert (Hc' : credit {| key := key l; sema := h |} kn = 0)
    by (unfold credit; cbn [sema]; rewrite Eh; reflexivity).
  assert (NoSleep : (sleeping (at_ t) + sleeping (at_ o) = 0)%nat).
  { destruct (at_ t) eqn:Et; try discriminate Hmade;
      destruct (at_ o) eqn:Eo; try reflexivity;
      exfalso; (apply No; [reflexivity | exact H0]). }
  assert (Hh0 : h <> 0).
  { specialize (D h ltac:(rewrite Eh; eexists; reflexivity)). lia. }
  split; cbn [goes at_ locks key sema]; rewrite ?Hc'; rewrite ?Hc in *;
    try assumption.
  - lia.
  - rewrite Rh, Rp. exact O.
  - intros _. exists 0. rewrite Eh, Rs, NoSleep. reflexivity.
  - reflexivity.
  - intros _. exact Hh0.
  - intros _. exact Hh0.
  - intros h' H. congruence.
  - intros h' H. destruct (Mo h' H) as (_ & E'). split; [| exact E'].
    intros ->. exact (Mne h h Hmade H eq_refl).
  - intros h1 h2 H. congruence.
  - split; [lia | exact Rt].
Qed.

(** The loser of the race in [initsema] frees the semaphore it made. *)
Lemma good_free l kn t o h p' :
  good l kn t o -> same_role (at_ t) p' -> made (at_ t) = Some h ->
  sema l <> 0 -> made p' = None ->
  good l (sem_free h kn) (goes t p') o.
Proof.
  intros [K O C D Ce A Nt No Mt Mo Mne [Lt Tt] Lo] (Rh & Rw & Rp & Rs & Rl & Rt)
    Hmade N0 Hm.
  destruct (Mt h Hmade) as (Nh & Eh).
  assert (Hc : credit l (sem_free h kn) = credit l kn).
  { apply credit_other. cbn [sem_free sems].
    rewrite lookup_delete_ne by exact Nh. reflexivity. }
  split; cbn [goes at_ locks]; rewrite ?Hc; cbn [sem_free sems fresh];
    try assumption.
  - lia.
  - lia.
  - intros h' Hh'. destruct (Z.eq_dec h' h) as [-> | Ne].
    + rewrite lookup_delete_eq in Hh'. destruct Hh' as [x Hx]. discriminate.
    + rewrite lookup_delete_ne in Hh' by congruence. exact (D h' Hh').
  - intros N. rewrite lookup_delete_ne by exact Nh. rewrite Rs. exact (Ce N).
  - rewrite Rs. exact A.
  - intros _. exact N0.
  - intros h' H. congruence.
  - intros h' H. destruct (Mo h' H) as (N1 & N2). split; [exact N1 |].
    rewrite lookup_delete_ne; [exact N2 |].
    intros ->. exact (Mne h' h' Hmade H eq_refl).
  - intros h1 h2 H. congruence.
  - split; [lia | exact Rt].
Qed.

Lemma credit_key l k' kn :
  credit {| key := k'; sema := sema l |} kn = credit l kn.
Proof. reflexivity. Qed.

Lemma role_bounds p :
  0 <= holds p /\ 0 <= waits p /\ 0 <= posts p /\
  holds p + waits p + posts p <= 1 /\
  (sleeping p <= 1)%nat /\ (sleeping p = 1%nat -> p = LAsleep).
Proof. destruct p; cbn; repeat split; try lia; discriminate. Qed.

(** The [xadd] of [runtime·lock]. *)
Lemma good_lock_xadd l kn t o :
  good l kn t o -> at_ t = Outside ->
  0 <= locks t /\
  good {| key := u32 (key l + 1); sema := sema l |} kn
       {| at_ := if 1 <? u32 (key l + 1) then LHave else Inside;
          locks := int32 (locks t + 1) |} o.
Proof.
  intros [K O C D Ce A Nt No Mt Mo Mne [Lt Tt] Lo] Et.
  rewrite Et in *. cbn [holds waits posts sleeping made needs_sema locked] in *.
  pose proof (role_bounds (at_ o)) as (B1 & B2 & B3 & B4 & _).
  rewrite Lt. split; [lia |].
  assert (Kb : 0 <= key l <= 1) by (clear - K B1 B2 B3 B4; lia).
  rewrite (u32_small (key l + 1)) by (clear - Kb; lia).
  change (int32 (0 + 1)) with 1.
  revert O. destruct (Z.ltb_spec 0 (key l)) as [Pos | Zero]; intros O.
  - destruct (Z.ltb_spec 1 (key l + 1)); [| lia].
    split; cbn [at_ locks key sema holds waits posts sleeping made needs_sema
                locked thrown]; rewrite ?credit_key; try assumption; try lia;
      try discriminate;
      try (destruct (Z.ltb_spec 0 (key l + 1)); lia);
      try (split; reflexivity).
  - destruct (Z.ltb_spec 1 (key l + 1)); [lia |].
    split; cbn [at_ locks key sema holds waits posts sleeping made needs_sema
                locked thrown]; rewrite ?credit_key; try assumption; try lia;
      try discriminate;
      try (destruct (Z.ltb_spec 0 (key l + 1)); lia);
      try (split; reflexivity).
Qed.

(** The [xadd] of [runtime·unlock]. *)
Lemma good_unlock_xadd l kn t o :
  good l kn t o -> at_ t = Inside ->
  0 <= int32 (locks t - 1) /\
  good {| key := u32 (key l + -1); sema := sema l |} kn
       {| at_ := if 0 <? u32 (key l + -1) then UHave else Outside;
          locks := int32 (locks t - 1) |} o.
Proof.
  intros [K O C D Ce A Nt No Mt Mo Mne [Lt Tt] Lo] Et.
  rewrite Et in *. cbn [holds waits posts sleeping made needs_sema locked] in *.
  pose proof (role_bounds (at_ o)) as (B1 & B2 & B3 & B4 & _).
  rewrite Lt. change (int32 (1 - 1)) with 0. split; [lia |].
  assert (Kb : 1 <= key l <= 2) by (clear - K B1 B2 B3 B4; lia).
  rewrite (u32_small (key l + -1)) by (clear - Kb; lia).
  revert O. destruct (Z.ltb_spec 0 (key l)) as [Pos | Zero]; intros O; [| lia].
  destruct (Z.ltb_spec 0 (key l + -1)) as [More | Last].
  - split; cbn [at_ locks key sema holds waits posts sleeping made needs_sema
                locked thrown]; rewrite ?credit_key; try assumption; try lia;
      try discriminate;
      try (destruct (Z.ltb_spec 0 (key l + -1)); lia);
      try (split; reflexivity).
  - split; cbn [at_ locks key sema holds waits posts sleeping made needs_sema
                locked thrown]; rewrite ?credit_key; try assumption; try lia;
      try discriminate;
      try (destruct (Z.ltb_spec 0 (key l + -1)); lia);
      try (split; reflexivity).
Qed.

(** The [sem_wait] of [runtime·lock]. *)
Lemma good_wait l kn t o :
  good l kn t o -> at_ t = LWait ->
  good l (sem_wait (sema l) 0 kn).2
       (goes t (if (sem_wait (sema l) 0 kn).1 then LAsleep else Inside)) o.
Proof.
  intros [K O C D Ce A Nt No Mt Mo Mne [Lt Tt] Lo] Et.
  rewrite Et in *. cbn [holds waits posts sleeping made needs_sema locked] in *.
  pose proof (Nt eq_refl) as N0. destruct (Ce N0) as (v & Ev).
  assert (Cv : credit l kn = v) by (unfold credit; rewrite Ev; reflexivity).
  rewrite Cv in *.
  revert O. destruct (Z.ltb_spec 0 (key l)) as [Pos | Zero]; intros O.
  2:{ pose proof (role_bounds (at_ o)). lia. }
  assert (Cv' : forall x f lg,
            credit l {| sems := <[sema l := x]> (sems kn);
                        fresh := f; klog := lg |} = kvalue x).
  { intros x f lg. unfold credit. cbn [sems]. rewrite lookup_insert_eq.
    reflexivity. }
  unfold sem_wait. rewrite Ev. cbn [kvalue kwaiting].
  destruct (Z.ltb_spec 0 v) as [Has | Not]; cbn [fst snd];
    (split; cbn [goes at_ locks holds waits posts sleeping made needs_sema
                 locked thrown sems fresh]; rewrite ?Cv'; cbn [kvalue];
     try assumption; try lia; try discriminate).
  all: try solve [destruct (Z.ltb_spec 0 (key l)); lia].
  all: try solve [split; [exact Lt | reflexivity]].
  all: try solve [intros h Hh; destruct (Z.eq_dec h (sema l)) as [-> | Ne];
                  [ apply D; rewrite Ev; eexists; reflexivity
                  | rewrite lookup_insert_ne in Hh by congruence;
                    exact (D h Hh) ]].
  all: try solve [intros _; eexists; rewrite lookup_insert_eq; reflexivity].
  all: try solve [intros h H; destruct (Mo h H) as (N1 & N2);
                  split; [exact N1 |];
                  rewrite lookup_insert_ne by congruence; exact N2].
  all: try solve [intros S1; specialize (A S1); lia].
Qed.

(** The [sem_post] of [runtime·unlock]. *)
Lemma good_post l kn t o :
  good l kn t o -> at_ t = UPost ->
  good l (sem_post (sema l) kn).2 (goes t Outside)
       match (sem_post (sema l) kn).1, at_ o with
       | S _, LAsleep => goes o Inside
       | _, _ => o
       end.
Proof.
  intros [K O C D Ce A Nt No Mt Mo Mne [Lt Tt] [Lo To]] Et.
  rewrite Et in *. cbn [holds waits posts sleeping made needs_sema locked] in *.
  pose proof (Nt eq_refl) as N0. destruct (Ce N0) as (v & Ev).
  assert (Cv : credit l kn = v) by (unfold credit; rewrite Ev; reflexivity).
  rewrite Cv in *.
  pose proof (role_bounds (at_ o)) as (B1 & B2 & B3 & B4 & B5 & B6).
  revert O. destruct (Z.ltb_spec 0 (key l)) as [Pos | Zero]; intros O;
    [| lia].
  assert (Cv' : forall x f lg,
            credit l {| sems := <[sema l := x]> (sems kn);
                        fresh := f; klog := lg |} = kvalue x).
  { intros x f lg. unfold credit. cbn [sems]. rewrite lookup_insert_eq.
    reflexivity. }
  unfold sem_post. rewrite Ev. cbn [kvalue kwaiting plus].
  destruct (sleeping (at_ o)) as [| w] eqn:So; cbn [fst snd].
  - assert (Same : match at_ o with LAsleep => o | _ => o end = o)
      by (destruct (at_ o); reflexivity).
    split; cbn [goes at_ locks holds waits posts sleeping made needs_sema
                locked thrown sems fresh]; rewrite ?Cv'; cbn [kvalue];
      rewrite ?So; try assumption; try lia; try discriminate.
    all: try solve [destruct (Z.ltb_spec 0 (key l)); lia].
    all: try solve [split; [reflexivity | reflexivity]].
    all: try solve [split; assumption].
    all: try solve [intros h Hh; destruct (Z.eq_dec h (sema l)) as [-> | Ne];
                    [ apply D; rewrite Ev; eexists; reflexivity
                    | rewrite lookup_insert_ne in Hh by congruence;
                      exact (D h Hh) ]].
    all: try solve [intros _; eexists; rewrite lookup_insert_eq; reflexivity].
    all: try solve [intros h H; destruct (Mo h H) as (N1 & N2);
                    split; [exact N1 |];
                    rewrite lookup_insert_ne by congruence; exact N2].
  - assert (Eo : at_ o = LAsleep) by (apply B6; lia).
    assert (w = 0%nat) as -> by lia.
    assert (v = 0) as -> by (apply A; lia).
    rewrite Eo in *.
    cbn [holds waits posts sleeping made needs_sema locked] in *.
    split; cbn [goes at_ locks holds waits posts sleeping made needs_sema
                locked thrown sems fresh]; rewrite ?Cv'; cbn [kvalue];
      try assumption; try lia; try discriminate.
    all: try solve [destruct (Z.ltb_spec 0 (key l)); lia].
    all: try solve [split; [reflexivity | reflexivity]].
    all: try solve [split; [exact Lo | reflexivity]].
    all: try solve [intros h Hh; destruct (Z.eq_dec h (sema l)) as [-> | Ne];
                    [ apply D; rewrite Ev; eexists; reflexivity
                    | rewrite lookup_insert_ne in Hh by congruence;
                      exact (D h Hh) ]].
    all: try solve [intros _; eexists; rewrite lookup_insert_eq; reflexivity].
Qed.

Ltac role := repeat split; reflexivity.

(** Every step of a thread keeps the invariant, and none throws. *)
Lemma move_good l kn t o l' kn' t' o' :
  good l kn t o -> move l kn t o = Some (l', kn', t', o') ->
  good l' kn' t' o'.
Proof.
  intros G E. unfold move in E.
  destruct (at_ t) eqn:Et.
  - (* Outside *)
    destruct (good_lock_xadd l kn t o G Et) as (L0 & G').
    destruct (Z.ltb_spec (locks t) 0); [lia |].
    unfold xadd in E. injection E as <- <- <- <-. exact G'.
  - (* LHave *)
    injection E as <- <- <- <-. apply good_goto; [exact G | | |];
      rewrite ?Et; destruct (Z.eqb_spec (sema l) 0); try role;
      try discriminate; intros _; assumption.
  - (* LInitTest *)
    injection E as <- <- <- <-. apply good_goto; [exact G | | |];
      rewrite ?Et; destruct (Z.eqb_spec (sema l) 0); cbn [negb]; try role;
      try discriminate; intros _; assumption.
  - (* LInit *)
    injection E as <- <- <- <-.
    apply (good_init l kn t o (LCas (Z.pos (fresh kn))) G);
      rewrite ?Et; try role.
  - (* LCas *)
    unfold cas in E. destruct (Z.eqb_spec (sema l) 0) as [S0 | S0];
      cbn [negb] in E; injection E as <- <- <- <-.
    + apply (good_install l kn t o sema0 LWait G); rewrite ?Et; try role.
      exact S0.
    + destruct l as [ky sm]. apply good_goto; [exact G | | |];
        rewrite ?Et; try role; [tauto | intros _; exact S0].
  - (* LFree *)
    injection E as <- <- <- <-.
    apply (good_free l kn t o sema0 LWait G); rewrite ?Et; try role.
    apply (g_need_t _ _ _ _ G). rewrite Et. reflexivity.
  - (* LWait *)
    pose proof (good_wait l kn t o G Et) as G'.
    destruct (sem_wait (sema l) 0 kn) as [asleep k1].
    injection E as <- <- <- <-. exact G'.
  - discriminate.
  - (* Inside *)
    destruct (good_unlock_xadd l kn t o G Et) as (L0 & G').
    destruct (Z.ltb_spec (int32 (locks t - 1)) 0); [lia |].
    unfold xadd in E. injection E as <- <- <- <-. exact G'.
  - (* UHave *)
    injection E as <- <- <- <-. apply good_goto; [exact G | | |];
      rewrite ?Et; destruct (Z.eqb_spec (sema l) 0); try role;
      try discriminate; intros _; assumption.
  - (* UInitTest *)
    injection E as <- <- <- <-. apply good_goto; [exact G | | |];
      rewrite ?Et; destruct (Z.eqb_spec (sema l) 0); cbn [negb]; try role;
      try discriminate; intros _; assumption.
  - (* UInit *)
    injection E as <- <- <- <-.
    apply (good_init l kn t o (UCas (Z.pos (fresh kn))) G);
      rewrite ?Et; try role.
  - (* UCas *)
    unfold cas in E. destruct (Z.eqb_spec (sema l) 0) as [S0 | S0];
      cbn [negb] in E; injection E as <- <- <- <-.
    + apply (good_install l kn t o sema0 UPost G); rewrite ?Et; try role.
      exact S0.
    + destruct l as [ky sm]. apply good_goto; [exact G | | |];
        rewrite ?Et; try role; [tauto | intros _; exact S0].
  - (* UFree *)
    injection E as <- <- <- <-.
    apply (good_free l kn t o sema0 UPost G); rewrite ?Et; try role.
    apply (g_need_t _ _ _ _ G). rewrite Et. reflexivity.
  - (* UPost *)
    pose proof (good_post l kn t o G Et) as G'.
    destruct (sem_post (sema l) kn) as [woken k1].
    injection E as <- <- <- <-. exact G'.
  - discriminate.
Qed.

Lemma step_safe s pick : safe s -> safe (step s pick).
Proof.
  unfold safe, step. intros G. destruct pick.
  - destruct (move (mutex s) (kern s) (first s) (second s))
      as [[[[l kn] t] o] |] eqn:E; [| exact G].
    exact (move_good _ _ _ _ _ _ _ _ G E).
  - destruct (move (mutex s) (kern s) (second s) (first s))
      as [[[[l kn] t] o] |] eqn:E; [| exact G].
    apply good_swap. exact (move_good _ _ _ _ _ _ _ _ (good_swap _ _ _ _ G) E).
Qed.

Lemma exec_safe schedule : forall s, safe s -> safe (exec s schedule).
Proof.
  induction schedule as [| pick schedule IH]; intros s G; [exact G |].
  exact (IH _ (step_safe s pick G)).
Qed.

Lemma start_safe kn :
  (forall h, is_Some (sems kn !! h) -> 0 < h < Z.pos (fresh kn)) ->
  safe (start kn).
Proof.
  intros D.
  assert (Z0 : sems kn !! 0 = None).
  { destruct (sems kn !! 0) as [x |] eqn:E; [| reflexivity].
    specialize (D 0 ltac:(rewrite E; eexists; reflexivity)). lia. }
  assert (C0 : credit {| key := 0; sema := 0 |} kn = 0)
    by (unfold credit; cbn [sema]; rewrite Z0; reflexivity).
  split; cbn [start mutex kern first second at_ locks key sema holds waits
              posts sleeping made needs_sema locked thrown];
    rewrite ?C0; try reflexivity; try lia; try discriminate;
    try (split; reflexivity).
  exact D.
Qed.

(** X22: [runtime·lock] keeps two threads apart.  From a free lock, under
    every interleaving of two threads that lock and unlock in turn: the two
    are never inside together; neither ever throws "lock count"; the key is
    the number of threads holding the lock or waiting for it; a thread
    asleep in [runtime·lock] always has the other one inside or about to
    post, so the two never sleep both; and with both outside the lock is
    free again, with no credit left on its semaphore. *)
Theorem lock_keeps_two_threads_apart (kn : kernel) (schedule : list bool)
  (Hkernel : forall h, is_Some (sems kn !! h) -> 0 < h < Z.pos (fresh kn)) :
  ~ (at_ (first (exec (start kn) schedule)) = Inside /\
     at_ (second (exec (start kn) schedule)) = Inside) /\
  (at_ (first (exec (start kn) schedule)) <> Thrown /\
   at_ (second (exec (start kn) schedule)) <> Thrown) /\
  key (mutex (exec (start kn) schedule))
    = holds (at_ (first (exec (start kn) schedule)))
      + holds (at_ (second (exec (start kn) schedule)))
      + waits (at_ (first (exec (start kn) schedule)))
      + waits (at_ (second (exec (start kn) schedule))) /\
  (at_ (first (exec (start kn) schedule)) = LAsleep ->
   holds (at_ (second (exec (start kn) schedule)))
   + posts (at_ (second (exec (start kn) schedule))) = 1) /\
  (at_ (second (exec (start kn) schedule)) = LAsleep ->
   holds (at_ (first (exec (start kn) schedule)))
   + posts (at_ (first (exec (start kn) schedule))) = 1) /\
  (at_ (first (exec (start kn) schedule)) = Outside ->
   at_ (second (exec (start kn) schedule)) = Outside ->
   key (mutex (exec (start kn) schedule)) = 0 /\
   credit (mutex (exec (start kn) schedule))
          (kern (exec (start kn) schedule)) = 0).
Proof.
  pose proof (exec_safe schedule (start kn) (start_safe kn Hkernel)) as G.
  set (s := exec (start kn) schedule) in *.
  destruct G as [K O C D Ce A Nt No Mt Mo Mne [Lt Tt] [Lo To]].
  pose proof (role_bounds (at_ (first s))) as (B1 & B2 & B3 & B4 & _).
  pose proof (role_bounds (at_ (second s))) as (B1' & B2' & B3' & B4' & _).
  assert (One : holds (at_ (first s)) + holds (at_ (second s))
                + posts (at_ (first s)) + posts (at_ (second s))
                + credit (mutex s) (kern s) <= 1).
  { rewrite O. destruct (0 <? key (mutex s)); lia. }
  split; [| split; [| split; [exact K |]; split; [| split]]].
  - intros [E1 E2]. rewrite E1, E2 in One. cbn [holds posts] in One. lia.
  - split; intros E; [rewrite E in Tt | rewrite E in To]; discriminate.
  - intros E. rewrite E in *. cbn [holds waits posts sleeping] in *.
    specialize (A ltac:(lia)). rewrite A in O.
    revert O. destruct (Z.ltb_spec 0 (key (mutex s))); lia.
  - intros E. rewrite E in *. cbn [holds waits posts sleeping] in *.
    specialize (A ltac:(lia)). rewrite A in O.
    revert O. destruct (Z.ltb_spec 0 (key (mutex s))); lia.
  - intros E1 E2. rewrite E1, E2 in *. cbn [holds waits posts] in *.
    split; [lia |].
    revert O. destruct (Z.ltb_spec 0 (key (mutex s))); lia.
Qed.

Lemma lock_keeps_two_threads_apart_witness :
  at_ (first (exec (start boot) meet)) = Outside /\
  at_ (second (exec (start boot) meet)) = Inside /\
  key (mutex (exec (start boot) meet)) = 1.
Proof.
  destruct (lock_keeps_two_threads_apart boot meet) as (_ & _ & K & _).
  - intros h [x Hx]. unfold boot in Hx. cbn [sems] in Hx.
    rewrite lookup_empty in Hx. discriminate.
  - split; [reflexivity |]. split; [reflexivity |]. rewrite K. reflexivity.
Defined.

(** While the other thread sleeps in [runtime·lock], each step of the
    thread that holds the lock or owes the post brings the post nearer, and
    the post wakes the sleeper. *)
Lemma move_wakes l kn t o :
  good l kn t o -> at_ o = LAsleep ->
  exists l' kn' t' o',
    move l kn t o = Some (l', kn', t', o') /\
    (at_ o' = Inside \/
     at_ o' = LAsleep /\ (togo (at_ t') < togo (at_ t))%nat).
Proof.
  intros G Eo. pose proof G as [K O C D Ce A Nt No Mt Mo Mne [Lt Tt] [Lo To]].
  rewrite Eo in *. cbn [holds waits posts sleeping needs_sema] in *.
  pose proof (No eq_refl) as N0.
  assert (Cr : credit l kn = 0) by (apply A; lia).
  rewrite Cr in O.
  pose proof (role_bounds (at_ t)) as (B1 & B2 & B3 & B4 & B5 & B6).
  assert (Hk : 0 < key l) by lia.
  revert O. destruct (Z.ltb_spec 0 (key l)) as [_ | ?]; [| lia]. intros O.
  unfold move.
  destruct (at_ t) eqn:Et; cbn [holds waits posts sleeping locked] in *;
    try lia.
  - (* Inside *)
    rewrite Lt. change (int32 (1 - 1)) with 0. cbn [Z.ltb Z.compare].
    unfold xadd. rewrite (u32_small (key l + -1)) by lia.
    destruct (Z.ltb_spec 0 (key l + -1)); [| lia].
    do 4 eexists. split; [reflexivity |]. right. cbn [at_ togo].
    split; [exact Eo | lia].
  - destruct (Z.eqb_spec (sema l) 0); [contradiction |].
    do 4 eexists. split; [reflexivity |]. right. cbn [goes at_ togo].
    split; [exact Eo | lia].
  - destruct (Z.eqb_spec (sema l) 0); [contradiction |]. cbn [negb].
    do 4 eexists. split; [reflexivity |]. right. cbn [goes at_ togo].
    split; [exact Eo | lia].
  - do 4 eexists. split; [reflexivity |]. right. cbn [goes at_ togo].
    split; [exact Eo | lia].
  - unfold cas. destruct (Z.eqb_spec (sema l) 0); [contradiction |].
    cbn [negb].
    do 4 eexists. split; [reflexivity |]. right. cbn [goes at_ togo].
    split; [exact Eo | lia].
  - do 4 eexists. split; [reflexivity |]. right. cbn [goes at_ togo].
    split; [exact Eo | lia].
  - destruct (Ce N0) as (v & Ev). unfold sem_post. rewrite Ev.
    cbn [kwaiting plus]. rewrite Eo.
    do 4 eexists. split; [reflexivity |]. left. reflexivity.
Qed.

(** A thread that is not asleep is moved by its own steps only. *)
Lemma move_leaves l kn t o l' kn' t' o' :
  move l kn t o = Some (l', kn', t', o') -> at_ o <> LAsleep -> o' = o.
Proof.
  unfold move. intros E Ne.
  destruct (at_ t); try discriminate;
    repeat match type of E with
           | context [if ?b then _ else _] => destruct b
           | context [let '(_, _) := ?x in _] => destruct x
           end;
    try (injection E as _ _ _ <-; reflexivity).
  all: injection E as _ _ _ <-; try reflexivity.
  destruct (at_ o); try reflexivity. contradiction.
Qed.

Lemma stays_inside : forall (n : nat) s,
  at_ (first s) = Inside ->
  at_ (first (exec s (replicate n false))) = Inside.
Proof.
  induction n as [| n IH]; intros s In; [exact In |].
  cbn [replicate]. change (exec s (false :: replicate n false))
    with (exec (step s false) (replicate n false)).
  apply IH. unfold step.
  destruct (move (mutex s) (kern s) (second s) (first s))
    as [[[[l kn] t] o] |] eqn:E; [| exact In].
  cbn [first]. rewrite (move_leaves _ _ _ _ _ _ _ _ E); [exact In |].
  rewrite In. discriminate.
Qed.

Lemma handed_over : forall (n : nat) s,
  safe s -> at_ (first s) = LAsleep ->
  (togo (at_ (second s)) <= n)%nat ->
  at_ (first (exec s (replicate n false))) = Inside.
Proof.
  induction n as [| n IH]; intros s G E1 Hn.
  - exfalso. destruct (move_wakes _ _ _ _ (good_swap _ _ _ _ G) E1)
      as (l' & kn' & t' & o' & _ & [_ | [_ Lt]]).
    + pose proof (g_one _ _ _ _ G) as O. pose proof (g_asleep _ _ _ _ G) as A.
      pose proof (g_key _ _ _ _ G) as K.
      rewrite E1 in *. cbn [holds waits posts sleeping] in *.
      specialize (A ltac:(lia)). rewrite A in O.
      pose proof (role_bounds (at_ (second s))) as (B1 & B2 & B3 & B4 & _).
      revert O. destruct (Z.ltb_spec 0 (key (mutex s))); [| lia].
      destruct (at_ (second s)); cbn [holds posts togo] in *; intros; lia.
    + lia.
  - cbn [replicate]. change (exec s (false :: replicate n false))
      with (exec (step s false) (replicate n false)).
    pose proof (step_safe s false G) as G'.
    destruct (move_wakes _ _ _ _ (good_swap _ _ _ _ G) E1)
      as (l' & kn' & t' & o' & Em & Hw).
    assert (Es : step s false
                 = {| mutex := l'; kern := kn'; first := o'; second := t' |}).
    { unfold step. rewrite Em. reflexivity. }
    rewrite Es in *.
    destruct Hw as [In | [Still Lt]].
    + apply stays_inside. exact In.
    + apply IH; [exact G' | exact Still |]. cbn [second]. lia.
Qed.

Lemma step_swap s pick : step (swap s) pick = swap (step s (negb pick)).
Proof.
  unfold step, swap. destruct pick; cbn [negb mutex kern first second].
  - destruct (move (mutex s) (kern s) (second s) (first s))
      as [[[[l kn] t] o] |]; reflexivity.
  - destruct (move (mutex s) (kern s) (first s) (second s))
      as [[[[l kn] t] o] |]; reflexivity.
Qed.

Lemma exec_swap schedule : forall s,
  exec (swap s) schedule = swap (exec s (map negb schedule)).
Proof.
  induction schedule as [| pick schedule IH]; intros s; [reflexivity |].
  cbn [map]. change (exec (swap s) (pick :: schedule))
    with (exec (step (swap s) pick) schedule).
  rewrite step_swap, IH. reflexivity.
Qed.

Lemma togo_le p : (togo p <= 4)%nat.
Proof. destruct p; cbn; lia. Qed.

(** X23: an unlock hands the lock to the sleeper.  From a free lock,
    under every interleaving: when one thread is asleep in [runtime·lock],
    four steps of the other one - which holds the lock or is on its way to
    the [sem_post] of [runtime·unlock] - are enough to have the sleeper
    woken and inside. *)
Theorem lock_is_handed_over (kn : kernel) (schedule : list bool)
  (Hkernel : forall h, is_Some (sems kn !! h) -> 0 < h < Z.pos (fresh kn)) :
  (at_ (first (exec (start kn) schedule)) = LAsleep ->
   at_ (first (exec (exec (start kn) schedule) (replicate 4 false)))
     = Inside) /\
  (at_ (second (exec (start kn) schedule)) = LAsleep ->
   at_ (second (exec (exec (start kn) schedule) (replicate 4 true)))
     = Inside).
Proof.
  pose proof (exec_safe schedule (start kn) (start_safe kn Hkernel)) as G.
  set (s := exec (start kn) schedule) in *.
  split; intros E.
  - apply handed_over; [exact G | exact E | apply togo_le].
  - change (replicate 4 true) with (map negb (replicate 4 false)).
    change (at_ (first (swap (exec s (map negb (replicate 4 false)))))
            = Inside).
    rewrite <- exec_swap.
    apply handed_over; [apply good_swap, G | exact E | apply togo_le].
Qed.

Lemma lock_is_handed_over_witness :
  at_ (second (exec (start boot) ([true] ++ replicate 7 false))) = LAsleep /\
  at_ (second (exec (exec (start boot) ([true] ++ replicate 7 false))
                 (replicate 4 true))) = Inside.
Proof.
  split; [reflexivity |].
  destruct (lock_is_handed_over boot ([true] ++ replicate 7 false)) as (_ & H).
  - intros h [x Hx]. unfold boot in Hx. cbn [sems] in Hx.
    rewrite lookup_empty in Hx. discriminate.
  - apply H. reflexivity.
Defined.

End ContendFacts.
